(** * TestWaveformSource: a shallow embedding of scopehal's test-signal generator

  The development follows [scopehal/TestWaveformSource.cpp]:

  - [FloatModel] is the arithmetic the C++ code is written in ([float],
    [double], the conversions C++ inserts between them and the integer
    types).  [IEEE] instantiates it with IEEE-754 binary32 / binary64 from
    [SpecFloat]; [Exact] instantiates it with unrounded rationals.
  - [GenerateStep], [GenerateNoisySinewave], [GenerateNoisySinewaveMix],
    [GeneratePRBS31], [Generate8b10b] and [DegradeSerialData] are transcribed
    statement by statement.
  - Code that lives outside the translated file (the FFT library, the
    S-parameter model, [<random>], the window shader) is collected in
    [Environment].  Undefined behaviour (an access outside a buffer, an
  integer division by zero, a conversion that does not fit) is the result
  [None]. *)

From Stdlib Require Import ZArith QArith Qpower Lia Lqa Znumtheory.
From Stdlib Require Import Floats.SpecFloat.
From stdpp Require Import base option list strings.

Local Open Scope Z_scope.

(** ** Arithmetic *)

(** The operations the source applies to [float] and [double] values.  Every
  mixed expression of the source is written with the conversion C++ inserts:
  [i2f]/[i2d] for an integer operand, [f2d] for a [float] promoted to
  [double], [d2f] for a [double] stored into a [float], [d2i] for a [double]
  stored into an [int64_t] (undefined when the value does not fit). *)
Class FloatModel := {
  float : Type;
  double : Type;
  fadd : float -> float -> float;
  fsub : float -> float -> float;
  fmul : float -> float -> float;
  fdiv : float -> float -> float;
  fneg : float -> float;
  fltb : float -> float -> bool;
  i2f : Z -> float;
  dadd : double -> double -> double;
  dmul : double -> double -> double;
  ddiv : double -> double -> double;
  i2d : Z -> double;
  f2d : float -> double;
  d2f : double -> float;
  d2i : double -> option Z
}.

Declare Scope float_scope.
Delimit Scope float_scope with flt.
Notation "x + y" := (fadd x y) : float_scope.
Notation "x - y" := (fsub x y) : float_scope.
Notation "x * y" := (fmul x y) : float_scope.
Notation "x / y" := (fdiv x y) : float_scope.
Notation "- x" := (fneg x) : float_scope.
Notation "x <? y" := (fltb x y) : float_scope.

Definition INT64_MIN : Z := - 2 ^ 63.
Definition INT64_MAX : Z := 2 ^ 63 - 1.
Definition SIZE_MODULUS : Z := 2 ^ 64.

Definition in_int64 (z : Z) : bool := (INT64_MIN <=? z) && (z <=? INT64_MAX).

(** *** IEEE-754 instance *)

Module IEEE.

Definition prec32 : Z := 24.
Definition emax32 : Z := 128.
Definition prec64 : Z := 53.
Definition emax64 : Z := 1024.

(** Conversion of a finite value to another format: the value [m * 2^e] is
    rounded to nearest-even in the target format. *)
Definition convert (prec emax : Z) (x : spec_float) : spec_float :=
  match x with
  | S754_finite s m e => binary_normalize prec emax (cond_Zopp s (Zpos m)) e s
  | _ => x
  end.

(** Truncation toward zero, as in a C++ floating-to-integer conversion. *)
Definition truncate (x : spec_float) : option Z :=
  match x with
  | S754_zero _ => Some 0
  | S754_finite s m e =>
      let mag := if 0 <=? e then Z.shiftl (Zpos m) e else Z.shiftr (Zpos m) (- e) in
      let z := cond_Zopp s mag in
      if in_int64 z then Some z else None
  | _ => None
  end.

Definition model : FloatModel := {|
  float := spec_float;
  double := spec_float;
  fadd := SFadd prec32 emax32;
  fsub := SFsub prec32 emax32;
  fmul := SFmul prec32 emax32;
  fdiv := SFdiv prec32 emax32;
  fneg := SFopp;
  fltb := SFltb;
  i2f := fun z => binary_normalize prec32 emax32 z 0 false;
  dadd := SFadd prec64 emax64;
  dmul := SFmul prec64 emax64;
  ddiv := SFdiv prec64 emax64;
  i2d := fun z => binary_normalize prec64 emax64 z 0 false;
  f2d := convert prec64 emax64;
  d2f := convert prec32 emax32;
  d2i := truncate
|}.

(** The binary32 literals of the scenarios. *)
Definition zero : @float model := S754_zero false.
Definition one : @float model := S754_finite false 8388608 (-23).
Definition two : @float model := S754_finite false 8388608 (-22).
Definition three : @float model := S754_finite false 12582912 (-22).
Definition four : @float model := S754_finite false 8388608 (-21).

(** IEEE comparison [==]: the two zeros are equal. *)
Definition same_value (x y : spec_float) : Prop :=
  x = y \/ (exists s t, x = S754_zero s /\ y = S754_zero t).

(** Neither an infinity nor a NaN. *)
Definition is_finite (x : spec_float) : bool :=
  match x with
  | S754_zero _ | S754_finite _ _ _ => true
  | _ => false
  end.

(** A binary32 value in canonical form. *)
Definition valid32 (x : spec_float) : Prop := valid_binary prec32 emax32 x = true.

End IEEE.

(** *** Exact instance: the same expressions without rounding *)

Module Exact.

Definition Qltb (x y : Q) : bool := negb (Qle_bool y x).

Definition Qtrunc (q : Q) : option Z :=
  let z := Z.quot (Qnum q) (Zpos (Qden q)) in
  if in_int64 z then Some z else None.

Definition model : FloatModel := {|
  float := Q;
  double := Q;
  fadd := Qplus;
  fsub := Qminus;
  fmul := Qmult;
  fdiv := Qdiv;
  fneg := Qopp;
  fltb := Qltb;
  i2f := inject_Z;
  dadd := Qplus;
  dmul := Qmult;
  ddiv := Qdiv;
  i2d := inject_Z;
  f2d := fun x => x;
  d2f := fun x => x;
  d2i := Qtrunc
|}.

End Exact.

(** ** Waveforms *)

Section Waveform.
Context {FM : FloatModel}.

(** [UniformAnalogWaveform]: a label, the time step and the samples. *)
Record UniformAnalogWaveform := {
  m_name : string;
  m_timescale : Z;
  m_samples : list float
}.

Definition new_waveform (name : string) : UniformAnalogWaveform :=
  {| m_name := name; m_timescale := 0; m_samples := [] |}.

Definition set_timescale (w : UniformAnalogWaveform) (t : Z) : UniformAnalogWaveform :=
  {| m_name := m_name w; m_timescale := t; m_samples := m_samples w |}.

Definition set_samples (w : UniformAnalogWaveform) (l : list float) : UniformAnalogWaveform :=
  {| m_name := m_name w; m_timescale := m_timescale w; m_samples := l |}.

(** [Resize]: the first [n] samples are kept; new cells hold [i2f 0] until
    they are written. *)
Definition Resize (w : UniformAnalogWaveform) (n : nat) : UniformAnalogWaveform :=
  set_samples w (resize n (i2f 0) (m_samples w)).

(** [for(size_t i=0; i<n; i++) body]: [for_loop n body s] runs [body] at
    [i = 0, 1, ..., n-1] on the loop state [s]. *)
Fixpoint for_from {S : Type} (i n : nat) (body : nat -> S -> S) (s : S) : S :=
  match n with
  | O => s
  | Datatypes.S n' => for_from (Datatypes.S i) n' body (body i s)
  end.

Definition for_loop {S : Type} (n : nat) (body : nat -> S -> S) (s : S) : S :=
  for_from 0 n body s.

(** *** GenerateStep *)

Definition GenerateStep (vlo vhi : float) (sampleperiod : Z) (depth : nat)
  : UniformAnalogWaveform :=
  let ret := new_waveform "Step" in
  let ret := set_timescale ret sampleperiod in
  let ret := Resize ret depth in
  let mid := (depth / 2)%nat in
  for_loop depth
    (fun i ret =>
       if (i <? mid)%nat
       then set_samples ret (<[i := vlo]> (m_samples ret))
       else set_samples ret (<[i := vhi]> (m_samples ret)))
    ret.

(** ** What the translated file calls but does not define *)

(** [SParameterPoint]: the interpolated response at one frequency. *)
Record SParameterPoint := {
  m_amplitude : float;
  m_phase : float
}.

(** - [std_normal] is one draw of [std::normal_distribution<>] before it is
      scaled: the distribution object carries a cache ([nd_cache], empty in
      [nd_fresh]) and advances the [minstd_rand] state it is given.
    - [sinf], [cosf], [round] are the [<cmath>] functions.
    - [ffts_forward n] / [ffts_backward n] are what a real-valued plan of
      length [n] computes.
    - [s21_size], [GetGroupDelay], [InterpolatePoint] are the S21 vector of
      the channel file loaded by the constructor; [FS_PER_SECOND] is the
      unit macro of the header.
    - [APPLE_SILICON] is the preprocessor switch that removes the FFT path. *)
Class Environment := {
  nd_cache : Type;
  nd_fresh : nd_cache;
  std_normal : nd_cache -> Z -> double * nd_cache * Z;
  sinf : float -> float;
  cosf : float -> float;
  round : double -> double;
  ffts_forward : nat -> list float -> list float;
  ffts_backward : nat -> list float -> list float;
  s21_size : nat;
  GetGroupDelay : nat -> float;
  InterpolatePoint : float -> SParameterPoint;
  FS_PER_SECOND : double;
  APPLE_SILICON : bool
}.

Context {Env : Environment}.

(** Modelled from the spec: [next_pow2] is declared outside the translated
    file; the padded length is "the next power of two at or above the requested
    sample count". *)
Definition next_pow2 (v : nat) : nat := Z.to_nat (2 ^ Z.log2_up (Z.of_nat v)).

(** Modelled from the spec: the [RectangularWindow] shader is not part of the
    translated file; it is "a rectangular window: copy [depth] samples,
    zero-fill the remainder", written into the first [npoints] cells of the
    output buffer. *)
Definition RectangularWindow (input : list float) (numActualSamples npoints : nat)
  (out : list float) : option (list float) :=
  guard (numActualSamples <= length input)%nat;;
  guard (npoints <= length out)%nat;;
  Some (map (fun i => if (i <? numActualSamples)%nat
                      then default (i2f 0) (input !! i) else i2f 0)
            (seq 0 npoints)
        ++ drop npoints out).

(** [ffts_execute] with a forward real plan of length [n]: reads [n] reals,
    writes [n/2 + 1] complex bins. *)
Definition ffts_execute_forward (plan : option nat) (input out : list float)
  : option (list float) :=
  n ← plan;
  let w := (2 * (n / 2 + 1))%nat in
  guard (n <= length input)%nat;;
  guard (w <= length out)%nat;;
  Some (resize w (i2f 0) (ffts_forward n (take n input)) ++ drop w out).

(** [ffts_execute] with a backward real plan of length [n]: reads [n/2 + 1]
    complex bins, writes [n] reals. *)
Definition ffts_execute_backward (plan : option nat) (input out : list float)
  : option (list float) :=
  n ← plan;
  let w := (2 * (n / 2 + 1))%nat in
  guard (w <= length input)%nat;;
  guard (n <= length out)%nat;;
  Some (resize n (i2f 0) (ffts_backward n (take w input)) ++ drop n out).

(** [normal_distribution<> noise(mean, stddev)]; [noise(m_rng)] scales one
    standard draw. *)
Definition noise_state : Type := nd_cache * Z.

Definition normal_distribution (mean stddev : double) (ns : noise_state)
  : double * noise_state :=
  let '(z, nd, rng) := std_normal (fst ns) (snd ns) in
  (dadd (dmul z stddev) mean, (nd, rng)).

(** ** The generator object *)

(** [m_rng] is the state of the engine the object refers to; a plan is
    remembered by its length. *)
Record TestWaveformSource := {
  m_rng : Z;
  m_forwardPlan : option nat;
  m_reversePlan : option nat;
  m_cachedNumPoints : nat;
  m_forwardInBuf : list float;
  m_forwardOutBuf : list float;
  m_reverseOutBuf : list float
}.

(** The constructor. *)
Definition TestWaveformSource_new (rng : Z) : TestWaveformSource :=
  {| m_rng := rng;
     m_forwardPlan := None;
     m_reversePlan := None;
     m_cachedNumPoints := 0;
     m_forwardInBuf := [];
     m_forwardOutBuf := [];
     m_reverseOutBuf := [] |}.

Definition set_rng (src : TestWaveformSource) (rng : Z) : TestWaveformSource :=
  {| m_rng := rng;
     m_forwardPlan := m_forwardPlan src;
     m_reversePlan := m_reversePlan src;
     m_cachedNumPoints := m_cachedNumPoints src;
     m_forwardInBuf := m_forwardInBuf src;
     m_forwardOutBuf := m_forwardOutBuf src;
     m_reverseOutBuf := m_reverseOutBuf src |}.

(** The loops whose body can leave the defined behaviour. *)
Fixpoint for_fromM {S : Type} (i n : nat) (body : nat -> S -> option S) (s : S)
  : option S :=
  match n with
  | O => Some s
  | Datatypes.S n' => s' ← body i s; for_fromM (Datatypes.S i) n' body s'
  end.

Definition for_loopM {S : Type} (n : nat) (body : nat -> S -> option S) (s : S)
  : option S :=
  for_fromM 0 n body s.

(** ** Bit-pattern synthesis *)

Definition uint32 (z : Z) : Z := z mod 2 ^ 32.

(** [( (prbs >> 30) ^ (prbs >> 27) ) & 1] *)
Definition PRBS31_next (prbs : Z) : Z :=
  Z.land (Z.lxor (Z.shiftr prbs 30) (Z.shiftr prbs 27)) 1.

(** [(prbs << 1) | next] on a [uint32_t] *)
Definition PRBS31_shift (prbs : Z) : Z :=
  uint32 (Z.lor (Z.shiftl prbs 1) (PRBS31_next prbs)).

(** The variables that live across iterations of the PRBS31 loop. *)
Record PRBS31_vars := {
  v_prbs : Z;
  v_phase : float;
  v_value : bool
}.

(** [value ? scale : -scale] *)
Definition level (scale : float) (value : bool) : float :=
  if value then scale else (- scale)%flt.

(** One iteration of the loop of [GeneratePRBS31]: the variables after it and
    the sample it stores. *)
Definition PRBS31_iteration (scale period : float) (sampleperiod : Z)
  (st : PRBS31_vars) : PRBS31_vars * float :=
  let prbs := v_prbs st in
  let phase_to_next_edge := v_phase st in
  let value := v_value st in
  let last_phase := phase_to_next_edge in
  let phase_to_next_edge := (phase_to_next_edge - i2f sampleperiod)%flt in
  let last := value in
  let '(prbs, value, phase_to_next_edge) :=
    if (phase_to_next_edge <? i2f 0)%flt then
      let next := PRBS31_next prbs in
      let prbs := PRBS31_shift prbs in
      let value := negb (next =? 0) in
      (prbs, value, (phase_to_next_edge + period)%flt)
    else (prbs, value, phase_to_next_edge) in
  let sample :=
    if Bool.eqb last value then level scale value
    else
      let last_voltage := level scale last in
      let cur_voltage := level scale value in
      let frac := (i2f 1 - last_phase / i2f sampleperiod)%flt in
      let delta := (cur_voltage - last_voltage)%flt in
      (last_voltage + delta * frac)%flt in
  ({| v_prbs := prbs; v_phase := phase_to_next_edge; v_value := value |}, sample).

(** [for(i...) { ...; ret->m_samples[i] = sample; }] *)
Definition synthesize {St : Type} (iteration : St -> St * float) (depth : nat)
  (st : St) (ret : UniformAnalogWaveform) : St * UniformAnalogWaveform :=
  for_loop depth
    (fun i '(st, ret) =>
       let '(st, sample) := iteration st in
       (st, set_samples ret (<[i := sample]> (m_samples ret))))
    (st, ret).

Definition patternlen : Z := 20.

Definition pattern : list bool :=
  [ false; false; true; true; true; true; true; false; true; false;
    true; false; false; true; false; false; false; true; false; true ].

(** The variables that live across iterations of the 8b10b loop. *)
Record b8b10b_vars := {
  w_nbit : Z;
  w_phase : float;
  w_value : bool
}.

(** [value = pattern[nbit ++]; if(nbit >= patternlen) nbit = 0;] *)
Definition pattern_advance (nbit : Z) : bool * Z :=
  let value := nth (Z.to_nat nbit) pattern false in
  let nbit := nbit + 1 in
  (value, if patternlen <=? nbit then 0 else nbit).

(** One iteration of the loop of [Generate8b10b]. *)
Definition b8b10b_iteration (scale period : float) (sampleperiod : Z)
  (st : b8b10b_vars) : b8b10b_vars * float :=
  let nbit := w_nbit st in
  let phase_to_next_edge := w_phase st in
  let value := w_value st in
  let last_phase := phase_to_next_edge in
  let phase_to_next_edge := (phase_to_next_edge - i2f sampleperiod)%flt in
  let last := value in
  let '(nbit, value, phase_to_next_edge) :=
    if (phase_to_next_edge <? i2f 0)%flt then
      let '(value, nbit) := pattern_advance nbit in
      (nbit, value, (phase_to_next_edge + period)%flt)
    else (nbit, value, phase_to_next_edge) in
  let sample :=
    if Bool.eqb last value then level scale value
    else
      let last_voltage := level scale last in
      let cur_voltage := level scale value in
      let frac := (i2f 1 - last_phase / i2f sampleperiod)%flt in
      let delta := (cur_voltage - last_voltage)%flt in
      (last_voltage + delta * frac)%flt in
  ({| w_nbit := nbit; w_phase := phase_to_next_edge; w_value := value |}, sample).

(** ** DegradeSerialData *)

(** "Reallocate FFT buffer if sample depth changed". *)
Definition prepare_fft (src : TestWaveformSource) (npoints nouts : nat)
  : TestWaveformSource :=
  if (m_cachedNumPoints src =? npoints)%nat then src
  else
    {| m_rng := m_rng src;
       m_forwardPlan := Some npoints;
       m_reversePlan := Some npoints;
       m_cachedNumPoints := npoints;
       m_forwardInBuf := resize npoints (i2f 0) (m_forwardInBuf src);
       m_forwardOutBuf := resize (2 * nouts) (i2f 0) (m_forwardOutBuf src);
       m_reverseOutBuf := resize npoints (i2f 0) (m_reverseOutBuf src) |}.

(** Division of two [int64_t]. *)
Definition int64_div (a b : Z) : option Z :=
  if (b =? 0) || ((a =? INT64_MIN) && (b =? -1)) then None
  else Some (Z.quot a b).

(** [int64_t groupDelay = s21.GetGroupDelay(s21.size() / 2) * FS_PER_SECOND;] *)
Definition groupDelay : option Z :=
  d2i (dmul (f2d (GetGroupDelay (s21_size / 2)%nat)) FS_PER_SECOND).

(** [int64_t groupDelaySamples = groupDelay / cap->m_timescale;] *)
Definition groupDelaySamples (timescale : Z) : option Z :=
  gd ← groupDelay; int64_div gd timescale.

(** "Apply the channel": every bin is rotated and scaled by the interpolated
    response. *)
Definition apply_channel (sampleperiod : Z) (nouts : nat) (buf : list float)
  : option (list float) :=
  let sample_ghz := ddiv (i2d 1000000) (i2d sampleperiod) in
  let bin_hz :=
    round (ddiv (dmul (dmul (f2d (i2f 1 / i2f 2)%flt) sample_ghz)
                      (f2d (i2f 1000000000)))
                (i2d (Z.of_nat nouts))) in
  for_loopM nouts
    (fun i buf =>
       let freq := d2f (dmul bin_hz (i2d (Z.of_nat i))) in
       let pt := InterpolatePoint freq in
       let mag := m_amplitude pt in
       let ang := m_phase pt in
       let sinval := (sinf ang * mag)%flt in
       let cosval := (cosf ang * mag)%flt in
       real_orig ← buf !! (i * 2)%nat;
       imag_orig ← buf !! (i * 2 + 1)%nat;
       let buf := <[(i * 2)%nat := (real_orig * cosval - imag_orig * sinval)%flt]> buf in
       Some (<[(i * 2 + 1)%nat := (real_orig * sinval + imag_orig * cosval)%flt]> buf))
    buf.

(** The loop of the noise-only branch: [cap->m_samples[i] += noise(m_rng)]. *)
Definition add_noise (noise : noise_state -> double * noise_state) (depth : nat)
  (samples : list float) (ns : noise_state) : option (list float * noise_state) :=
  for_loopM depth
    (fun i '(samples, ns) =>
       x ← samples !! i;
       let '(n, ns) := noise ns in
       Some (<[i := d2f (dadd (f2d x) n)]> samples, ns))
    (samples, ns).

(** The last loop of the FFT branch:
    [cap->m_samples[i] = m_reverseOutBuf[i + istart] * fftscale + noise(m_rng)]. *)
Definition rescale_and_copy (noise : noise_state -> double * noise_state)
  (revbuf : list float) (istart finalLen : Z) (fftscale : float)
  (samples : list float) (ns : noise_state) : option (list float * noise_state) :=
  for_loopM (Z.to_nat finalLen)
    (fun i '(samples, ns) =>
       r ← revbuf !! Z.to_nat ((Z.of_nat i + istart) mod SIZE_MODULUS);
       guard (i < length samples)%nat;;
       let '(n, ns) := noise ns in
       Some (<[i := d2f (dadd (f2d (r * fftscale)%flt) n)]> samples, ns))
    (samples, ns).

Definition DegradeSerialData (src : TestWaveformSource) (cap : UniformAnalogWaveform)
  (sampleperiod : Z) (depth : nat) (lpf : bool) (noise_amplitude : float)
  : option (TestWaveformSource * UniformAnalogWaveform) :=
  let noise := normal_distribution (i2d 0) (f2d noise_amplitude) in
  let noise_only (src : TestWaveformSource) :=
    '(samples, ns) ← add_noise noise depth (m_samples cap) (nd_fresh, m_rng src);
    Some (set_rng src (snd ns), set_samples cap samples) in
  if APPLE_SILICON then noise_only src
  else
    let npoints := next_pow2 depth in
    let nouts := (npoints / 2 + 1)%nat in
    let src := prepare_fft src npoints nouts in
    if lpf then
      inbuf ← RectangularWindow (m_samples cap) depth npoints (m_forwardInBuf src);
      outbuf ← ffts_execute_forward (m_forwardPlan src) inbuf (m_forwardOutBuf src);
      groupDelaySamples ← groupDelaySamples (m_timescale cap);
      outbuf ← apply_channel sampleperiod nouts outbuf;
      revbuf ← ffts_execute_backward (m_reversePlan src) outbuf (m_reverseOutBuf src);
      let istart := groupDelaySamples mod SIZE_MODULUS in
      let iend := Z.of_nat depth in
      let finalLen := (iend - istart) mod SIZE_MODULUS in
      let fftscale := (i2f 1 / i2f (Z.of_nat npoints))%flt in
      '(samples, ns) ← rescale_and_copy noise revbuf istart finalLen fftscale
                         (m_samples cap) (nd_fresh, m_rng src);
      let cap := Resize (set_samples cap samples) (Z.to_nat finalLen) in
      Some ({| m_rng := snd ns;
               m_forwardPlan := m_forwardPlan src;
               m_reversePlan := m_reversePlan src;
               m_cachedNumPoints := m_cachedNumPoints src;
               m_forwardInBuf := inbuf;
               m_forwardOutBuf := outbuf;
               m_reverseOutBuf := revbuf |}, cap)
    else noise_only src.

(** ** The serial-data generators *)

(** [rand_result] is what the call [rand()] returns: the C library's generator
    is process-wide state, neither a parameter of the call nor part of
    [m_rng]. *)
Definition PRBS31_waveform (rand_result : Z) (amplitude period : float)
  (sampleperiod : Z) (depth : nat) : UniformAnalogWaveform :=
  let ret := new_waveform "PRBS31" in
  let ret := set_timescale ret sampleperiod in
  let ret := Resize ret depth in
  let prbs := uint32 rand_result in
  let scale := (amplitude / i2f 2)%flt in
  let phase_to_next_edge := period in
  let value := false in
  snd (synthesize (PRBS31_iteration scale period sampleperiod) depth
         {| v_prbs := prbs; v_phase := phase_to_next_edge; v_value := value |} ret).

Definition GeneratePRBS31 (src : TestWaveformSource) (rand_result : Z)
  (amplitude period : float) (sampleperiod : Z) (depth : nat) (lpf : bool)
  (noise_amplitude : float) : option (TestWaveformSource * UniformAnalogWaveform) :=
  let ret := PRBS31_waveform rand_result amplitude period sampleperiod depth in
  DegradeSerialData src ret sampleperiod depth lpf noise_amplitude.

Definition b8b10b_waveform (amplitude period : float) (sampleperiod : Z)
  (depth : nat) : UniformAnalogWaveform :=
  let ret := new_waveform "8B10B" in
  let ret := set_timescale ret sampleperiod in
  let ret := Resize ret depth in
  let scale := (amplitude / i2f 2)%flt in
  let phase_to_next_edge := period in
  let value := false in
  let nbit := 0 in
  snd (synthesize (b8b10b_iteration scale period sampleperiod) depth
         {| w_nbit := nbit; w_phase := phase_to_next_edge; w_value := value |} ret).

Definition Generate8b10b (src : TestWaveformSource)
  (amplitude period : float) (sampleperiod : Z) (depth : nat) (lpf : bool)
  (noise_amplitude : float) : option (TestWaveformSource * UniformAnalogWaveform) :=
  let ret := b8b10b_waveform amplitude period sampleperiod depth in
  DegradeSerialData src ret sampleperiod depth lpf noise_amplitude.

End Waveform.

(** ** Vocabulary of the statements *)

Section Vocabulary.
Context {FM : FloatModel}.

(** The loop variables after [n] iterations. *)
Definition vars_after {St : Type} (iteration : St -> St * float) (n : nat) (st : St) : St :=
  Nat.iter n (fun s => fst (iteration s)) st.

(** The loop variables on entry of the two synthesis loops. *)
Definition PRBS31_entry (rand_result : Z) (period : float) : PRBS31_vars :=
  {| v_prbs := uint32 rand_result; v_phase := period; v_value := false |}.

Definition b8b10b_entry (period : float) : b8b10b_vars :=
  {| w_nbit := 0; w_phase := period; w_value := false |}.

(** The sample an iteration stores, from the logic level and accumulator
    before it ([last], [last_phase]) and the logic level after it. *)
Definition emitted (scale : float) (sampleperiod : Z) (last : bool) (last_phase : float)
  (value : bool) : float :=
  if Bool.eqb last value then level scale value
  else (level scale last
        + (level scale value - level scale last)
          * (i2f 1 - last_phase / i2f sampleperiod))%flt.

(** The accumulator after an iteration that entered with [phase]. *)
Definition next_phase (period : float) (sampleperiod : Z) (phase : float) : float :=
  let decremented := (phase - i2f sampleperiod)%flt in
  if (decremented <? i2f 0)%flt then (decremented + period)%flt else decremented.

(** Whether the iteration that entered with [phase] advances the pattern. *)
Definition crosses (sampleperiod : Z) (phase : float) : bool :=
  ((phase - i2f sampleperiod) <? i2f 0)%flt.

End Vocabulary.

(** ** A reference environment *)

(** An environment to run the model in: the engine is [minstd_rand]
    ([x <- 48271 * x mod (2^31 - 1)]) and a standard draw is one of the seven
    integers [-3 .. 3] picked by the engine; the channel is flat (magnitude 1,
    phase 0, so that [sinf] and [cosf] are only asked at 0) with the given
    group delay; the transforms hand their input through. *)
Definition minstd_rand (x : Z) : Z := (48271 * x) mod 2147483647.

Definition reference_env {FM : FloatModel} (group_delay : float) (apple_silicon : bool)
  : Environment :=
  {| nd_cache := unit;
     nd_fresh := tt;
     std_normal := fun _ rng =>
       let rng := minstd_rand rng in (i2d (rng mod 7 - 3), tt, rng);
     sinf := fun _ => i2f 0;
     cosf := fun _ => i2f 1;
     round := fun x => x;
     ffts_forward := fun _ l => l;
     ffts_backward := fun _ l => l;
     s21_size := 2;
     GetGroupDelay := fun _ => group_delay;
     InterpolatePoint := fun _ => {| m_amplitude := i2f 1; m_phase := i2f 0 |};
     FS_PER_SECOND := i2d (10 ^ 15);
     APPLE_SILICON := apple_silicon |}.

(** ** The raw bit sequences *)

Section BitSequences.
Context {FM : FloatModel}.

(** The accumulator on entry of iteration [i]; it does not depend on the
    pattern. *)
Definition phase_after (period : float) (sampleperiod : Z) (i : nat) : float :=
  Nat.iter i (next_phase period sampleperiod) period.

(** The number of pattern advances in the first [i] iterations. *)
Fixpoint advances (period : float) (sampleperiod : Z) (i : nat) : nat :=
  match i with
  | O => O
  | Datatypes.S j =>
      (advances period sampleperiod j
       + (if crosses sampleperiod (phase_after period sampleperiod j) then 1 else 0))%nat
  end.

End BitSequences.

(** The [k]-th logic level the fixed pattern delivers ([k = 0] is the first). *)
Definition b8b10b_nbit (k : nat) : Z :=
  Nat.iter k (fun nbit => snd (pattern_advance nbit)) 0.

Definition b8b10b_bit (k : nat) : bool := fst (pattern_advance (b8b10b_nbit k)).

(** The [n]-th logic level the shift register delivers from the state [seed]. *)
Definition PRBS31_bit (seed : Z) (n : N) : bool :=
  negb (PRBS31_next (N.iter n PRBS31_shift seed) =? 0).

(** No shift [p] in [1 .. 19] maps the first 20 levels of the fixed pattern
    onto themselves. *)
Definition b8b10b_no_shorter_period : bool :=
  forallb (fun p => existsb (fun k => negb (Bool.eqb (b8b10b_bit (k + p)) (b8b10b_bit k)))
                            (seq 0 20))
          (seq 1 19).

(** ** The shift register as a linear map over GF(2) *)

(** The 31 bits of the register that feed the taps. *)
Definition low31 (z : Z) : Z := z mod 2 ^ 31.

(** One shift, seen on those 31 bits. *)
Definition lfsr31 (s : Z) : Z := low31 (PRBS31_shift s).

(** A GF(2)-linear map on bit vectors, given by the images of the unit vectors
    [2^0, 2^1, ...]. *)
Fixpoint mat_apply (M : list Z) (s : Z) : Z :=
  match M with
  | [] => 0
  | c :: M' => Z.lxor (if Z.odd s then c else 0) (mat_apply M' (Z.div2 s))
  end.

Definition mat_mul (A B : list Z) : list Z := map (mat_apply A) B.

Fixpoint mat_pow (M : list Z) (p : positive) : list Z :=
  match p with
  | xH => M
  | xO p' => let H := mat_pow M p' in mat_mul H H
  | xI p' => let H := mat_pow M p' in mat_mul M (mat_mul H H)
  end.

Fixpoint unit_vectors (j : Z) (k : nat) : list Z :=
  match k with
  | O => []
  | Datatypes.S k' => 2 ^ j :: unit_vectors (j + 1) k'
  end.

Definition lfsr31_matrix : list Z := map lfsr31 (unit_vectors 0 31).

(** The length of the PRBS31 cycle. *)
Definition PRBS31_period : N := 2147483647.

(** Trial division: [n] has no divisor among [d, d+1, ..., d+fuel-1]. *)
Fixpoint no_divisor (fuel : nat) (d n : Z) : bool :=
  match fuel with
  | O => true
  | Datatypes.S fuel' => if n mod d =? 0 then false else no_divisor fuel' (d + 1) n
  end.

(** ** The noise source along a call *)

Section NoiseSequence.
Context {FM : FloatModel} {Env : Environment}.

(** The distribution cache and engine state after [i] draws. *)
Definition noise_after (noise : noise_state -> double * noise_state) (i : nat)
  (ns : noise_state) : noise_state :=
  Nat.iter i (fun s => snd (noise s)) ns.

(** Draw number [i] (the first draw is number 0). *)
Definition noise_draw (noise : noise_state -> double * noise_state) (i : nat)
  (ns : noise_state) : double :=
  fst (noise (noise_after noise i ns)).

(** The FFT buffers and plans agree with the cached length. *)
Definition cache_consistent (src : TestWaveformSource) : Prop :=
  m_cachedNumPoints src = 0%nat \/
  (m_forwardPlan src = Some (m_cachedNumPoints src) /\
   m_reversePlan src = Some (m_cachedNumPoints src) /\
   length (m_forwardInBuf src) = m_cachedNumPoints src /\
   length (m_forwardOutBuf src) = (2 * (m_cachedNumPoints src / 2 + 1))%nat /\
   length (m_reverseOutBuf src) = m_cachedNumPoints src).

End NoiseSequence.

(** The reference environment in binary32: a flat channel whose group delay
    is 2^-40 s (909.49 fs), with the FFT path compiled in. *)
Definition reference_IEEE : @Environment IEEE.model :=
  reference_env (FM := IEEE.model) (S754_finite false 8388608 (-63)) false.

(** The reference environment in exact arithmetic, without group delay. *)
Definition reference_Exact : @Environment Exact.model :=
  reference_env (FM := Exact.model) (0 # 1)%Q false.

(** An object whose cache was filled by an earlier call of depth 3 or 4. *)
Definition used_source {FM : FloatModel} (rng : Z) : TestWaveformSource :=
  {| m_rng := rng;
     m_forwardPlan := Some 4%nat;
     m_reversePlan := Some 4%nat;
     m_cachedNumPoints := 4;
     m_forwardInBuf := replicate 4 (i2f 1);
     m_forwardOutBuf := replicate 6 (i2f 1);
     m_reverseOutBuf := replicate 4 (i2f 1) |}.

(** ** The group delay as the specification words it *)

(** The rational value of a finite binary float. *)
Definition SF2Q (x : spec_float) : Q :=
  match x with
  | S754_finite s m e => (inject_Z (cond_Zopp s (Zpos m)) * Qpower (2 # 1) e)%Q
  | _ => 0%Q
  end.

(** [round]: the nearest integer, halves away from zero. *)
Definition round_half_away (q : Q) : Z :=
  Z.sgn (Qnum q) * ((2 * Z.abs (Qnum q) + Zpos (Qden q)) / (2 * Zpos (Qden q))).

(** "groupDelaySamples = round(groupDelaySeconds / samplePeriod)", the sample
    period being a number of femtoseconds. *)
Definition spec_groupDelaySamples (groupDelaySeconds : Q) (samplePeriod : Z) : Z :=
  round_half_away (groupDelaySeconds * inject_Z (10 ^ 15) / inject_Z samplePeriod)%Q.

(** ** Values of binary floating-point numbers *)

(** [2^e] and the dyadic number [m * 2^e]; [SF2Q] is [dyadic] on a finite
    float. *)
Definition pow2 (e : Z) : Q := Qpower (2 # 1) e.

Definition dyadic (m e : Z) : Q := (inject_Z m * pow2 e)%Q.

(** What a rounding step is told about the exact value [v]: it is the
    mantissa [mx] at exponent [ex], or lies strictly between it and the next
    one. *)
Definition located (mx ex : Z) (lx : location) (v : Q) : Prop :=
  match lx with
  | loc_Exact => (v == dyadic mx ex)%Q
  | loc_Inexact _ => (dyadic mx ex < v < dyadic (mx + 1) ex)%Q
  end.

(** A canonical binary32 value that is neither an infinity nor a NaN. *)
Definition finite32 (x : spec_float) : Prop :=
  IEEE.valid32 x /\ IEEE.is_finite x = true.

(** The largest finite binary32 value, and half of it. *)
Definition max32 : spec_float := S754_finite false 16777215 104.

Definition half_max32 : spec_float := S754_finite false 16777215 103.

(** The accumulator of the synthesis loops is [+inf] (an infinite symbol
    period) or finite and not negative. *)
Definition phase_ok (phase : spec_float) : Prop :=
  phase = S754_infinity false \/ (finite32 phase /\ (0 <= SF2Q phase)%Q).

(** ** The sinewave generators *)

Section Sinewaves.
Context {FM : FloatModel} {Env : Environment}.

(** [M_PI] is the [double] constant of [<cmath>]. *)
Variable M_PI : double.

(** [GenerateNoisySinewave]: the engine behind [m_rng] is advanced by the
    draws, so the object is returned with the waveform. *)
Definition GenerateNoisySinewave (src : TestWaveformSource)
  (amplitude startphase period : float) (sampleperiod : Z) (depth : nat)
  (noise_amplitude : float) : TestWaveformSource * UniformAnalogWaveform :=
  let ret := new_waveform "NoisySine" in
  let ret := set_timescale ret sampleperiod in
  let ret := Resize ret depth in
  let noise := normal_distribution (i2d 0) (f2d noise_amplitude) in
  let samples_per_cycle := d2f (ddiv (dmul (f2d period) (i2d 1)) (i2d sampleperiod)) in
  let radians_per_sample := d2f (ddiv (dmul (i2d 2) M_PI) (f2d samples_per_cycle)) in
  let scale := (amplitude / i2f 2)%flt in
  let '(ret, ns) :=
    for_loop depth
      (fun i '(ret, ns) =>
         let '(n, ns) := noise ns in
         (set_samples ret
            (<[i := d2f (dadd (f2d (scale * sinf (i2f (Z.of_nat i) * radians_per_sample
                                                  + startphase))%flt) n)]>
               (m_samples ret)),
          ns))
      (ret, (nd_fresh, m_rng src)) in
  (set_rng src (snd ns), ret).

(** [GenerateNoisySinewaveMix] *)
Definition GenerateNoisySinewaveMix (src : TestWaveformSource)
  (amplitude startphase1 startphase2 period1 period2 : float) (sampleperiod : Z)
  (depth : nat) (noise_amplitude : float) : TestWaveformSource * UniformAnalogWaveform :=
  let ret := new_waveform "NoisySineMix" in
  let ret := set_timescale ret sampleperiod in
  let ret := Resize ret depth in
  let noise := normal_distribution (i2d 0) (f2d noise_amplitude) in
  let radians_per_sample1 :=
    d2f (ddiv (dmul (dmul (i2d 2) M_PI) (i2d sampleperiod)) (f2d period1)) in
  let radians_per_sample2 :=
    d2f (ddiv (dmul (dmul (i2d 2) M_PI) (i2d sampleperiod)) (f2d period2)) in
  let scale := (amplitude / i2f 4)%flt in
  let '(ret, ns) :=
    for_loop depth
      (fun i '(ret, ns) =>
         let '(n, ns) := noise ns in
         (set_samples ret
            (<[i := d2f (dadd (f2d (scale
                                    * (sinf (i2f (Z.of_nat i) * radians_per_sample1
                                             + startphase1)
                                       + sinf (i2f (Z.of_nat i) * radians_per_sample2
                                               + startphase2)))%flt) n)]>
               (m_samples ret)),
          ns))
      (ret, (nd_fresh, m_rng src)) in
  (set_rng src (snd ns), ret).

End Sinewaves.

(** The binary64 value of [M_PI], 0x400921FB54442D18. *)
Definition M_PI_binary64 : spec_float := S754_finite false 7074237752028440 (-51).

(** * Properties *)

(** ** Loops *)

Section Loops.
Context {S : Type}.

(** Invariant rule of a counted loop: [P j] relates the loop state to the
    number [j] of iterations already run. *)
Lemma for_from_ind (P : nat -> S -> Prop) (body : nat -> S -> S) (n i : nat) (s : S) :
  P i s ->
  (forall j s, (i <= j < i + n)%nat -> P j s -> P (Datatypes.S j) (body j s)) ->
  P (i + n)%nat (for_from i n body s).
Proof.
  revert i s. induction n as [|n IH]; intros i s H0 Hstep; simpl.
  - by rewrite Nat.add_0_r.
  - replace (i + Datatypes.S n)%nat with (Datatypes.S i + n)%nat by lia.
    apply IH.
    + apply Hstep; [lia | done].
    + intros j s' Hj. apply Hstep. lia.
Qed.

Lemma for_loop_ind (P : nat -> S -> Prop) (body : nat -> S -> S) (n : nat) (s : S) :
  P 0%nat s ->
  (forall j s, (j < n)%nat -> P j s -> P (Datatypes.S j) (body j s)) ->
  P n (for_loop n body s).
Proof.
  intros H0 Hstep. unfold for_loop.
  apply (for_from_ind P body n 0 s H0).
  intros j s' Hj. apply Hstep. lia.
Qed.

(** The same rule for a loop whose body may be undefined: if every iteration
    started in the invariant is defined, so is the loop. *)
Lemma for_fromM_ind (P : nat -> S -> Prop) (body : nat -> S -> option S)
  (n i : nat) (s : S) :
  P i s ->
  (forall j s, (i <= j < i + n)%nat -> P j s ->
     exists s', body j s = Some s' /\ P (Datatypes.S j) s') ->
  exists s', for_fromM i n body s = Some s' /\ P (i + n)%nat s'.
Proof.
  revert i s. induction n as [|n IH]; intros i s H0 Hstep; simpl.
  - exists s. by rewrite Nat.add_0_r.
  - destruct (Hstep i s) as (s1 & Hb & HP); [lia | done |].
    rewrite Hb. simpl.
    replace (i + Datatypes.S n)%nat with (Datatypes.S i + n)%nat by lia.
    apply IH; [done |].
    intros j s' Hj. apply Hstep. lia.
Qed.

Lemma for_loopM_ind (P : nat -> S -> Prop) (body : nat -> S -> option S)
  (n : nat) (s : S) :
  P 0%nat s ->
  (forall j s, (j < n)%nat -> P j s ->
     exists s', body j s = Some s' /\ P (Datatypes.S j) s') ->
  exists s', for_loopM n body s = Some s' /\ P n s'.
Proof.
  intros H0 Hstep. unfold for_loopM.
  apply (for_fromM_ind P body n 0 s H0).
  intros j s' Hj. apply Hstep. lia.
Qed.

(** A loop whose first iteration is undefined is undefined. *)
Lemma for_loopM_first_None (body : nat -> S -> option S) (n : nat) (s : S) :
  (0 < n)%nat -> body 0%nat s = None -> for_loopM n body s = None.
Proof.
  intros Hn Hb. destruct n as [|n]; [lia |].
  unfold for_loopM. simpl. by rewrite Hb.
Qed.

End Loops.

(** ** GenerateStep *)

Section StepProperties.
Context {FM : FloatModel}.

Lemma GenerateStep_samples (vlo vhi : float) (sampleperiod : Z) (depth : nat) :
  let w := GenerateStep vlo vhi sampleperiod depth in
  length (m_samples w) = depth /\
  forall i, (i < depth)%nat ->
    m_samples w !! i = Some (if (i <? depth / 2)%nat then vlo else vhi).
Proof.
  unfold GenerateStep.
  set (P := fun (j : nat) (w : UniformAnalogWaveform) =>
              length (m_samples w) = depth /\
              forall i, (i < j)%nat ->
                m_samples w !! i = Some (if (i <? depth / 2)%nat then vlo else vhi)).
  apply (for_loop_ind P).
  - split; [apply length_resize | intros i Hi; lia].
  - intros j w Hj [Hlen Hpre].
    assert (Hgen : forall v, v = (if (j <? depth / 2)%nat then vlo else vhi) ->
              P (Datatypes.S j) (set_samples w (<[j := v]> (m_samples w)))).
    { intros v ->. split; simpl.
      - by rewrite length_insert.
      - intros i Hi. destruct (decide (i = j)) as [-> | Hne].
        + rewrite list_lookup_insert_eq; [done | lia].
        + rewrite list_lookup_insert_ne; [apply Hpre; lia | done]. }
    destruct (j <? depth / 2)%nat; by apply Hgen.
Qed.

End StepProperties.

(** C8.  [GenerateStep(vlo, vhi, period, depth)] returns exactly [depth]
    samples; the first [depth/2] (integer division) are [vlo] and all the
    others are [vhi].  In binary32, [GenerateStep(0.0, 1.0, 1, 10)] is
    [0,0,0,0,0,1,1,1,1,1]. *)
Theorem GenerateStep_correct :
  (forall (FM : FloatModel) (vlo vhi : float) (sampleperiod : Z) (depth : nat),
     let w := GenerateStep vlo vhi sampleperiod depth in
     length (m_samples w) = depth /\
     (forall i, (i < depth / 2)%nat -> m_samples w !! i = Some vlo) /\
     (forall i, (depth / 2 <= i < depth)%nat -> m_samples w !! i = Some vhi)) /\
  m_samples (GenerateStep (FM := IEEE.model) IEEE.zero IEEE.one 1 10)
  = [IEEE.zero; IEEE.zero; IEEE.zero; IEEE.zero; IEEE.zero;
     IEEE.one; IEEE.one; IEEE.one; IEEE.one; IEEE.one].
Proof.
  split; [| reflexivity].
  intros FM vlo vhi sampleperiod depth w.
  destruct (GenerateStep_samples vlo vhi sampleperiod depth) as [Hlen Hs].
  fold w in Hlen, Hs. split; [exact Hlen |]. split; intros i Hi.
  - rewrite Hs.
    + destruct (Nat.ltb_spec i (depth / 2)); [done | lia].
    + pose proof (Nat.Div0.div_le_upper_bound depth 2 depth). lia.
  - rewrite Hs by lia.
    destruct (Nat.ltb_spec i (depth / 2)); [lia | done].
Qed.

Lemma GenerateStep_correct_witness :
  m_samples (GenerateStep (FM := IEEE.model) IEEE.zero IEEE.one 1 10) !! 2%nat
  = Some IEEE.zero /\
  m_samples (GenerateStep (FM := IEEE.model) IEEE.zero IEEE.one 1 10) !! 7%nat
  = Some IEEE.one.
Proof.
  destruct (proj1 GenerateStep_correct IEEE.model IEEE.zero IEEE.one 1 10%nat)
    as (_ & Hlo & Hhi).
  split; [apply Hlo | apply Hhi]; simpl; lia.
Defined.

(** ** The synthesis loop *)

Section SynthesisProperties.
Context {FM : FloatModel}.

Lemma vars_after_S {St : Type} (iteration : St -> St * float) (n : nat) (st : St) :
  vars_after iteration (Datatypes.S n) st = fst (iteration (vars_after iteration n st)).
Proof. reflexivity. Qed.

(** [synthesize] ends with the variables of [depth] iterations, keeps the
    label, time step and length of the waveform, and has stored at [i] the
    sample of iteration [i]. *)
Lemma synthesize_spec {St : Type} (iteration : St -> St * float) (depth : nat)
  (st : St) (ret : UniformAnalogWaveform) :
  length (m_samples ret) = depth ->
  let r := synthesize iteration depth st ret in
  fst r = vars_after iteration depth st /\
  m_name (snd r) = m_name ret /\
  m_timescale (snd r) = m_timescale ret /\
  length (m_samples (snd r)) = depth /\
  forall i, (i < depth)%nat ->
    m_samples (snd r) !! i = Some (snd (iteration (vars_after iteration i st))).
Proof.
  intros Hlen. unfold synthesize.
  set (P := fun (j : nat) (r : St * UniformAnalogWaveform) =>
              fst r = vars_after iteration j st /\
              m_name (snd r) = m_name ret /\
              m_timescale (snd r) = m_timescale ret /\
              length (m_samples (snd r)) = depth /\
              forall i, (i < j)%nat ->
                m_samples (snd r) !! i = Some (snd (iteration (vars_after iteration i st)))).
  assert (HP : P depth (for_loop depth
     (fun i '(st0, ret0) => let '(st1, sample) := iteration st0 in
        (st1, set_samples ret0 (<[i := sample]> (m_samples ret0)))) (st, ret))).
  { apply (for_loop_ind P).
    - repeat split; [done | intros i Hi; lia].
    - intros j [st0 ret0] Hj (Hst & Hn & Ht & Hl & Hpre).
      unfold P. rewrite vars_after_S. simpl in Hst, Hn, Ht, Hl, Hpre.
      rewrite <- Hst.
      destruct (iteration st0) as [st1 sample] eqn:E. simpl.
      repeat split; try done.
      + by rewrite length_insert.
      + intros i Hi. destruct (decide (i = j)) as [-> | Hne].
        * rewrite list_lookup_insert_eq by lia. by rewrite <- Hst, E.
        * rewrite list_lookup_insert_ne by done. apply Hpre. lia. }
  exact HP.
Qed.

Lemma PRBS31_iteration_spec (scale period : float) (sampleperiod : Z) (st : PRBS31_vars) :
  let c := crosses sampleperiod (v_phase st) in
  let st' := fst (PRBS31_iteration scale period sampleperiod st) in
  v_phase st' = next_phase period sampleperiod (v_phase st) /\
  v_prbs st' = (if c then PRBS31_shift (v_prbs st) else v_prbs st) /\
  v_value st' = (if c then negb (PRBS31_next (v_prbs st) =? 0) else v_value st) /\
  snd (PRBS31_iteration scale period sampleperiod st)
  = emitted scale sampleperiod (v_value st) (v_phase st) (v_value st').
Proof.
  unfold PRBS31_iteration, next_phase, crosses, emitted.
  destruct (fltb _ _); cbn [fst snd v_phase v_prbs v_value];
    repeat split; reflexivity.
Qed.

Lemma b8b10b_iteration_spec (scale period : float) (sampleperiod : Z) (st : b8b10b_vars) :
  let c := crosses sampleperiod (w_phase st) in
  let st' := fst (b8b10b_iteration scale period sampleperiod st) in
  w_phase st' = next_phase period sampleperiod (w_phase st) /\
  w_nbit st' = (if c then snd (pattern_advance (w_nbit st)) else w_nbit st) /\
  w_value st' = (if c then fst (pattern_advance (w_nbit st)) else w_value st) /\
  snd (b8b10b_iteration scale period sampleperiod st)
  = emitted scale sampleperiod (w_value st) (w_phase st) (w_value st').
Proof.
  unfold b8b10b_iteration, next_phase, crosses, emitted.
  destruct (fltb _ _); [destruct (pattern_advance _) |];
    cbn [fst snd w_phase w_nbit w_value]; repeat split; reflexivity.
Qed.

(** The samples of the two synthesized waveforms. *)
Lemma PRBS31_waveform_spec (rand_result : Z) (amplitude period : float)
  (sampleperiod : Z) (depth : nat) :
  let w := PRBS31_waveform rand_result amplitude period sampleperiod depth in
  let it := PRBS31_iteration (amplitude / i2f 2)%flt period sampleperiod in
  m_timescale w = sampleperiod /\
  length (m_samples w) = depth /\
  forall i, (i < depth)%nat ->
    m_samples w !! i
    = Some (snd (it (vars_after it i (PRBS31_entry rand_result period)))).
Proof.
  unfold PRBS31_waveform.
  match goal with
  | |- context [synthesize ?it ?d ?st ?ret] =>
      destruct (synthesize_spec it d st ret) as (_ & _ & Ht & Hl & Hs);
        [apply length_resize |]
  end.
  cbv zeta. repeat split; [exact Ht | exact Hl | exact Hs].
Qed.

Lemma b8b10b_waveform_spec (amplitude period : float) (sampleperiod : Z) (depth : nat) :
  let w := b8b10b_waveform amplitude period sampleperiod depth in
  let it := b8b10b_iteration (amplitude / i2f 2)%flt period sampleperiod in
  m_timescale w = sampleperiod /\
  length (m_samples w) = depth /\
  forall i, (i < depth)%nat ->
    m_samples w !! i
    = Some (snd (it (vars_after it i (b8b10b_entry period)))).
Proof.
  unfold b8b10b_waveform.
  match goal with
  | |- context [synthesize ?it ?d ?st ?ret] =>
      destruct (synthesize_spec it d st ret) as (_ & _ & Ht & Hl & Hs);
        [apply length_resize |]
  end.
  cbv zeta. repeat split; [exact Ht | exact Hl | exact Hs].
Qed.

(** An iteration that does not cross zero keeps the pattern and the level;
    one that crosses advances the register by one bit. *)
Lemma PRBS31_iteration_hold (scale period : float) (sampleperiod : Z) (st : PRBS31_vars) :
  crosses sampleperiod (v_phase st) = false ->
  PRBS31_iteration scale period sampleperiod st
  = ({| v_prbs := v_prbs st;
        v_phase := (v_phase st - i2f sampleperiod)%flt;
        v_value := v_value st |},
     level scale (v_value st)).
Proof.
  unfold crosses, PRBS31_iteration. intros ->.
  by rewrite eqb_reflx.
Qed.

Lemma PRBS31_iteration_advance (scale period : float) (sampleperiod : Z) (st : PRBS31_vars) :
  crosses sampleperiod (v_phase st) = true ->
  PRBS31_iteration scale period sampleperiod st
  = ({| v_prbs := PRBS31_shift (v_prbs st);
        v_phase := (v_phase st - i2f sampleperiod + period)%flt;
        v_value := negb (PRBS31_next (v_prbs st) =? 0) |},
     emitted scale sampleperiod (v_value st) (v_phase st)
       (negb (PRBS31_next (v_prbs st) =? 0))).
Proof.
  unfold crosses, PRBS31_iteration. intros ->. reflexivity.
Qed.

Lemma take_5_lookup {A : Type} (l : list A) (a b c d e : A) :
  l !! 0%nat = Some a -> l !! 1%nat = Some b -> l !! 2%nat = Some c ->
  l !! 3%nat = Some d -> l !! 4%nat = Some e ->
  take 5 l = [a; b; c; d; e].
Proof.
  destruct l as [|x0 [|x1 [|x2 [|x3 [|x4 l]]]]]; intros H0 H1 H2 H3 H4;
    by simplify_eq/=.
Qed.

End SynthesisProperties.

(** C6.  In both synthesis loops, an iteration that takes the accumulator
    below zero leaves it at the decremented (negative) value plus the symbol
    period, and that is the iteration in which the pattern advances; any other
    iteration leaves the decremented value.  With period 2.5 and sample period
    1 in binary32 the accumulator is 2.0 after its first crossing, not the
    period 2.5. *)
Theorem phase_accumulator_adds_period :
  (forall (FM : FloatModel) (rand_result : Z) (amplitude period : float)
          (sampleperiod : Z) (i : nat),
     let it := PRBS31_iteration (amplitude / i2f 2)%flt period sampleperiod in
     let before := vars_after it i (PRBS31_entry rand_result period) in
     let after := vars_after it (Datatypes.S i) (PRBS31_entry rand_result period) in
     let decremented := (v_phase before - i2f sampleperiod)%flt in
     v_phase after
     = (if (decremented <? i2f 0)%flt then (decremented + period)%flt else decremented) /\
     v_prbs after
     = (if (decremented <? i2f 0)%flt then PRBS31_shift (v_prbs before) else v_prbs before)) /\
  (forall (FM : FloatModel) (amplitude period : float) (sampleperiod : Z) (i : nat),
     let it := b8b10b_iteration (amplitude / i2f 2)%flt period sampleperiod in
     let before := vars_after it i (b8b10b_entry period) in
     let after := vars_after it (Datatypes.S i) (b8b10b_entry period) in
     let decremented := (w_phase before - i2f sampleperiod)%flt in
     w_phase after
     = (if (decremented <? i2f 0)%flt then (decremented + period)%flt else decremented) /\
     w_nbit after
     = (if (decremented <? i2f 0)%flt then snd (pattern_advance (w_nbit before))
        else w_nbit before)) /\
  (let period := S754_finite false 10485760 (-22) in
   let it := PRBS31_iteration (FM := IEEE.model) IEEE.one period 1 in
   v_phase (vars_after it 2 (PRBS31_entry (FM := IEEE.model) 0 period))
   = S754_finite false 8388608 (-24) /\
   v_phase (vars_after it 3 (PRBS31_entry (FM := IEEE.model) 0 period)) = IEEE.two /\
   IEEE.two <> period).
Proof.
  split; [| split].
  - intros FM rand_result amplitude period sampleperiod i it before after decremented.
    subst after. rewrite vars_after_S. fold before.
    destruct (PRBS31_iteration_spec (amplitude / i2f 2)%flt period sampleperiod before)
      as (Hp & Hr & _).
    split; [exact Hp | exact Hr].
  - intros FM amplitude period sampleperiod i it before after decremented.
    subst after. rewrite vars_after_S. fold before.
    destruct (b8b10b_iteration_spec (amplitude / i2f 2)%flt period sampleperiod before)
      as (Hp & Hr & _).
    split; [exact Hp | exact Hr].
  - repeat split; [vm_compute; reflexivity .. | discriminate].
Qed.

(** C7.  A sample that coincides with a change of logic level is the previous
    voltage plus (new voltage - previous voltage) times
    [1 - accumulator before the decrement / sample period], in both
    synthesizers.  In binary32 with amplitude 2, symbol period 4 and sample
    period 1, when the first bit of the register is 1 (first transition at
    sample 4), samples 0-3 are -1.0 and sample 4 is +1.0. *)
Theorem edge_sample_interpolated :
  (forall (FM : FloatModel) (rand_result : Z) (amplitude period : float)
          (sampleperiod : Z) (depth i : nat),
     let scale := (amplitude / i2f 2)%flt in
     let it := PRBS31_iteration scale period sampleperiod in
     let before := vars_after it i (PRBS31_entry rand_result period) in
     let after := vars_after it (Datatypes.S i) (PRBS31_entry rand_result period) in
     (i < depth)%nat ->
     v_value after <> v_value before ->
     m_samples (PRBS31_waveform rand_result amplitude period sampleperiod depth) !! i
     = Some (level scale (v_value before)
             + (level scale (v_value after) - level scale (v_value before))
               * (i2f 1 - v_phase before / i2f sampleperiod))%flt) /\
  (forall (FM : FloatModel) (amplitude period : float)
          (sampleperiod : Z) (depth i : nat),
     let scale := (amplitude / i2f 2)%flt in
     let it := b8b10b_iteration scale period sampleperiod in
     let before := vars_after it i (b8b10b_entry period) in
     let after := vars_after it (Datatypes.S i) (b8b10b_entry period) in
     (i < depth)%nat ->
     w_value after <> w_value before ->
     m_samples (b8b10b_waveform amplitude period sampleperiod depth) !! i
     = Some (level scale (w_value before)
             + (level scale (w_value after) - level scale (w_value before))
               * (i2f 1 - w_phase before / i2f sampleperiod))%flt) /\
  (forall (rand_result : Z) (depth : nat),
     (5 <= depth)%nat ->
     PRBS31_next (uint32 rand_result) = 1 ->
     take 5 (m_samples (PRBS31_waveform (FM := IEEE.model) rand_result
                          IEEE.two IEEE.four 1 depth))
     = [SFopp IEEE.one; SFopp IEEE.one; SFopp IEEE.one; SFopp IEEE.one; IEEE.one]).
Proof.
  split; [| split].
  - intros FM rand_result amplitude period sampleperiod depth i scale it before after
      Hi Hedge.
    destruct (PRBS31_waveform_spec rand_result amplitude period sampleperiod depth)
      as (_ & _ & Hs).
    rewrite (Hs i Hi). f_equal.
    destruct (PRBS31_iteration_spec scale period sampleperiod before) as (_ & _ & _ & He).
    etransitivity; [exact He |]. unfold emitted.
    change (fst (PRBS31_iteration scale period sampleperiod before)) with after.
    destruct (Bool.eqb (v_value before) (v_value after)) eqn:E; [| reflexivity].
    apply eqb_prop in E. congruence.
  - intros FM amplitude period sampleperiod depth i scale it before after Hi Hedge.
    destruct (b8b10b_waveform_spec amplitude period sampleperiod depth)
      as (_ & _ & Hs).
    rewrite (Hs i Hi). f_equal.
    destruct (b8b10b_iteration_spec scale period sampleperiod before) as (_ & _ & _ & He).
    etransitivity; [exact He |]. unfold emitted.
    change (fst (b8b10b_iteration scale period sampleperiod before)) with after.
    destruct (Bool.eqb (w_value before) (w_value after)) eqn:E; [| reflexivity].
    apply eqb_prop in E. congruence.
  - intros rand_result depth Hdepth Hnext.
    destruct (PRBS31_waveform_spec (FM := IEEE.model) rand_result IEEE.two IEEE.four 1 depth)
      as (_ & _ & Hs).
    set (scale := (IEEE.two / i2f 2)%flt) in Hs.
    set (it := PRBS31_iteration scale IEEE.four 1) in Hs.
    set (st0 := PRBS31_entry (FM := IEEE.model) rand_result IEEE.four) in Hs.
    assert (H1 : it st0 = ({| v_prbs := uint32 rand_result;
                              v_phase := IEEE.three;
                              v_value := false |}, SFopp IEEE.one)).
    { unfold it. rewrite PRBS31_iteration_hold; reflexivity. }
    assert (H2 : it (fst (it st0)) = ({| v_prbs := uint32 rand_result;
                              v_phase := IEEE.two;
                              v_value := false |}, SFopp IEEE.one)).
    { rewrite H1. unfold it. rewrite PRBS31_iteration_hold; reflexivity. }
    assert (H3 : it (fst (it (fst (it st0)))) = ({| v_prbs := uint32 rand_result;
                              v_phase := IEEE.one;
                              v_value := false |}, SFopp IEEE.one)).
    { rewrite H2. unfold it. rewrite PRBS31_iteration_hold; reflexivity. }
    assert (H4 : it (fst (it (fst (it (fst (it st0)))))) = ({| v_prbs := uint32 rand_result;
                              v_phase := IEEE.zero;
                              v_value := false |}, SFopp IEEE.one)).
    { rewrite H3. unfold it. rewrite PRBS31_iteration_hold; reflexivity. }
    assert (H5 : snd (it (fst (it (fst (it (fst (it (fst (it st0)))))))))
                 = IEEE.one).
    { rewrite H4. unfold it. rewrite PRBS31_iteration_advance by reflexivity.
      cbn [fst snd v_prbs v_phase v_value]. rewrite Hnext. reflexivity. }
    apply take_5_lookup; rewrite Hs by lia;
      unfold vars_after; cbn [Nat.iter nat_rect]; f_equal.
    all: first [ exact H5 | by rewrite H1 | by rewrite H2 | by rewrite H3 | by rewrite H4 ].
Qed.

Lemma edge_sample_interpolated_witness :
  m_samples (PRBS31_waveform (FM := IEEE.model) (2 ^ 30) IEEE.two IEEE.four 1 8) !! 4%nat
  = Some IEEE.one /\
  take 5 (m_samples (PRBS31_waveform (FM := IEEE.model) (2 ^ 30) IEEE.two IEEE.four 1 8))
  = [SFopp IEEE.one; SFopp IEEE.one; SFopp IEEE.one; SFopp IEEE.one; IEEE.one].
Proof.
  split.
  - apply (proj1 edge_sample_interpolated IEEE.model (2 ^ 30) IEEE.two IEEE.four 1 8%nat 4%nat).
    + lia.
    + vm_compute. discriminate.
  - apply (proj2 (proj2 edge_sample_interpolated) (2 ^ 30) 8%nat).
    + lia.
    + reflexivity.
Defined.

(** ** The bit sequence inside the synthesis loops *)

Section LoopBits.
Context {FM : FloatModel}.

Lemma b8b10b_nbit_S (k : nat) :
  b8b10b_nbit (Datatypes.S k) = snd (pattern_advance (b8b10b_nbit k)).
Proof. reflexivity. Qed.

(** On entry of iteration [i] of [Generate8b10b], the accumulator is
    [phase_after i], the pattern index has advanced [advances i] times, and
    the logic level is the last bit delivered. *)
Lemma b8b10b_vars_after (scale period : float) (sampleperiod : Z) (i : nat) :
  let st := vars_after (b8b10b_iteration scale period sampleperiod) i (b8b10b_entry period) in
  let a := advances period sampleperiod i in
  w_phase st = phase_after period sampleperiod i /\
  w_nbit st = b8b10b_nbit a /\
  w_value st = match a with O => false | Datatypes.S c => b8b10b_bit c end.
Proof.
  induction i as [|i IH]; [by repeat split |].
  rewrite vars_after_S. cbn zeta in IH |- *.
  set (st := vars_after _ i _) in *.
  destruct IH as (Hp & Hn & Hv).
  destruct (b8b10b_iteration_spec scale period sampleperiod st) as (Hp' & Hn' & Hv' & _).
  cbn zeta in Hp', Hn', Hv'. rewrite Hp', Hn', Hv', Hp, Hn.
  cbn [advances]. unfold phase_after at 1. cbn [Nat.iter nat_rect].
  fold (phase_after period sampleperiod i).
  destruct (crosses sampleperiod (phase_after period sampleperiod i)).
  - rewrite Nat.add_1_r. by repeat split.
  - rewrite Nat.add_0_r. by repeat split.
Qed.

(** The same for [GeneratePRBS31]. *)
Lemma PRBS31_vars_after (scale period : float) (sampleperiod : Z) (rand_result : Z) (i : nat) :
  let st := vars_after (PRBS31_iteration scale period sampleperiod) i
              (PRBS31_entry rand_result period) in
  let a := advances period sampleperiod i in
  v_phase st = phase_after period sampleperiod i /\
  v_prbs st = N.iter (N.of_nat a) PRBS31_shift (uint32 rand_result) /\
  v_value st = match a with
               | O => false
               | Datatypes.S c => PRBS31_bit (uint32 rand_result) (N.of_nat c)
               end.
Proof.
  induction i as [|i IH]; [by repeat split |].
  rewrite vars_after_S. cbn zeta in IH |- *.
  set (st := vars_after _ i _) in *.
  destruct IH as (Hp & Hn & Hv).
  destruct (PRBS31_iteration_spec scale period sampleperiod st) as (Hp' & Hn' & Hv' & _).
  cbn zeta in Hp', Hn', Hv'. rewrite Hp', Hn', Hv', Hp, Hn.
  cbn [advances]. unfold phase_after at 1. cbn [Nat.iter nat_rect].
  fold (phase_after period sampleperiod i).
  destruct (crosses sampleperiod (phase_after period sampleperiod i)).
  - rewrite Nat.add_1_r, Nat2N.inj_succ, N.iter_succ. by repeat split.
  - rewrite Nat.add_0_r. by repeat split.
Qed.

End LoopBits.

(** ** The fixed pattern *)

Lemma b8b10b_nbit_mod (k : nat) : b8b10b_nbit k = Z.of_nat (k mod 20).
Proof.
  induction k as [|k IH]; [reflexivity |].
  rewrite b8b10b_nbit_S, IH. unfold pattern_advance, patternlen. cbn [snd].
  pose proof (Nat.mod_upper_bound k 20).
  pose proof (Nat.mod_upper_bound (Datatypes.S k) 20).
  assert (Hk := Nat.div_mod_eq k 20).
  assert (HSk := Nat.div_mod_eq (Datatypes.S k) 20).
  destruct (Z.leb_spec 20 (Z.of_nat (k mod 20) + 1)).
  - assert (k mod 20 = 19)%nat by lia.
    assert (Datatypes.S k = 20 * (k / 20 + 1))%nat as Heq by lia.
    rewrite Heq, Nat.mul_comm, Nat.Div0.mod_mul. reflexivity.
  - assert (Datatypes.S k mod 20 = Datatypes.S (k mod 20))%nat as ->; [| lia].
    symmetry. apply (Nat.mod_unique _ 20 (k / 20)); lia.
Qed.

Lemma b8b10b_bit_nth (k : nat) : b8b10b_bit k = nth (k mod 20) pattern false.
Proof.
  unfold b8b10b_bit, pattern_advance. cbn [fst].
  by rewrite b8b10b_nbit_mod, Nat2Z.id.
Qed.

(** C5.  The logic level of [Generate8b10b] is the last bit of a sequence
    that repeats every 20 symbol periods and with no shorter period, and whose
    cycle is the literal 00111110101001000101. *)
Theorem fixed_pattern_cycle :
  (forall (FM : FloatModel) (amplitude period : float) (sampleperiod : Z) (i : nat),
     w_value (vars_after (b8b10b_iteration (amplitude / i2f 2)%flt period sampleperiod) i
                (b8b10b_entry period))
     = match advances period sampleperiod i with
       | O => false
       | Datatypes.S c => b8b10b_bit c
       end) /\
  (forall k : nat, b8b10b_bit (k + 20) = b8b10b_bit k) /\
  (forall p : nat, (0 < p < 20)%nat -> exists k : nat, b8b10b_bit (k + p) <> b8b10b_bit k) /\
  map b8b10b_bit (seq 0 20)
  = [ false; false; true; true; true; true; true; false; true; false;
      true; false; false; true; false; false; false; true; false; true ].
Proof.
  split; [| split; [| split]].
  - intros FM amplitude period sampleperiod i.
    apply (b8b10b_vars_after (amplitude / i2f 2)%flt period sampleperiod i).
  - intros k. rewrite !b8b10b_bit_nth. f_equal.
    rewrite <- (Nat.Div0.add_mod_idemp_r k 20 20). by rewrite Nat.Div0.mod_same, Nat.add_0_r.
  - intros p Hp.
    assert (Hall : b8b10b_no_shorter_period = true) by (vm_compute; reflexivity).
    unfold b8b10b_no_shorter_period in Hall.
    rewrite forallb_forall in Hall.
    specialize (Hall p). rewrite in_seq in Hall.
    destruct (proj1 (existsb_exists _ _) (Hall ltac:(lia))) as (k & _ & Hk).
    exists k. intros Heq. rewrite Heq, eqb_reflx in Hk. discriminate.
  - vm_compute. reflexivity.
Qed.

Lemma fixed_pattern_cycle_witness :
  exists k : nat, b8b10b_bit (k + 10) <> b8b10b_bit k.
Proof.
  apply (proj1 (proj2 (proj2 fixed_pattern_cycle)) 10%nat). lia.
Defined.

(** ** The PRBS31 shift register *)

(** *** Bits of the register functions *)

Lemma PRBS31_next_b2z (x : Z) :
  PRBS31_next x = Z.b2z (xorb (Z.testbit x 30) (Z.testbit x 27)).
Proof.
  unfold PRBS31_next. apply Z.bits_inj'. intros n Hn.
  rewrite Z.land_spec, Z.lxor_spec, !Z.shiftr_spec by done.
  destruct (Z.eq_dec n 0) as [-> | Hne].
  - rewrite Z.b2z_bit0. change (Z.testbit 1 0) with true.
    by rewrite andb_true_r.
  - assert (Z.testbit 1 n = false) as ->.
    { apply (Z.bits_above_log2 1 n); simpl; lia. }
    rewrite andb_false_r. symmetry.
    destruct (xorb _ _); simpl.
    + apply (Z.bits_above_log2 1 n); simpl; lia.
    + apply Z.bits_0.
Qed.

Lemma PRBS31_next_range (x : Z) : PRBS31_next x = 0 \/ PRBS31_next x = 1.
Proof. rewrite PRBS31_next_b2z. destruct (xorb _ _); auto. Qed.

Lemma PRBS31_shift_testbit (x n : Z) :
  0 <= n ->
  Z.testbit (PRBS31_shift x) n
  = if n =? 0 then xorb (Z.testbit x 30) (Z.testbit x 27)
    else (n <? 32) && Z.testbit x (n - 1).
Proof.
  intros Hn. unfold PRBS31_shift, uint32.
  rewrite Z.testbit_mod_pow2, Z.lor_spec, Z.shiftl_spec, PRBS31_next_b2z by lia.
  destruct (Z.eqb_spec n 0) as [-> | Hne].
  - rewrite Z.b2z_bit0. cbn. by destruct (xorb _ _).
  - assert (Z.testbit (Z.b2z (xorb (Z.testbit x 30) (Z.testbit x 27))) n = false) as ->.
    { destruct (xorb _ _); simpl.
      - apply (Z.bits_above_log2 1 n); simpl; lia.
      - apply Z.bits_0. }
    by rewrite orb_false_r.
Qed.

Lemma lfsr31_testbit (s n : Z) :
  0 <= n ->
  Z.testbit (lfsr31 s) n
  = if n =? 0 then xorb (Z.testbit s 30) (Z.testbit s 27)
    else (n <? 31) && Z.testbit s (n - 1).
Proof.
  intros Hn. unfold lfsr31, low31.
  rewrite Z.testbit_mod_pow2, PRBS31_shift_testbit by lia.
  destruct (Z.eqb_spec n 0) as [-> | Hne]; [done |].
  destruct (Z.ltb_spec n 31), (Z.ltb_spec n 32); try done; lia.
Qed.

Lemma low31_range (z : Z) : 0 <= low31 z < 2 ^ 31.
Proof. unfold low31. apply Z.mod_pos_bound. lia. Qed.

Lemma low31_small (z : Z) : 0 <= z < 2 ^ 31 -> low31 z = z.
Proof. unfold low31. apply Z.mod_small. Qed.

Lemma lfsr31_range (s : Z) : 0 <= lfsr31 s < 2 ^ 31.
Proof. apply low31_range. Qed.

(** The taps only read the low 31 bits, and a shift commutes with forgetting
    bit 31. *)
Lemma PRBS31_next_low31 (x : Z) : PRBS31_next (low31 x) = PRBS31_next x.
Proof.
  rewrite !PRBS31_next_b2z. unfold low31.
  by rewrite !Z.mod_pow2_bits_low by lia.
Qed.

Lemma lfsr31_low31 (x : Z) : lfsr31 (low31 x) = low31 (PRBS31_shift x).
Proof.
  apply Z.bits_inj'. intros n Hn.
  rewrite lfsr31_testbit by done. fold (lfsr31 x). rewrite lfsr31_testbit by done.
  unfold low31. rewrite !Z.mod_pow2_bits_low by lia.
  destruct (Z.eqb_spec n 0); [done |].
  destruct (Z.ltb_spec n 31); [| done].
  by rewrite Z.mod_pow2_bits_low by lia.
Qed.

Lemma low31_iter (n : N) (seed : Z) :
  low31 (N.iter n PRBS31_shift seed) = N.iter n lfsr31 (low31 seed).
Proof.
  apply N.iter_swap_gen. intros a. symmetry. apply lfsr31_low31.
Qed.

Lemma PRBS31_bit_lfsr31 (seed : Z) (n : N) :
  PRBS31_bit seed n = Z.testbit (N.iter (N.succ n) lfsr31 (low31 seed)) 0.
Proof.
  unfold PRBS31_bit.
  rewrite N.iter_succ, lfsr31_testbit by lia.
  change (0 =? 0) with true. cbv iota.
  rewrite <- low31_iter, <- PRBS31_next_low31, PRBS31_next_b2z.
  by destruct (xorb _ _).
Qed.

(** *** Linearity *)

Lemma lfsr31_lxor (a b : Z) : lfsr31 (Z.lxor a b) = Z.lxor (lfsr31 a) (lfsr31 b).
Proof.
  apply Z.bits_inj'. intros n Hn.
  rewrite Z.lxor_spec, !lfsr31_testbit, !Z.lxor_spec by done.
  destruct (n =? 0); [| destruct (n <? 31)];
    repeat match goal with |- context [Z.testbit ?x ?i] => destruct (Z.testbit x i) end;
    reflexivity.
Qed.

Lemma lfsr31_0 : lfsr31 0 = 0.
Proof. reflexivity. Qed.

Lemma mat_apply_0 (M : list Z) : mat_apply M 0 = 0.
Proof. induction M as [|c M IH]; [done |]. simpl. by rewrite IH. Qed.

Lemma mat_apply_lxor (M : list Z) (a b : Z) :
  mat_apply M (Z.lxor a b) = Z.lxor (mat_apply M a) (mat_apply M b).
Proof.
  revert a b. induction M as [|c M IH]; intros a b; [done |].
  cbn [mat_apply].
  rewrite !Z.div2_spec, Z.shiftr_lxor, <- !Z.div2_spec, IH.
  rewrite <- !Z.bit0_odd, Z.lxor_spec.
  set (x := mat_apply M (Z.div2 a)). set (y := mat_apply M (Z.div2 b)).
  destruct (Z.testbit a 0), (Z.testbit b 0); cbn [xorb];
    apply Z.bits_inj'; intros n Hn; rewrite ?Z.lxor_spec, ?Z.bits_0;
    destruct (Z.testbit c n), (Z.testbit x n), (Z.testbit y n); reflexivity.
Qed.

Lemma mat_apply_mul (A B : list Z) (s : Z) :
  mat_apply (mat_mul A B) s = mat_apply A (mat_apply B s).
Proof.
  revert s. induction B as [|c B IH]; intros s.
  - simpl. by rewrite mat_apply_0.
  - cbn [mat_mul map mat_apply]. fold (mat_mul A B).
    rewrite mat_apply_lxor, IH.
    destruct (Z.odd s); [done | by rewrite mat_apply_0].
Qed.

Lemma mat_apply_pow (M : list Z) (p : positive) (s : Z) :
  mat_apply (mat_pow M p) s = Pos.iter (mat_apply M) s p.
Proof.
  revert s. induction p as [p IH | p IH |]; intros s; cbn [mat_pow Pos.iter].
  - by rewrite !mat_apply_mul, !IH.
  - by rewrite !mat_apply_mul, !IH.
  - done.
Qed.

(** A linear map is the matrix of its values on the unit vectors. *)
Lemma shiftl_split (s j : Z) :
  0 <= j ->
  Z.shiftl s j = Z.lxor (if Z.odd s then 2 ^ j else 0) (Z.shiftl (Z.div2 s) (j + 1)).
Proof.
  intros Hj. apply Z.bits_inj'. intros n Hn.
  rewrite Z.lxor_spec, !Z.shiftl_spec, Z.div2_spec, <- Z.bit0_odd by done.
  destruct (Z.lt_trichotomy n j) as [Hlt | [-> | Hgt]].
  - rewrite !(Z.testbit_neg_r _ (n - _)) by lia.
    destruct (Z.testbit s 0); [rewrite Z.pow2_bits_false by lia | rewrite Z.bits_0]; done.
  - rewrite Z.sub_diag, (Z.testbit_neg_r _ (j - (j + 1))) by lia.
    destruct (Z.testbit s 0); [rewrite Z.pow2_bits_true by lia | rewrite Z.bits_0]; done.
  - rewrite Z.shiftr_spec by lia.
    replace (n - (j + 1) + 1) with (n - j) by lia.
    destruct (Z.testbit s 0); [rewrite Z.pow2_bits_false by lia | rewrite Z.bits_0]; done.
Qed.

Lemma linear_as_matrix (f : Z -> Z) :
  f 0 = 0 ->
  (forall a b, f (Z.lxor a b) = Z.lxor (f a) (f b)) ->
  forall (k : nat) (j s : Z),
    0 <= j -> 0 <= s < 2 ^ Z.of_nat k ->
    f (Z.shiftl s j) = mat_apply (map f (unit_vectors j k)) s.
Proof.
  intros H0 Hlin k. induction k as [|k IH]; intros j s Hj Hs.
  - assert (s = 0) as -> by (simpl in Hs; lia).
    by rewrite Z.shiftl_0_l.
  - cbn [unit_vectors map mat_apply].
    rewrite (shiftl_split s j Hj), Hlin, IH; [| lia |].
    + destruct (Z.odd s); [done | by rewrite H0].
    + rewrite Z.div2_div. rewrite Nat2Z.inj_succ, Z.pow_succ_r in Hs by lia.
      split; [apply Z.div_pos; lia | apply Z.div_lt_upper_bound; lia].
Qed.

Lemma lfsr31_as_matrix (s : Z) :
  0 <= s < 2 ^ 31 -> lfsr31 s = mat_apply lfsr31_matrix s.
Proof.
  intros Hs. rewrite <- (Z.shiftl_0_r s) at 1.
  apply (linear_as_matrix lfsr31 lfsr31_0 lfsr31_lxor 31 0 s); [done | exact Hs].
Qed.

Lemma identity_as_matrix (s : Z) :
  0 <= s < 2 ^ 31 -> mat_apply (unit_vectors 0 31) s = s.
Proof.
  intros Hs.
  pose proof (linear_as_matrix (fun x => x) eq_refl (fun a b => eq_refl) 31 0 s) as H.
  rewrite map_id, Z.shiftl_0_r in H. symmetry. by apply H.
Qed.

(** *** The cycle *)

Lemma iter_lfsr31_matrix (n : N) (s : Z) :
  0 <= s < 2 ^ 31 ->
  N.iter n lfsr31 s = N.iter n (mat_apply lfsr31_matrix) s /\
  0 <= N.iter n lfsr31 s < 2 ^ 31.
Proof.
  intros Hs. induction n as [|n IH] using N.peano_ind; [done |].
  rewrite !N.iter_succ. destruct IH as [<- Hr].
  split; [by apply lfsr31_as_matrix | apply lfsr31_range].
Qed.

Lemma lfsr31_full_cycle (s : Z) :
  0 <= s < 2 ^ 31 -> N.iter PRBS31_period lfsr31 s = s.
Proof.
  intros Hs. rewrite (proj1 (iter_lfsr31_matrix _ s Hs)).
  unfold PRBS31_period. cbn [N.iter]. rewrite <- mat_apply_pow.
  assert (mat_pow lfsr31_matrix 2147483647 = unit_vectors 0 31) as ->
    by (vm_compute; reflexivity).
  by apply identity_as_matrix.
Qed.

(** The only state a shift leaves in place is zero. *)
Lemma lfsr31_fixed_point (s : Z) :
  0 <= s < 2 ^ 31 -> lfsr31 s = s -> s = 0.
Proof.
  intros Hs Hfix.
  assert (Hbits : forall j : nat, (j <= 30)%nat ->
            Z.testbit s (Z.of_nat j) = Z.testbit s 0).
  { induction j as [|j IH]; intros Hj; [done |].
    rewrite <- Hfix at 1. rewrite lfsr31_testbit by lia.
    destruct (Z.eqb_spec (Z.of_nat (Datatypes.S j)) 0); [lia |].
    destruct (Z.ltb_spec (Z.of_nat (Datatypes.S j)) 31); [| lia].
    replace (Z.of_nat (Datatypes.S j) - 1) with (Z.of_nat j) by lia.
    apply IH. lia. }
  assert (H0 : Z.testbit s 0 = false).
  { rewrite <- Hfix at 1. rewrite lfsr31_testbit by lia.
    change (0 =? 0) with true. cbv iota.
    pose proof (Hbits 30%nat ltac:(lia)) as H30.
    pose proof (Hbits 27%nat ltac:(lia)) as H27.
    change (Z.of_nat 30) with 30 in H30. change (Z.of_nat 27) with 27 in H27.
    rewrite H30, H27. apply xorb_nilpotent. }
  apply Z.bits_inj'. intros n Hn. rewrite Z.bits_0.
  destruct (Z.lt_ge_cases n 31).
  - rewrite <- (Z2Nat.id n) by done. rewrite Hbits by lia. exact H0.
  - rewrite <- (Z.mod_small s (2 ^ 31)) by done.
    apply Z.mod_pow2_bits_high. lia.
Qed.

(** Bit [j] of the state was delivered [j] shifts earlier. *)
Lemma lfsr31_history (s : Z) (m : N) (j : nat) :
  (j <= 30)%nat ->
  Z.testbit (N.iter (N.succ m + N.of_nat j) lfsr31 s) (Z.of_nat j)
  = Z.testbit (N.iter (N.succ m) lfsr31 s) 0.
Proof.
  induction j as [|j IH]; intros Hj.
  - by rewrite N.add_0_r.
  - replace (N.succ m + N.of_nat (Datatypes.S j))%N
      with (N.succ (N.succ m + N.of_nat j)) by lia.
    rewrite N.iter_succ, lfsr31_testbit by lia.
    destruct (Z.eqb_spec (Z.of_nat (Datatypes.S j)) 0); [lia |].
    destruct (Z.ltb_spec (Z.of_nat (Datatypes.S j)) 31); [| lia].
    replace (Z.of_nat (Datatypes.S j) - 1) with (Z.of_nat j) by lia.
    apply IH. lia.
Qed.

Lemma lfsr31_history_bit (seed : Z) (t : N) (j : nat) :
  (j <= 30)%nat -> (N.of_nat j < t)%N ->
  Z.testbit (N.iter t lfsr31 (low31 seed)) (Z.of_nat j)
  = PRBS31_bit seed (t - N.of_nat j - 1).
Proof.
  intros Hj Ht. rewrite PRBS31_bit_lfsr31.
  rewrite <- (lfsr31_history _ _ j Hj).
  do 2 f_equal. lia.
Qed.

Lemma iter_multiple {A : Type} (f : A -> A) (x : A) (p k : N) :
  N.iter p f x = x -> N.iter (k * p) f x = x.
Proof.
  intros Hp. induction k as [|k IH] using N.peano_ind; [done |].
  replace (N.succ k * p)%N with (p + k * p)%N by lia.
  by rewrite N.iter_add, IH.
Qed.

(** A period of the bit sequence is a period of the register state. *)
Lemma PRBS31_bit_period_state (seed : Z) (p : N) :
  (forall n, PRBS31_bit seed (n + p) = PRBS31_bit seed n) ->
  N.iter p lfsr31 (low31 seed) = low31 seed.
Proof.
  intros Hper. set (s := low31 seed).
  assert (Hs : 0 <= s < 2 ^ 31) by apply low31_range.
  set (u := N.iter 31 lfsr31 s).
  assert (Hu : N.iter p lfsr31 u = u).
  { apply Z.bits_inj'. intros n Hn.
    destruct (Z.lt_ge_cases n 31) as [Hlt | Hge].
    - rewrite <- (Z2Nat.id n) by done.
      set (j := Z.to_nat n). assert (j <= 30)%nat by lia.
      unfold u. rewrite <- N.iter_add.
      unfold s. rewrite !lfsr31_history_bit by lia.
      replace (p + 31 - N.of_nat j - 1)%N with (31 - N.of_nat j - 1 + p)%N by lia.
      apply Hper.
    - pose proof (proj2 (iter_lfsr31_matrix p u (proj2 (iter_lfsr31_matrix 31 s Hs)))) as H1.
      pose proof (proj2 (iter_lfsr31_matrix 31 s Hs)) as H2. fold u in H2.
      rewrite <- (Z.mod_small _ (2 ^ 31) H1), <- (Z.mod_small u (2 ^ 31) H2).
      by rewrite !Z.mod_pow2_bits_high by lia. }
  assert (Hback : s = N.iter (PRBS31_period - 31) lfsr31 u).
  { unfold u. rewrite <- N.iter_add.
    replace (PRBS31_period - 31 + 31)%N with PRBS31_period by (unfold PRBS31_period; lia).
    symmetry. by apply lfsr31_full_cycle. }
  rewrite Hback. rewrite <- N.iter_add, N.add_comm, N.iter_add, Hu.
  reflexivity.
Qed.

(** *** 2^31 - 1 is prime *)

Lemma no_divisor_sound (fuel : nat) (d n : Z) :
  no_divisor fuel d n = true ->
  forall k, d <= k < d + Z.of_nat fuel -> n mod k <> 0.
Proof.
  revert d. induction fuel as [|fuel IH]; intros d Hnd k Hk; [lia |].
  cbn [no_divisor] in Hnd.
  destruct (Z.eqb_spec (n mod d) 0) as [| Hne]; [discriminate |].
  destruct (Z.eq_dec k d) as [-> | Hkd]; [done |].
  apply (IH (d + 1)); [done | lia].
Qed.

Lemma coprime_below_period (r : Z) :
  0 < r < 2147483647 -> Z.gcd r 2147483647 = 1.
Proof.
  intros Hr.
  assert (Htrial : no_divisor (Z.to_nat 46340) 2 2147483647 = true)
    by (vm_compute; reflexivity).
  pose proof (no_divisor_sound _ _ _ Htrial) as Hnd.
  rewrite Z2Nat.id in Hnd by lia. clear Htrial.
  remember 2147483647 as n eqn:En.
  set (g := Z.gcd r n).
  assert (Hg0 : 0 <= g) by apply Z.gcd_nonneg.
  destruct (Z.gcd_divide_l r n) as [a Ha]. fold g in Ha.
  destruct (Z.gcd_divide_r r n) as [q Hq]. fold g in Hq.
  destruct (Z.eq_dec g 1) as [| Hne]; [done | exfalso].
  assert (g <> 0) by (intros E0; rewrite E0 in Ha; lia).
  assert (2 <= g) by lia.
  assert (0 < a) by nia.
  assert (g <= r) by nia.
  assert (0 < q) by nia.
  assert (q <> 1) by (intros E1; rewrite E1 in Hq; lia).
  assert (2 <= q) by lia.
  destruct (Z.le_gt_cases g q).
  - apply (Hnd g); [nia |]. rewrite Hq. apply Z.mod_mul. lia.
  - apply (Hnd q); [nia |]. rewrite Hq, Z.mul_comm. apply Z.mod_mul. lia.
Qed.

(** *** No shorter cycle *)

Lemma PRBS31_period_divides (seed : Z) (p : N) :
  low31 seed <> 0 ->
  (forall n, PRBS31_bit seed (n + p) = PRBS31_bit seed n) ->
  (PRBS31_period | p)%N.
Proof.
  intros Hseed Hper.
  set (s := low31 seed) in *.
  assert (Hs : 0 <= s < 2 ^ 31) by apply low31_range.
  pose proof (PRBS31_bit_period_state seed p Hper) as Hp. fold s in Hp.
  pose proof (lfsr31_full_cycle s Hs) as Hfull.
  set (r := (p mod PRBS31_period)%N).
  assert (Hr : N.iter r lfsr31 s = s).
  { assert (E : (p = r + p / PRBS31_period * PRBS31_period)%N).
    { unfold r. pose proof (N.div_mod p PRBS31_period ltac:(done)). lia. }
    set (q := (p / PRBS31_period)%N) in E.
    rewrite E, N.iter_add in Hp.
    rewrite (iter_multiple lfsr31 s PRBS31_period q Hfull) in Hp. exact Hp. }
  destruct (N.eq_dec r 0%N) as [Hr0 | Hrne].
  - apply N.Lcm0.mod_divide. exact Hr0.
  - exfalso. apply Hseed. apply (lfsr31_fixed_point s Hs).
    assert (Hrlt : (r < PRBS31_period)%N) by (apply N.mod_lt; done).
    unfold PRBS31_period in *.
    destruct (Z.gcd_bezout (Z.of_N r) 2147483647 1) as (a & b & Hab).
    { apply coprime_below_period. lia. }
    set (a' := a mod 2147483647).
    assert (Ha' : 0 <= a' < 2147483647) by (apply Z.mod_pos_bound; lia).
    set (c := - b - Z.of_N r * (a / 2147483647)).
    assert (Hc : a' * Z.of_N r = 1 + c * 2147483647).
    { unfold a', c. rewrite Z.mod_eq by lia. lia. }
    assert (0 <= c) by nia.
    assert (Heq : (Z.to_N a' * r = 1 + Z.to_N c * 2147483647)%N) by lia.
    pose proof (iter_multiple lfsr31 s r (Z.to_N a') Hr) as H1.
    rewrite Heq, N.iter_add in H1.
    rewrite (iter_multiple lfsr31 s 2147483647 _ Hfull) in H1.
    exact H1.
Qed.

(** C4.  A pattern advance of [GeneratePRBS31] shifts the register left by
    one and injects the XOR of bits 30 and 27 of the value before the shift;
    the logic level of the loop is the last bit so delivered.  From every
    initial value whose 31-bit register state (the low 31 bits, the only ones
    the taps read) is not zero, so from every non-zero value of [rand()], the
    bit sequence repeats every 2^31 - 1 bits and with no shorter period. *)
Theorem PRBS31_cycle :
  (forall prbs n : Z,
     0 <= n ->
     Z.testbit (PRBS31_shift prbs) n
     = if n =? 0 then xorb (Z.testbit prbs 30) (Z.testbit prbs 27)
       else (n <? 32) && Z.testbit prbs (n - 1)) /\
  (forall (FM : FloatModel) (rand_result : Z) (amplitude period : float)
          (sampleperiod : Z) (i : nat),
     v_value (vars_after (PRBS31_iteration (amplitude / i2f 2)%flt period sampleperiod) i
                (PRBS31_entry rand_result period))
     = match advances period sampleperiod i with
       | O => false
       | Datatypes.S c => PRBS31_bit (uint32 rand_result) (N.of_nat c)
       end) /\
  (forall rand_result : Z,
     low31 (uint32 rand_result) <> 0 ->
     (forall n : N,
        PRBS31_bit (uint32 rand_result) (n + PRBS31_period)
        = PRBS31_bit (uint32 rand_result) n) /\
     (forall p : N,
        (0 < p < PRBS31_period)%N ->
        ~ (forall n : N,
             PRBS31_bit (uint32 rand_result) (n + p)
             = PRBS31_bit (uint32 rand_result) n))).
Proof.
  split; [| split].
  - intros prbs n Hn. by apply PRBS31_shift_testbit.
  - intros FM rand_result amplitude period sampleperiod i.
    apply (PRBS31_vars_after (amplitude / i2f 2)%flt period sampleperiod rand_result i).
  - intros rand_result Hnz. split.
    + intros n. rewrite !PRBS31_bit_lfsr31.
      replace (N.succ (n + PRBS31_period)) with (N.succ n + PRBS31_period)%N by lia.
      rewrite N.iter_add, lfsr31_full_cycle; [done | apply low31_range].
    + intros p Hp Hper.
      destruct (PRBS31_period_divides (uint32 rand_result) p) as [k Hk]; [done | done |].
      unfold PRBS31_period in *. nia.
Qed.

Lemma PRBS31_cycle_witness :
  Z.testbit (PRBS31_shift 1073741824) 0 = true /\
  forall n : N, PRBS31_bit (uint32 1) (n + PRBS31_period) = PRBS31_bit (uint32 1) n.
Proof.
  split.
  - rewrite (proj1 PRBS31_cycle 1073741824 0); [reflexivity | lia].
  - apply (proj2 (proj2 PRBS31_cycle) 1). discriminate.
Defined.

(** ** binary32 and binary64 *)

Lemma iter_pos_iter {A : Type} (f : A -> A) (p : positive) (x : A) :
  SpecFloat.iter_pos f p x = Pos.iter f x p.
Proof.
  revert x. induction p as [p IH | p IH |]; intros x; cbn [SpecFloat.iter_pos Pos.iter].
  - by rewrite !IH, <- !Pos.iter_swap.
  - by rewrite !IH.
  - done.
Qed.

Lemma digits2_pos_shift (m k : positive) :
  digits2_pos (Pos.iter xO m k) = (digits2_pos m + k)%positive.
Proof.
  induction k as [|k IH] using Pos.peano_ind.
  - cbn. lia.
  - rewrite Pos.iter_succ. cbn [digits2_pos]. rewrite IH. lia.
Qed.

Lemma shr_1_shift (m k : positive) :
  Pos.iter shr_1 {| shr_m := Zpos (Pos.iter xO m k); shr_r := false; shr_s := false |} k
  = {| shr_m := Zpos m; shr_r := false; shr_s := false |}.
Proof.
  revert m. induction k as [|k IH] using Pos.peano_ind; intros m.
  - reflexivity.
  - rewrite Pos.iter_succ_r, Pos.iter_succ. cbn [shr_1 orb]. apply IH.
Qed.

(** A binary32 value is a binary64 value: widening it and narrowing it back
    gives the value itself. *)
Lemma widen_finite (s : bool) (m : positive) (e : Z) :
  bounded IEEE.prec32 IEEE.emax32 m e = true ->
  IEEE.convert IEEE.prec64 IEEE.emax64 (S754_finite s m e)
  = S754_finite s (Pos.iter xO m (Z.to_pos (53 - Zpos (digits2_pos m))))
      (Zpos (digits2_pos m) + e - 53).
Proof.
  unfold bounded, canonical_mantissa, IEEE.prec32, IEEE.emax32. intros Hb.
  apply andb_prop in Hb as [Hc He].
  apply Z.eqb_eq in Hc. apply Z.leb_le in He.
  set (d := Zpos (digits2_pos m)) in *.
  assert (Hd : 1 <= d) by (unfold d; lia).
  unfold fexp, emin in Hc.
  assert (Hd24 : d <= 24) by lia.
  assert (Hemin : -149 <= e) by lia.
  unfold IEEE.convert, binary_normalize, IEEE.prec64, IEEE.emax64.
  assert (Hround : binary_round 53 1024 s m e
     = S754_finite s (Pos.iter xO m (Z.to_pos (53 - d))) (d + e - 53)).
  { unfold binary_round. fold d.
    assert (fexp 53 1024 (d + e) = d + e - 53) as -> by (unfold fexp, emin; lia).
    unfold shl_align.
    destruct (d + e - 53 - e) as [| q | q] eqn:Eq; [lia | lia |].
    assert (Hq : q = Z.to_pos (53 - d)) by lia. rewrite <- Hq.
    unfold binary_round_aux, shr_fexp. cbn [Zdigits2 shr_record_of_loc].
    rewrite digits2_pos_shift. fold d.
    assert (fexp 53 1024 (Zpos (digits2_pos m + q) + (d + e - 53)) - (d + e - 53) = 0) as ->.
    { unfold fexp, emin. rewrite Pos2Z.inj_add. fold d. lia. }
    cbn [shr shr_m loc_of_shr_record round_nearest_even Zdigits2].
    rewrite digits2_pos_shift.
    assert (fexp 53 1024 (Zpos (digits2_pos m + q) + (d + e - 53)) - (d + e - 53) = 0) as ->.
    { unfold fexp, emin. rewrite Pos2Z.inj_add. fold d. lia. }
    cbn [shr shr_m].
    destruct (Z.leb_spec (d + e - 53) (1024 - 53)); [done | lia]. }
  destruct s; exact Hround.
Qed.

Lemma narrow_widened (s : bool) (m : positive) (e : Z) :
  bounded IEEE.prec32 IEEE.emax32 m e = true ->
  IEEE.convert IEEE.prec32 IEEE.emax32
    (S754_finite s (Pos.iter xO m (Z.to_pos (53 - Zpos (digits2_pos m))))
       (Zpos (digits2_pos m) + e - 53))
  = S754_finite s m e.
Proof.
  unfold bounded, canonical_mantissa, IEEE.prec32, IEEE.emax32. intros Hb.
  apply andb_prop in Hb as [Hc He].
  apply Z.eqb_eq in Hc. apply Z.leb_le in He.
  set (d := Zpos (digits2_pos m)) in *.
  assert (Hd : 1 <= d) by (unfold d; lia).
  assert (Hd24 : d <= 24) by (unfold fexp, emin in Hc; lia).
  set (q := Z.to_pos (53 - d)).
  assert (Hq : Zpos q = 53 - d) by lia.
  unfold IEEE.convert, binary_normalize.
  assert (Hround : binary_round 24 128 s (Pos.iter xO m q) (d + e - 53)
     = S754_finite s m e).
  { unfold binary_round. rewrite digits2_pos_shift, Pos2Z.inj_add. fold d.
    replace (d + Zpos q + (d + e - 53)) with (d + e) by lia. rewrite Hc.
    unfold shl_align.
    destruct (e - (d + e - 53)) as [| k | k] eqn:Ek; [lia | | lia].
    unfold binary_round_aux, shr_fexp. cbn [Zdigits2 shr_record_of_loc].
    rewrite digits2_pos_shift, Pos2Z.inj_add. fold d.
    replace (d + Zpos q + (d + e - 53)) with (d + e) by lia. rewrite Hc, Ek.
    cbn [shr]. rewrite iter_pos_iter.
    assert (k = q) as -> by lia.
    rewrite shr_1_shift. cbn [shr_m loc_of_shr_record round_nearest_even Zdigits2].
    fold d. replace (d + e - 53 + Zpos q) with e by lia.
    rewrite Hc, Z.sub_diag. cbn [shr shr_m].
    destruct (Z.leb_spec e (128 - 24)); [done | lia]. }
  destruct s; exact Hround.
Qed.

(** With a standard deviation of zero a finite draw is scaled to [+0.0], and
    adding it leaves a binary32 sample at its value. *)
Lemma zero_stddev_sample (x : @float IEEE.model) (z : @double IEEE.model) (s : bool) :
  IEEE.valid32 x ->
  IEEE.is_finite z = true ->
  IEEE.same_value
    (d2f (dadd (f2d x) (dadd (dmul z (f2d (S754_zero s : @float IEEE.model))) (i2d 0))))
    x.
Proof.
  intros Hx Hz.
  assert (Hn : dadd (dmul z (f2d (S754_zero s : @float IEEE.model))) (i2d 0)
               = S754_zero false).
  { destruct z as [sz | | | sz mz ez]; try discriminate;
      cbn; by destruct sz, s. }
  rewrite Hn. clear Hn.
  destruct x as [sx | sx | | sx mx ex].
  - right. exists false, sx. by destruct sx.
  - left. reflexivity.
  - left. reflexivity.
  - left. cbn [f2d IEEE.model]. rewrite (widen_finite sx mx ex Hx).
    cbn [dadd d2f IEEE.model SFadd]. by apply narrow_widened.
Qed.

Section LoopFailure.
Context {S : Type}.

(** A loop is undefined as soon as one iteration it reaches is undefined in
    every state of an invariant. *)
Lemma for_fromM_fail (Inv : S -> Prop) (body : nat -> S -> option S) (n i k : nat) (s : S) :
  (i <= k < i + n)%nat ->
  Inv s ->
  (forall j s s', Inv s -> body j s = Some s' -> Inv s') ->
  (forall s, Inv s -> body k s = None) ->
  for_fromM i n body s = None.
Proof.
  revert i s. induction n as [|n IH]; intros i s Hk Hs Hpres Hfail; [lia |].
  cbn [for_fromM]. destruct (body i s) as [s' |] eqn:Hb; [| done].
  cbn [mbind option_bind].
  destruct (decide (i = k)) as [-> | Hne].
  - rewrite Hfail in Hb by done. discriminate.
  - apply IH; [lia | by eapply Hpres | done | done].
Qed.

End LoopFailure.

(** ** DegradeSerialData *)

Section DegradeProperties.
Context {FM : FloatModel} {Env : Environment}.

Lemma noise_after_S (noise : noise_state -> double * noise_state) (i : nat)
  (ns : noise_state) :
  noise_after noise (Datatypes.S i) ns = snd (noise (noise_after noise i ns)).
Proof. reflexivity. Qed.

(** The noise loop is defined when the buffer holds [depth] samples; sample
    [i] receives draw number [i] and the source ends after [depth] draws. *)
Lemma add_noise_spec (noise : noise_state -> double * noise_state) (depth : nat)
  (samples : list float) (ns : noise_state) :
  (depth <= length samples)%nat ->
  exists samples',
    add_noise noise depth samples ns = Some (samples', noise_after noise depth ns) /\
    length samples' = length samples /\
    (forall i x, (i < depth)%nat -> samples !! i = Some x ->
       samples' !! i = Some (d2f (dadd (f2d x) (noise_draw noise i ns)))) /\
    (forall i, (depth <= i)%nat -> samples' !! i = samples !! i).
Proof.
  intros Hlen. unfold add_noise.
  set (P := fun (j : nat) (st : list float * noise_state) =>
              snd st = noise_after noise j ns /\
              length (fst st) = length samples /\
              (forall i x, (i < j)%nat -> samples !! i = Some x ->
                 fst st !! i = Some (d2f (dadd (f2d x) (noise_draw noise i ns)))) /\
              (forall i, (j <= i)%nat -> fst st !! i = samples !! i)).
  destruct (for_loopM_ind P
              (fun i '(samples0, ns0) =>
                 x ← samples0 !! i;
                 let '(n, ns1) := noise ns0 in
                 Some (<[i := d2f (dadd (f2d x) n)]> samples0, ns1))
              depth (samples, ns)) as ([samples' ns'] & Hrun & Hns & Hl & Hlo & Hhi).
  - repeat split; try done; intros; lia.
  - intros j [samples0 ns0] Hj (Hns & Hl & Hlo & Hhi). cbn [fst snd] in *.
    destruct (lookup_lt_is_Some_2 samples j ltac:(lia)) as [x Hx].
    rewrite (Hhi j (le_n j)), Hx. cbn [mbind option_bind].
    destruct (noise ns0) as [n ns1] eqn:En.
    eexists. split; [reflexivity |]. unfold P. cbn [fst snd].
    repeat split.
    + by rewrite noise_after_S, <- Hns, En.
    + by rewrite length_insert.
    + intros i y Hi Hy. destruct (decide (i = j)) as [-> | Hne].
      * rewrite list_lookup_insert_eq by lia.
        unfold noise_draw. rewrite <- Hns, En. cbn [fst]. congruence.
      * rewrite list_lookup_insert_ne by done. apply Hlo; [lia | done].
    + intros i Hi. rewrite list_lookup_insert_ne by lia. apply Hhi. lia.
  - cbn [fst snd] in *. subst ns'. exists samples'. by repeat split.
Qed.

Lemma prepare_fft_rng (src : TestWaveformSource) (npoints nouts : nat) :
  m_rng (prepare_fft src npoints nouts) = m_rng src.
Proof. unfold prepare_fft. by destruct (_ =? _)%nat. Qed.

(** After the reallocation step the plans and the buffers have the padded
    length, whatever was cached before. *)
Lemma prepare_fft_shape (src : TestWaveformSource) (npoints : nat) :
  cache_consistent src ->
  npoints <> 0%nat ->
  let src' := prepare_fft src npoints (npoints / 2 + 1) in
  m_cachedNumPoints src' = npoints /\
  m_forwardPlan src' = Some npoints /\
  m_reversePlan src' = Some npoints /\
  length (m_forwardInBuf src') = npoints /\
  length (m_forwardOutBuf src') = (2 * (npoints / 2 + 1))%nat /\
  length (m_reverseOutBuf src') = npoints.
Proof.
  intros Hc Hnp. unfold prepare_fft.
  destruct (Nat.eqb_spec (m_cachedNumPoints src) npoints) as [Heq | Hne]; cbn zeta.
  - destruct Hc as [H0 | (? & ? & ? & ? & ?)]; [congruence |].
    rewrite <- Heq. by repeat split.
  - cbn. rewrite !length_resize. by repeat split.
Qed.

Lemma next_pow2_ge (depth : nat) : (depth <= next_pow2 depth)%nat /\ next_pow2 depth <> 0%nat.
Proof.
  unfold next_pow2.
  assert (0 < 2 ^ Z.log2_up (Z.of_nat depth)) by (apply Z.pow_pos_nonneg; [lia | apply Z.log2_up_nonneg]).
  split; [| lia].
  destruct (Z.le_gt_cases (Z.of_nat depth) 1).
  - lia.
  - pose proof (Z.log2_up_spec (Z.of_nat depth) ltac:(lia)). lia.
Qed.

(** The noise-only branch. *)
Lemma DegradeSerialData_noise_only (src : TestWaveformSource) (cap : UniformAnalogWaveform)
  (sampleperiod : Z) (depth : nat) (lpf : bool) (noise_amplitude : float) :
  APPLE_SILICON = true \/ lpf = false ->
  (depth <= length (m_samples cap))%nat ->
  let noise := normal_distribution (i2d 0) (f2d noise_amplitude) in
  let ns := (nd_fresh, m_rng src) in
  exists src' samples',
    DegradeSerialData src cap sampleperiod depth lpf noise_amplitude
    = Some (src', set_samples cap samples') /\
    m_rng src' = snd (noise_after noise depth ns) /\
    length samples' = length (m_samples cap) /\
    (forall i x, (i < depth)%nat -> m_samples cap !! i = Some x ->
       samples' !! i = Some (d2f (dadd (f2d x) (noise_draw noise i ns)))) /\
    (forall i, (depth <= i)%nat -> samples' !! i = m_samples cap !! i).
Proof.
  intros Hpath Hlen noise ns.
  destruct (add_noise_spec noise depth (m_samples cap) ns Hlen)
    as (samples' & Hrun & Hl & Hlo & Hhi).
  unfold DegradeSerialData. fold noise.
  destruct APPLE_SILICON eqn:Ha.
  - fold ns. rewrite Hrun. cbn [mbind option_bind].
    eexists _, samples'. split; [reflexivity |]. by repeat split.
  - destruct Hpath as [? | ->]; [discriminate |]. cbv zeta.
    rewrite prepare_fft_rng. fold ns. rewrite Hrun. cbn [mbind option_bind].
    eexists _, samples'. split; [reflexivity |]. by repeat split.
Qed.

(** *** The FFT branch *)

(** The window, and the two transforms, overwrite their whole output buffer:
    only the length of the buffer matters. *)
Lemma RectangularWindow_ext (input : list float) (d npoints : nat) (out1 out2 : list float) :
  length out1 = npoints -> length out2 = npoints ->
  RectangularWindow input d npoints out1 = RectangularWindow input d npoints out2.
Proof.
  intros H1 H2. unfold RectangularWindow.
  rewrite (drop_ge out1), (drop_ge out2) by lia.
  repeat case_guard; try done; lia.
Qed.

Lemma ffts_execute_forward_ext (plan : option nat) (input out1 out2 : list float) :
  (forall n, plan = Some n -> length out1 = (2 * (n / 2 + 1))%nat /\
                              length out2 = (2 * (n / 2 + 1))%nat) ->
  ffts_execute_forward plan input out1 = ffts_execute_forward plan input out2.
Proof.
  intros H. unfold ffts_execute_forward. destruct plan as [n|]; [| done].
  destruct (H n eq_refl) as [H1 H2]. cbn [mbind option_bind].
  rewrite (drop_ge out1), (drop_ge out2) by lia.
  repeat case_guard; try done; lia.
Qed.

Lemma ffts_execute_backward_ext (plan : option nat) (input out1 out2 : list float) :
  (forall n, plan = Some n -> length out1 = n /\ length out2 = n) ->
  ffts_execute_backward plan input out1 = ffts_execute_backward plan input out2.
Proof.
  intros H. unfold ffts_execute_backward. destruct plan as [n|]; [| done].
  destruct (H n eq_refl) as [H1 H2]. cbn [mbind option_bind].
  rewrite (drop_ge out1), (drop_ge out2) by lia.
  repeat case_guard; try done; lia.
Qed.

Lemma RectangularWindow_defined (input : list float) (d npoints : nat) (out : list float) :
  (d <= length input)%nat -> length out = npoints ->
  exists inbuf, RectangularWindow input d npoints out = Some inbuf /\
                length inbuf = npoints.
Proof.
  intros Hd Hout. unfold RectangularWindow.
  repeat case_guard; try lia. cbn [mbind option_bind].
  eexists. split; [reflexivity |].
  rewrite length_app, length_map, length_seq, length_drop. lia.
Qed.

Lemma ffts_execute_forward_defined (n : nat) (input out : list float) :
  (n <= length input)%nat -> length out = (2 * (n / 2 + 1))%nat ->
  exists outbuf, ffts_execute_forward (Some n) input out = Some outbuf /\
                 length outbuf = (2 * (n / 2 + 1))%nat.
Proof.
  intros Hd Hout. unfold ffts_execute_forward. cbn [mbind option_bind].
  repeat case_guard; try lia. cbn [mbind option_bind].
  eexists. split; [reflexivity |].
  rewrite length_app, length_resize, length_drop. lia.
Qed.

Lemma ffts_execute_backward_defined (n : nat) (input out : list float) :
  (2 * (n / 2 + 1) <= length input)%nat -> length out = n ->
  exists revbuf, ffts_execute_backward (Some n) input out = Some revbuf /\
                 length revbuf = n.
Proof.
  intros Hd Hout. unfold ffts_execute_backward. cbn [mbind option_bind].
  repeat case_guard; try lia. cbn [mbind option_bind].
  eexists. split; [reflexivity |].
  rewrite length_app, length_resize, length_drop. lia.
Qed.

(** On the FFT branch the whole result, waveform and object, is the same for
    two objects that agree on the engine state, however their caches differ. *)
Lemma DegradeSerialData_lpf_cache (src1 src2 : TestWaveformSource)
  (cap : UniformAnalogWaveform) (sampleperiod : Z) (depth : nat) (noise_amplitude : float) :
  APPLE_SILICON = false ->
  cache_consistent src1 -> cache_consistent src2 ->
  m_rng src1 = m_rng src2 ->
  DegradeSerialData src1 cap sampleperiod depth true noise_amplitude
  = DegradeSerialData src2 cap sampleperiod depth true noise_amplitude.
Proof.
  intros Ha Hc1 Hc2 Hrng. unfold DegradeSerialData. rewrite Ha. cbv zeta.
  destruct (next_pow2_ge depth) as [_ Hnp].
  destruct (prepare_fft_shape src1 _ Hc1 Hnp) as (Hn1 & Hf1 & Hr1 & Hi1 & Ho1 & Hv1).
  destruct (prepare_fft_shape src2 _ Hc2 Hnp) as (Hn2 & Hf2 & Hr2 & Hi2 & Ho2 & Hv2).
  pose proof (prepare_fft_rng src1 (next_pow2 depth) (next_pow2 depth / 2 + 1)) as Hg1.
  pose proof (prepare_fft_rng src2 (next_pow2 depth) (next_pow2 depth / 2 + 1)) as Hg2.
  cbv zeta in *.
  set (s1 := prepare_fft src1 _ _) in *. set (s2 := prepare_fft src2 _ _) in *.
  rewrite (RectangularWindow_ext _ _ _ (m_forwardInBuf s1) (m_forwardInBuf s2) Hi1 Hi2).
  destruct (RectangularWindow _ _ _ _) as [inbuf |]; [| done]. cbn [mbind option_bind].
  rewrite Hf1, Hf2.
  rewrite (ffts_execute_forward_ext _ inbuf (m_forwardOutBuf s1) (m_forwardOutBuf s2))
    by (intros n [= <-]; done).
  destruct (ffts_execute_forward _ _ _) as [outbuf |]; [| done]. cbn [mbind option_bind].
  destruct (groupDelaySamples _) as [gds |]; [| done]. cbn [mbind option_bind].
  destruct (apply_channel _ _ _) as [outbuf' |]; [| done]. cbn [mbind option_bind].
  rewrite Hr1, Hr2.
  rewrite (ffts_execute_backward_ext _ outbuf' (m_reverseOutBuf s1) (m_reverseOutBuf s2))
    by (intros n [= <-]; done).
  destruct (ffts_execute_backward _ _ _) as [revbuf |]; [| done]. cbn [mbind option_bind].
  rewrite Hg1, Hg2, Hrng.
  destruct (rescale_and_copy _ _ _ _ _ _ _) as [[samples ns] |]; [| done].
  cbn [mbind option_bind]. by rewrite Hn1, Hn2.
Qed.

Lemma apply_channel_length (sampleperiod : Z) (nouts : nat) (buf : list float) :
  length buf = (2 * nouts)%nat ->
  exists buf', apply_channel sampleperiod nouts buf = Some buf' /\
               length buf' = (2 * nouts)%nat.
Proof.
  intros Hlen. unfold apply_channel.
  apply (for_loopM_ind (fun _ b => length b = (2 * nouts)%nat)); [done |].
  intros j b Hj Hb.
  destruct (lookup_lt_is_Some_2 b (j * 2) ltac:(lia)) as [re Hre].
  destruct (lookup_lt_is_Some_2 b (j * 2 + 1) ltac:(lia)) as [im Him].
  rewrite Hre. cbn [mbind option_bind]. rewrite Him. cbn [mbind option_bind].
  eexists. split; [reflexivity |]. by rewrite !length_insert.
Qed.

(** The copy loop is defined when the trimmed range lies inside both buffers. *)
Lemma rescale_and_copy_spec (noise : noise_state -> double * noise_state)
  (revbuf : list float) (istart finalLen : Z) (fftscale : float)
  (samples : list float) (ns : noise_state) :
  0 <= istart -> 0 <= finalLen ->
  istart + finalLen <= Z.of_nat (length revbuf) ->
  finalLen <= Z.of_nat (length samples) ->
  istart + finalLen < SIZE_MODULUS ->
  exists samples',
    rescale_and_copy noise revbuf istart finalLen fftscale samples ns
    = Some (samples', noise_after noise (Z.to_nat finalLen) ns) /\
    length samples' = length samples.
Proof.
  intros Hi Hf Hrev Hsam Hmod. unfold rescale_and_copy.
  set (P := fun (j : nat) (st : list float * noise_state) =>
              snd st = noise_after noise j ns /\ length (fst st) = length samples).
  destruct (for_loopM_ind P
              (fun i '(samples0, ns0) =>
                 r ← revbuf !! Z.to_nat ((Z.of_nat i + istart) mod SIZE_MODULUS);
                 guard (i < length samples0)%nat;;
                 let '(n, ns1) := noise ns0 in
                 Some (<[i := d2f (dadd (f2d (r * fftscale)%flt) n)]> samples0, ns1))
              (Z.to_nat finalLen) (samples, ns)) as ([samples' ns'] & Hrun & Hns & Hl).
  - by split.
  - intros j [samples0 ns0] Hj [Hns Hl]. cbn [fst snd] in *.
    rewrite Z.mod_small by lia.
    destruct (lookup_lt_is_Some_2 revbuf (Z.to_nat (Z.of_nat j + istart)) ltac:(lia))
      as [r Hr].
    rewrite Hr. cbn [mbind option_bind].
    case_guard; [| lia]. cbn [mbind option_bind].
    destruct (noise ns0) as [n ns1] eqn:En.
    eexists. split; [reflexivity |]. split; cbn [fst snd].
    + by rewrite noise_after_S, <- Hns, En.
    + by rewrite length_insert.
  - cbn [fst snd] in *. subst ns'. by exists samples'.
Qed.

(** The copy loop is undefined when it is asked for more samples than the
    waveform holds. *)
Lemma rescale_and_copy_overrun (noise : noise_state -> double * noise_state)
  (revbuf : list float) (istart finalLen : Z) (fftscale : float)
  (samples : list float) (ns : noise_state) :
  Z.of_nat (length samples) < finalLen ->
  rescale_and_copy noise revbuf istart finalLen fftscale samples ns = None.
Proof.
  intros Hlen. unfold rescale_and_copy, for_loopM.
  apply (for_fromM_fail (fun st => length (fst st) = length samples) _ _ 0 (length samples)).
  - lia.
  - done.
  - intros j [samples0 ns0] [samples1 ns1] Hinv Hb. cbn [fst] in *.
    destruct (revbuf !! _) as [r |]; [| discriminate]. cbn [mbind option_bind] in Hb.
    case_guard; [| discriminate]. cbn [mbind option_bind] in Hb.
    destruct (noise ns0) as [n ns2]. injection Hb as <- <-.
    by rewrite length_insert.
  - intros [samples0 ns0] Hinv. cbn [fst] in *.
    destruct (revbuf !! _) as [r |]; [| done]. cbn [mbind option_bind].
    case_guard; [lia | done].
Qed.

(** The FFT branch with a group delay of [0 .. depth] samples is defined and
    returns [depth - groupDelaySamples] samples. *)
Lemma DegradeSerialData_lpf_length (src : TestWaveformSource) (cap : UniformAnalogWaveform)
  (sampleperiod : Z) (depth : nat) (noise_amplitude : float) (gds : Z) :
  APPLE_SILICON = false ->
  cache_consistent src ->
  length (m_samples cap) = depth ->
  Z.of_nat depth < SIZE_MODULUS ->
  groupDelaySamples (m_timescale cap) = Some gds ->
  0 <= gds <= Z.of_nat depth ->
  exists src' cap',
    DegradeSerialData src cap sampleperiod depth true noise_amplitude = Some (src', cap') /\
    Z.of_nat (length (m_samples cap')) = Z.of_nat depth - gds /\
    m_timescale cap' = m_timescale cap /\
    cache_consistent src'.
Proof.
  intros Ha Hc Hlen Hdepth Hgds Hrange. unfold DegradeSerialData. rewrite Ha. cbv zeta.
  destruct (next_pow2_ge depth) as [Hge Hnp].
  destruct (prepare_fft_shape src _ Hc Hnp) as (Hn & Hf & Hr & Hi & Ho & Hv).
  cbv zeta in *. set (s := prepare_fft src _ _) in *.
  set (np := next_pow2 depth) in *.
  destruct (RectangularWindow_defined (m_samples cap) depth np (m_forwardInBuf s))
    as (inbuf & Hwin & Hinbuf); [lia | done |].
  rewrite Hwin. cbn [mbind option_bind]. rewrite Hf.
  destruct (ffts_execute_forward_defined np inbuf (m_forwardOutBuf s))
    as (outbuf0 & Hfwd & Hout0); [lia | done |].
  rewrite Hfwd. cbn [mbind option_bind].
  rewrite Hgds. cbn [mbind option_bind].
  destruct (apply_channel_length sampleperiod (np / 2 + 1) outbuf0 Hout0)
    as (outbuf & Hch & Hout).
  rewrite Hch. cbn [mbind option_bind]. rewrite Hr.
  destruct (ffts_execute_backward_defined np outbuf (m_reverseOutBuf s))
    as (revbuf & Hbwd & Hrev); [lia | done |].
  rewrite Hbwd. cbn [mbind option_bind].
  rewrite (Z.mod_small gds) by lia.
  rewrite (Z.mod_small (Z.of_nat depth - gds)) by lia.
  destruct (rescale_and_copy_spec (normal_distribution (i2d 0) (f2d noise_amplitude))
              revbuf gds (Z.of_nat depth - gds) (i2f 1 / i2f (Z.of_nat np))%flt
              (m_samples cap) (nd_fresh, m_rng s))
    as (samples' & Hrun & Hl); [lia .. |].
  rewrite Hrun. cbn [mbind option_bind]. eexists _, _. split; [reflexivity |].
  cbn. rewrite length_resize. split; [lia |]. split; [done |].
  right. cbn. rewrite Hn. by repeat split.
Qed.

(** With a group delay outside [0 .. depth] samples the FFT branch runs over
    the end of the waveform: the call is undefined. *)
Lemma DegradeSerialData_lpf_undefined (src : TestWaveformSource) (cap : UniformAnalogWaveform)
  (sampleperiod : Z) (depth : nat) (noise_amplitude : float) (gds : Z) :
  APPLE_SILICON = false ->
  length (m_samples cap) = depth ->
  Z.of_nat depth <= INT64_MAX ->
  groupDelaySamples (m_timescale cap) = Some gds ->
  INT64_MIN <= gds <= INT64_MAX ->
  gds < 0 \/ Z.of_nat depth < gds ->
  DegradeSerialData src cap sampleperiod depth true noise_amplitude = None.
Proof.
  intros Ha Hlen Hdepth Hgds Hint Hout. unfold DegradeSerialData. rewrite Ha. cbv zeta.
  destruct (RectangularWindow _ _ _ _) as [inbuf |]; [| done]. cbn [mbind option_bind].
  destruct (ffts_execute_forward _ _ _) as [outbuf |]; [| done]. cbn [mbind option_bind].
  rewrite Hgds. cbn [mbind option_bind].
  destruct (apply_channel _ _ _) as [outbuf' |]; [| done]. cbn [mbind option_bind].
  destruct (ffts_execute_backward _ _ _) as [revbuf |]; [| done]. cbn [mbind option_bind].
  rewrite rescale_and_copy_overrun; [done |].
  rewrite Hlen. unfold INT64_MIN, INT64_MAX, SIZE_MODULUS in *.
  destruct Hout as [Hneg | Hbig].
  - rewrite <- (Z.mod_add gds 1) by lia. rewrite (Z.mod_small (gds + _)) by lia.
    rewrite <- (Z.mod_add (_ - _) 1) by lia. rewrite Z.mod_small by lia. lia.
  - rewrite (Z.mod_small gds) by lia.
    rewrite <- (Z.mod_add (_ - _) 1) by lia. rewrite Z.mod_small by lia. lia.
Qed.

End DegradeProperties.

Section CallProperties.
Context {FM : FloatModel} {Env : Environment}.

Lemma TestWaveformSource_new_consistent (rng : Z) :
  cache_consistent (TestWaveformSource_new rng).
Proof. by left. Qed.

Lemma RectangularWindow_length (input : list float) (d npoints : nat) (out inbuf : list float) :
  length out = npoints ->
  RectangularWindow input d npoints out = Some inbuf -> length inbuf = npoints.
Proof.
  intros Hout. unfold RectangularWindow. intros H.
  repeat case_guard; simplify_eq/=.
  rewrite length_app, length_map, length_seq, length_drop. lia.
Qed.

Lemma ffts_execute_forward_length (n : nat) (input out outbuf : list float) :
  length out = (2 * (n / 2 + 1))%nat ->
  ffts_execute_forward (Some n) input out = Some outbuf ->
  length outbuf = (2 * (n / 2 + 1))%nat.
Proof.
  intros Hout. unfold ffts_execute_forward. cbn [mbind option_bind]. intros H.
  repeat case_guard; simplify_eq/=.
  rewrite length_app, length_resize, length_drop. lia.
Qed.

Lemma ffts_execute_backward_length (n : nat) (input out revbuf : list float) :
  length out = n ->
  ffts_execute_backward (Some n) input out = Some revbuf -> length revbuf = n.
Proof.
  intros Hout. unfold ffts_execute_backward. cbn [mbind option_bind]. intros H.
  repeat case_guard; simplify_eq/=.
  rewrite length_app, length_resize, length_drop. lia.
Qed.

Lemma apply_channel_keeps_length (sampleperiod : Z) (nouts : nat) (buf buf' : list float) :
  length buf = (2 * nouts)%nat ->
  apply_channel sampleperiod nouts buf = Some buf' -> length buf' = (2 * nouts)%nat.
Proof.
  intros Hlen Hrun.
  destruct (apply_channel_length sampleperiod nouts buf Hlen) as (b & Hb & Hl).
  congruence.
Qed.

(** A call leaves the cache of the object consistent. *)
Lemma DegradeSerialData_consistent (src src' : TestWaveformSource)
  (cap cap' : UniformAnalogWaveform) (sampleperiod : Z) (depth : nat) (lpf : bool)
  (noise_amplitude : float) :
  cache_consistent src ->
  DegradeSerialData src cap sampleperiod depth lpf noise_amplitude = Some (src', cap') ->
  cache_consistent src'.
Proof.
  intros Hc. unfold DegradeSerialData.
  destruct APPLE_SILICON.
  - destruct (add_noise _ _ _ _) as [[samples ns] |]; [| discriminate].
    cbn [mbind option_bind]. intros [= <- _]. exact Hc.
  - cbv zeta. destruct (next_pow2_ge depth) as [_ Hnp].
    destruct (prepare_fft_shape src _ Hc Hnp) as (Hn & Hf & Hr & Hi & Ho & Hv).
    cbv zeta in *. set (s := prepare_fft src _ _) in *.
    destruct lpf.
    + destruct (RectangularWindow _ _ _ _) as [inbuf |] eqn:E1; [| discriminate].
      cbn [mbind option_bind].
      rewrite Hf. destruct (ffts_execute_forward _ _ _) as [outbuf |] eqn:E2; [| discriminate].
      cbn [mbind option_bind].
      destruct (groupDelaySamples _) as [gds |]; [| discriminate]. cbn [mbind option_bind].
      destruct (apply_channel _ _ _) as [outbuf' |] eqn:E3; [| discriminate].
      cbn [mbind option_bind].
      rewrite Hr. destruct (ffts_execute_backward _ _ _) as [revbuf |] eqn:E4; [| discriminate].
      cbn [mbind option_bind].
      destruct (rescale_and_copy _ _ _ _ _ _ _) as [[samples ns] |]; [| discriminate].
      cbn [mbind option_bind]. intros [= <- _]. right. cbn. rewrite Hn.
      apply RectangularWindow_length in E1; [| done].
      apply ffts_execute_forward_length in E2; [| done].
      apply apply_channel_keeps_length in E3; [| done].
      apply ffts_execute_backward_length in E4; [| done].
      by repeat split.
    + destruct (add_noise _ _ _ _) as [[samples ns] |]; [| discriminate].
      cbn [mbind option_bind]. intros [= <- _]. right. cbn. rewrite Hn. by repeat split.
Qed.

(** The waveform and the engine state a call leaves depend on the object only
    through the engine state it starts from. *)
Lemma DegradeSerialData_deterministic (src1 src2 : TestWaveformSource)
  (cap : UniformAnalogWaveform) (sampleperiod : Z) (depth : nat) (lpf : bool)
  (noise_amplitude : float) :
  m_rng src1 = m_rng src2 ->
  cache_consistent src1 -> cache_consistent src2 ->
  snd <$> DegradeSerialData src1 cap sampleperiod depth lpf noise_amplitude
  = snd <$> DegradeSerialData src2 cap sampleperiod depth lpf noise_amplitude /\
  (fun r => m_rng (fst r)) <$> DegradeSerialData src1 cap sampleperiod depth lpf noise_amplitude
  = (fun r => m_rng (fst r)) <$> DegradeSerialData src2 cap sampleperiod depth lpf noise_amplitude.
Proof.
  intros Hrng Hc1 Hc2.
  destruct APPLE_SILICON eqn:Ha; [| destruct lpf].
  - unfold DegradeSerialData. rewrite Ha, Hrng.
    by destruct (add_noise _ _ _ _) as [[samples ns] |].
  - by rewrite (DegradeSerialData_lpf_cache src1 src2).
  - unfold DegradeSerialData. rewrite Ha. cbv zeta. rewrite !prepare_fft_rng, Hrng.
    by destruct (add_noise _ _ _ _) as [[samples ns] |].
Qed.

End CallProperties.

(** C1 (amended).  Two calls of the same generator with the same parameters
    on objects whose noise engines are in the same state return the same
    waveform and leave the engines in the same state, whatever the FFT caches
    of the two objects hold, provided that for [GeneratePRBS31] the call
    [rand()] returns the same value in both. *)
Theorem generation_deterministic :
  forall (FM : FloatModel) (Env : Environment) (src1 src2 : TestWaveformSource)
         (rand_result : Z) (amplitude period : float) (sampleperiod : Z) (depth : nat)
         (lpf : bool) (noise_amplitude : float),
    m_rng src1 = m_rng src2 ->
    cache_consistent src1 -> cache_consistent src2 ->
    (snd <$> GeneratePRBS31 src1 rand_result amplitude period sampleperiod depth lpf
               noise_amplitude
     = snd <$> GeneratePRBS31 src2 rand_result amplitude period sampleperiod depth lpf
                 noise_amplitude) /\
    ((fun r => m_rng (fst r))
       <$> GeneratePRBS31 src1 rand_result amplitude period sampleperiod depth lpf
             noise_amplitude
     = (fun r => m_rng (fst r))
         <$> GeneratePRBS31 src2 rand_result amplitude period sampleperiod depth lpf
               noise_amplitude) /\
    (snd <$> Generate8b10b src1 amplitude period sampleperiod depth lpf noise_amplitude
     = snd <$> Generate8b10b src2 amplitude period sampleperiod depth lpf noise_amplitude) /\
    ((fun r => m_rng (fst r))
       <$> Generate8b10b src1 amplitude period sampleperiod depth lpf noise_amplitude
     = (fun r => m_rng (fst r))
         <$> Generate8b10b src2 amplitude period sampleperiod depth lpf noise_amplitude).
Proof.
  intros FM Env src1 src2 rand_result amplitude period sampleperiod depth lpf
    noise_amplitude Hrng Hc1 Hc2.
  unfold GeneratePRBS31, Generate8b10b. cbv zeta.
  split; [| split; [| split]]; by apply DegradeSerialData_deterministic.
Qed.

Lemma used_source_consistent {FM : FloatModel} {Env : Environment} (rng : Z) :
  cache_consistent (used_source rng).
Proof. right. by repeat split. Qed.

Lemma generation_deterministic_witness :
  snd <$> GeneratePRBS31 (Env := reference_IEEE) (TestWaveformSource_new 1) (2 ^ 30)
            IEEE.two (i2f 4000) 1000 6 true IEEE.zero
  = snd <$> GeneratePRBS31 (Env := reference_IEEE) (used_source 1) (2 ^ 30)
              IEEE.two (i2f 4000) 1000 6 true IEEE.zero.
Proof.
  refine (proj1 (generation_deterministic IEEE.model reference_IEEE
           (TestWaveformSource_new 1) (used_source 1) (2 ^ 30) IEEE.two (i2f 4000) 1000
           6%nat true IEEE.zero _ _ _)).
  - reflexivity.
  - left. reflexivity.
  - right. repeat split; reflexivity.
Defined.

(** C1 as stated fails for [GeneratePRBS31]: the same object, the same engine
    state and the same parameters give two different waveforms when [rand()]
    returns 0 in one call and 2^30 in the other. *)
Lemma PRBS31_depends_on_rand :
  snd <$> GeneratePRBS31 (Env := reference_IEEE) (TestWaveformSource_new 1) 0
            IEEE.two IEEE.four 1 6 false IEEE.zero
  <> snd <$> GeneratePRBS31 (Env := reference_IEEE) (TestWaveformSource_new 1) (2 ^ 30)
               IEEE.two IEEE.four 1 6 false IEEE.zero.
Proof.
  intros H. apply (f_equal (fmap (M := option) m_samples)) in H.
  vm_compute in H. discriminate.
Qed.

(** ** The group delay *)

Section GroupDelayProperties.
Context {FM : FloatModel} {Env : Environment}.

Lemma int64_div_spec (a b q : Z) :
  int64_div a b = Some q <->
  b <> 0 /\ ~ (a = INT64_MIN /\ b = -1) /\ q = Z.quot a b.
Proof.
  unfold int64_div.
  destruct (Z.eqb_spec b 0) as [-> | Hb]; cbn [orb].
  - split; [discriminate | intros (H & _); done].
  - destruct (Z.eqb_spec a INT64_MIN) as [-> | Ha]; cbn [andb].
    + destruct (Z.eqb_spec b (-1)) as [-> | Hb1].
      * split; [discriminate | intros (_ & H & _); exfalso; by apply H].
      * split; [intros [= <-]; repeat split; [done | by intros [_ ?]] |
                by intros (_ & _ & ->)].
    + split; [intros [= <-]; repeat split; [done | by intros [? _]] |
              by intros (_ & _ & ->)].
Qed.

Lemma quot_truncates (a b : Z) :
  b <> 0 ->
  Z.abs (Z.quot a b) * Z.abs b <= Z.abs a < (Z.abs (Z.quot a b) + 1) * Z.abs b /\
  0 <= Z.quot a b * (a * b).
Proof.
  intros Hb.
  assert (Habs : Z.abs (Z.quot a b) = Z.abs a / Z.abs b).
  { rewrite <- Z.quot_abs by done. apply Z.quot_div_nonneg; lia. }
  split.
  - rewrite Habs.
    pose proof (Z.mul_div_le (Z.abs a) (Z.abs b) ltac:(lia)).
    pose proof (Z.mul_succ_div_gt (Z.abs a) (Z.abs b) ltac:(lia)).
    lia.
  - assert (Hpos : forall x y, 0 <= x -> 0 < y -> 0 <= Z.quot x y)
      by (intros x y Hx Hy; apply Z.quot_pos; lia).
    destruct (Z.le_gt_cases 0 a) as [Ha | Ha], (Z.le_gt_cases 0 b) as [Hb' | Hb'].
    + pose proof (Hpos a b Ha ltac:(lia)). nia.
    + pose proof (Hpos a (- b) Ha ltac:(lia)) as H.
      rewrite Z.quot_opp_r in H by done. nia.
    + pose proof (Hpos (- a) b ltac:(lia) ltac:(lia)) as H.
      rewrite Z.quot_opp_l in H by done. nia.
    + pose proof (Hpos (- a) (- b) ltac:(lia) ltac:(lia)) as H.
      rewrite Z.quot_opp_l, Z.quot_opp_r in H by lia. nia.
Qed.

End GroupDelayProperties.

(** C3 (amended).  In the FFT branch the group delay is taken at the centre
    bin [size/2] of the S21 vector and converted to femtoseconds by a
    truncating conversion; the sample count is the quotient of that integer by
    the time step, truncated toward zero (C++ integer division), not rounded
    to the nearest integer. *)
Theorem groupDelaySamples_truncates :
  forall (FM : FloatModel) (Env : Environment) (timescale : Z),
    groupDelay = d2i (dmul (f2d (GetGroupDelay (s21_size / 2)%nat)) FS_PER_SECOND) /\
    (forall gd : Z,
       groupDelay = Some gd ->
       timescale <> 0 ->
       ~ (gd = INT64_MIN /\ timescale = -1) ->
       groupDelaySamples timescale = Some (Z.quot gd timescale)) /\
    (forall q : Z,
       groupDelaySamples timescale = Some q ->
       exists gd : Z,
         groupDelay = Some gd /\
         timescale <> 0 /\
         q = Z.quot gd timescale /\
         Z.abs q * Z.abs timescale <= Z.abs gd < (Z.abs q + 1) * Z.abs timescale /\
         0 <= q * (gd * timescale)).
Proof.
  intros FM Env timescale. split; [reflexivity |]. split.
  - intros gd Hgd Hts Hov. unfold groupDelaySamples. rewrite Hgd.
    cbn [mbind option_bind]. by apply int64_div_spec.
  - intros q. unfold groupDelaySamples.
    destruct groupDelay as [gd |]; [| discriminate]. cbn [mbind option_bind].
    intros (Hts & _ & ->)%int64_div_spec.
    exists gd. repeat split; try done; by apply quot_truncates.
Qed.

Lemma groupDelaySamples_truncates_witness :
  groupDelaySamples (Env := reference_IEEE) 500 = Some (Z.quot 909 500).
Proof.
  apply (proj1 (proj2 (groupDelaySamples_truncates IEEE.model reference_IEEE 500)) 909).
  - vm_compute. reflexivity.
  - lia.
  - intros [H _]. discriminate H.
Defined.

(** C3 as stated fails: for a group delay of 2^-40 s (909.49 fs) and a sample
    period of 500 fs the code obtains 1 sample, the nearest integer is 2. *)
Lemma groupDelaySamples_not_rounded :
  groupDelaySamples (Env := reference_IEEE) 500 = Some 1 /\
  spec_groupDelaySamples
    (SF2Q (GetGroupDelay (Environment := reference_IEEE)
            (s21_size (Environment := reference_IEEE) / 2)%nat)) 500 = 2.
Proof. split; vm_compute; reflexivity. Qed.

(** C2 (amended).  For a degraded generation call (loss model enabled, FFT
    path compiled in) whose channel group delay is non-negative, whose sample
    period is positive and whose group delay in samples does not exceed
    [depth], the group delay in samples is non-negative and the call returns
    a waveform of [depth - groupDelaySamples] samples. *)
Theorem degraded_length :
  forall (FM : FloatModel) (Env : Environment) (src : TestWaveformSource)
         (rand_result : Z) (amplitude period : float) (sampleperiod : Z) (depth : nat)
         (noise_amplitude : float) (gd : Z),
    APPLE_SILICON = false ->
    cache_consistent src ->
    Z.of_nat depth < SIZE_MODULUS ->
    groupDelay = Some gd ->
    0 <= gd ->
    0 < sampleperiod ->
    Z.quot gd sampleperiod <= Z.of_nat depth ->
    groupDelaySamples sampleperiod = Some (Z.quot gd sampleperiod) /\
    0 <= Z.quot gd sampleperiod /\
    (exists src' cap',
       GeneratePRBS31 src rand_result amplitude period sampleperiod depth true
         noise_amplitude = Some (src', cap') /\
       Z.of_nat (length (m_samples cap')) = Z.of_nat depth - Z.quot gd sampleperiod) /\
    (exists src' cap',
       Generate8b10b src amplitude period sampleperiod depth true
         noise_amplitude = Some (src', cap') /\
       Z.of_nat (length (m_samples cap')) = Z.of_nat depth - Z.quot gd sampleperiod).
Proof.
  intros FM Env src rand_result amplitude period sampleperiod depth noise_amplitude gd
    Ha Hc Hdepth Hgd Hgd0 Hsp Hle.
  assert (Hq : 0 <= Z.quot gd sampleperiod) by (apply Z.quot_pos; lia).
  assert (Hgds : groupDelaySamples sampleperiod = Some (Z.quot gd sampleperiod)).
  { unfold groupDelaySamples. rewrite Hgd. cbn [mbind option_bind].
    apply int64_div_spec. repeat split; [lia | intros [_ ?]; lia]. }
  split; [exact Hgds |]. split; [exact Hq |]. split.
  - unfold GeneratePRBS31. cbv zeta.
    destruct (PRBS31_waveform_spec rand_result amplitude period sampleperiod depth)
      as (Ht & Hl & _).
    destruct (DegradeSerialData_lpf_length src
                (PRBS31_waveform rand_result amplitude period sampleperiod depth)
                sampleperiod depth noise_amplitude (Z.quot gd sampleperiod))
      as (src' & cap' & Hrun & Hlen & _); try done; [by rewrite Ht |].
    by exists src', cap'.
  - unfold Generate8b10b. cbv zeta.
    destruct (b8b10b_waveform_spec amplitude period sampleperiod depth)
      as (Ht & Hl & _).
    destruct (DegradeSerialData_lpf_length src
                (b8b10b_waveform amplitude period sampleperiod depth)
                sampleperiod depth noise_amplitude (Z.quot gd sampleperiod))
      as (src' & cap' & Hrun & Hlen & _); try done; [by rewrite Ht |].
    by exists src', cap'.
Qed.

Lemma degraded_length_witness :
  exists src' cap',
    GeneratePRBS31 (Env := reference_IEEE) (TestWaveformSource_new 1) (2 ^ 30)
      IEEE.two (i2f 2000) 500 6 true IEEE.zero = Some (src', cap') /\
    Z.of_nat (length (m_samples cap')) = Z.of_nat 6 - Z.quot 909 500.
Proof.
  refine (proj1 (proj2 (proj2 (degraded_length IEEE.model reference_IEEE
            (TestWaveformSource_new 1) (2 ^ 30) IEEE.two (i2f 2000) 500 6%nat IEEE.zero 909
            _ _ _ _ _ _ _)))).
  - reflexivity.
  - left. reflexivity.
  - unfold SIZE_MODULUS. lia.
  - vm_compute. reflexivity.
  - lia.
  - lia.
  - vm_compute. discriminate.
Defined.

(** C2 as stated fails: with the 909 fs channel, a sample period of 1 fs and
    6 samples the group delay is 909 samples, more than the waveform holds,
    and the call runs over the end of its buffers instead of returning
    [6 - 909] samples; with a sample period of -500 the group delay in samples
    is negative. *)
Lemma degraded_length_unguarded :
  groupDelaySamples (Env := reference_IEEE) 1 = Some 909 /\
  GeneratePRBS31 (Env := reference_IEEE) (TestWaveformSource_new 1) 0
    IEEE.two IEEE.four 1 6 true IEEE.zero = None /\
  groupDelaySamples (Env := reference_IEEE) (-500) = Some (-1).
Proof.
  assert (Hgds : groupDelaySamples (Env := reference_IEEE) 1 = Some 909)
    by (vm_compute; reflexivity).
  split; [exact Hgds |]. split; [| vm_compute; reflexivity].
  unfold GeneratePRBS31. cbv zeta.
  destruct (PRBS31_waveform_spec (FM := IEEE.model) 0 IEEE.two IEEE.four 1 6)
    as (Ht & Hl & _).
  apply (DegradeSerialData_lpf_undefined _ _ _ _ _ 909).
  - reflexivity.
  - exact Hl.
  - unfold INT64_MAX. lia.
  - by rewrite Ht.
  - unfold INT64_MIN, INT64_MAX. lia.
  - right. lia.
Qed.

(** ** The noise-only branch *)

(** C9.  With the loss model disabled (or the FFT path compiled out)
    [DegradeSerialData] keeps the number of samples, adds draw number [i] of
    the distribution to sample [i] and leaves the engine after [depth] draws.
    In binary32 / binary64 with a standard deviation of zero every output
    sample has the value of the input sample. *)
Theorem noise_only_branch :
  (forall (FM : FloatModel) (Env : Environment) (src : TestWaveformSource)
          (cap : UniformAnalogWaveform) (sampleperiod : Z) (depth : nat) (lpf : bool)
          (noise_amplitude : float),
     APPLE_SILICON = true \/ lpf = false ->
     length (m_samples cap) = depth ->
     let noise := normal_distribution (i2d 0) (f2d noise_amplitude) in
     let ns := (nd_fresh, m_rng src) in
     exists src' cap',
       DegradeSerialData src cap sampleperiod depth lpf noise_amplitude
       = Some (src', cap') /\
       length (m_samples cap') = depth /\
       m_rng src' = snd (noise_after noise depth ns) /\
       forall i x, m_samples cap !! i = Some x ->
         m_samples cap' !! i = Some (d2f (dadd (f2d x) (noise_draw noise i ns)))) /\
  (forall (Env : @Environment IEEE.model) (src : @TestWaveformSource IEEE.model)
          (cap : @UniformAnalogWaveform IEEE.model) (sampleperiod : Z) (depth : nat)
          (lpf : bool) (s : bool),
     (forall (nd : @nd_cache IEEE.model Env) (rng : Z),
        IEEE.is_finite (fst (fst (@std_normal IEEE.model Env nd rng))) = true) ->
     @APPLE_SILICON IEEE.model Env = true \/ lpf = false ->
     length (m_samples cap) = depth ->
     Forall IEEE.valid32 (m_samples cap) ->
     exists src' cap',
       @DegradeSerialData IEEE.model Env src cap sampleperiod depth lpf (S754_zero s)
       = Some (src', cap') /\
       Forall2 IEEE.same_value (m_samples cap') (m_samples cap)).
Proof.
  split.
  - intros FM Env src cap sampleperiod depth lpf noise_amplitude Hpath Hlen noise ns.
    destruct (DegradeSerialData_noise_only src cap sampleperiod depth lpf noise_amplitude
                Hpath ltac:(lia)) as (src' & samples' & Hrun & Hrng & Hl & Hlo & _).
    exists src', (set_samples cap samples'). split; [exact Hrun |].
    split; [cbn; lia |]. split; [exact Hrng |].
    intros i x Hx. cbn. apply Hlo; [| done].
    apply lookup_lt_Some in Hx. lia.
  - intros Env src cap sampleperiod depth lpf s Hfin Hpath Hlen Hvalid.
    destruct (DegradeSerialData_noise_only src cap sampleperiod depth lpf
                (S754_zero s : @float IEEE.model)
                Hpath ltac:(lia)) as (src' & samples' & Hrun & Hrng & Hl & Hlo & _).
    exists src', (set_samples cap samples'). split; [exact Hrun |].
    cbn [m_samples set_samples].
    apply Forall2_same_length_lookup. split; [exact Hl |].
    intros i y x Hy Hx.
    assert (Hi : (i < depth)%nat)
      by (rewrite <- Hlen; exact (lookup_lt_Some _ _ _ Hx)).
    pose proof (eq_trans (eq_sym Hy) (Hlo i x Hi Hx)) as Heq.
    injection Heq as ->.
    unfold noise_draw.
    set (st := noise_after _ i _). unfold normal_distribution.
    pose proof (Hfin (fst st) (snd st)) as Hz.
    destruct (std_normal (fst st) (snd st)) as [[z nd] rng]. cbn [fst] in Hz |- *.
    apply zero_stddev_sample; [| exact Hz].
    eapply Forall_lookup_1; [exact Hvalid | exact Hx].
Qed.

Lemma reference_draw_finite (nd : @nd_cache _ reference_IEEE) (rng : Z) :
  IEEE.is_finite (fst (fst (std_normal (Environment := reference_IEEE) nd rng))) = true.
Proof.
  cbn [std_normal reference_IEEE reference_env fst].
  assert (H : 0 <= minstd_rand rng mod 7 < 7) by (apply Z.mod_pos_bound; lia).
  set (v := minstd_rand rng mod 7) in *.
  assert (Hv : v = 0 \/ v = 1 \/ v = 2 \/ v = 3 \/ v = 4 \/ v = 5 \/ v = 6) by lia.
  destruct Hv as [-> | [-> | [-> | [-> | [-> | [-> | ->]]]]]]; reflexivity.
Qed.

Lemma noise_only_branch_witness :
  exists src' cap',
    DegradeSerialData (Env := reference_IEEE) (TestWaveformSource_new 1)
      (GenerateStep IEEE.zero IEEE.one 1 4) 1 4 false (S754_zero false)
    = Some (src', cap') /\
    Forall2 IEEE.same_value (m_samples cap')
      (m_samples (GenerateStep IEEE.zero IEEE.one 1 4)).
Proof.
  refine (proj2 noise_only_branch reference_IEEE (TestWaveformSource_new 1)
            (GenerateStep IEEE.zero IEEE.one 1 4) 1 4%nat false false _ _ _ _).
  - exact reference_draw_finite.
  - right. reflexivity.
  - reflexivity.
  - repeat constructor.
Defined.

(** ** The range of the synthesized samples, in exact arithmetic *)

Lemma Qltb_lt (x y : Q) : Exact.Qltb x y = true <-> (x < y)%Q.
Proof.
  unfold Exact.Qltb. rewrite negb_true_iff, <- not_true_iff_false, Qle_bool_iff.
  split; [apply Qnot_le_lt | apply Qlt_not_le].
Qed.

Lemma Qltb_ge (x y : Q) : Exact.Qltb x y = false <-> (y <= x)%Q.
Proof.
  unfold Exact.Qltb. by rewrite negb_false_iff, Qle_bool_iff.
Qed.

Lemma inject_Z_pos (z : Z) : 0 < z -> (0 < inject_Z z)%Q.
Proof. intros Hz. unfold Qlt. simpl. lia. Qed.

(** The accumulator never goes below zero. *)
Lemma exact_phase_nonneg (period : Q) (sampleperiod : Z) (i : nat) :
  0 < sampleperiod ->
  (inject_Z sampleperiod <= period)%Q ->
  (0 <= phase_after (FM := Exact.model) period sampleperiod i)%Q.
Proof.
  intros Hsp Hper. pose proof (inject_Z_pos _ Hsp) as Hpos.
  induction i as [|i IH].
  - change (0 <= period)%Q. lra.
  - change (phase_after (FM := Exact.model) period sampleperiod (Datatypes.S i))
      with (next_phase (FM := Exact.model) period sampleperiod
              (phase_after (FM := Exact.model) period sampleperiod i)).
    set (phase := phase_after (FM := Exact.model) period sampleperiod i) in *.
    clearbody phase.
    unfold next_phase. cbn [fltb fsub fadd i2f Exact.model].
    destruct (Exact.Qltb _ _) eqn:E.
    + apply Qltb_lt in E. lra.
    + apply Qltb_ge in E. exact E.
Qed.

(** The interpolation fraction of an iteration that crosses zero lies in
    [0, 1]. *)
Lemma exact_fraction_range (period : Q) (sampleperiod : Z) (i : nat) :
  0 < sampleperiod ->
  (inject_Z sampleperiod <= period)%Q ->
  let phase := phase_after (FM := Exact.model) period sampleperiod i in
  crosses (FM := Exact.model) sampleperiod phase = true ->
  (0 <= 1 - phase / inject_Z sampleperiod <= 1)%Q.
Proof.
  intros Hsp Hper phase Hc. pose proof (inject_Z_pos _ Hsp) as Hpos.
  pose proof (exact_phase_nonneg period sampleperiod i Hsp Hper) as H0. fold phase in H0.
  clearbody phase.
  unfold crosses in Hc. cbn [fltb fsub i2f Exact.model] in Hc.
  apply Qltb_lt in Hc. change (inject_Z 0) with 0%Q in Hc.
  assert (H1 : (0 <= phase / inject_Z sampleperiod)%Q)
    by (apply Qle_shift_div_l; [exact Hpos | rewrite Qmult_0_l; exact H0]).
  assert (H2 : (phase / inject_Z sampleperiod < 1)%Q)
    by (apply Qlt_shift_div_r; [exact Hpos | rewrite Qmult_1_l; lra]).
  lra.
Qed.

(** A stored sample lies between the two levels; outside an edge it is one of
    them. *)
Lemma exact_emitted_range (scale : Q) (sampleperiod : Z) (last value : bool) (phase : Q) :
  (0 <= scale)%Q ->
  (last <> value -> 0 <= 1 - phase / inject_Z sampleperiod <= 1)%Q ->
  let x := emitted (FM := Exact.model) scale sampleperiod last phase value in
  (- scale <= x <= scale)%Q /\
  (last = value -> x == scale \/ x == - scale)%Q.
Proof.
  intros Hs Hfrac x. subst x. unfold emitted, level.
  cbn [fadd fsub fmul fdiv fneg i2f Exact.model].
  destruct (Bool.eqb last value) eqn:E.
  - split; [destruct value; lra |]. intros _. destruct value; [left | right]; reflexivity.
  - apply eqb_false_iff in E. specialize (Hfrac E).
    change (inject_Z 1) with 1%Q.
    set (f := (1 - phase / inject_Z sampleperiod)%Q) in *.
    split; [| done].
    destruct last, value; try done; nra.
Qed.

(** With a standard deviation of zero the noise-only branch returns samples
    equal (as rationals) to the ones it was given. *)
Lemma exact_noise_free (Env : @Environment Exact.model) (src : @TestWaveformSource Exact.model)
  (cap : @UniformAnalogWaveform Exact.model) (sampleperiod : Z) (depth : nat) (lpf : bool)
  (noise_amplitude : Q) :
  (noise_amplitude == 0)%Q ->
  @APPLE_SILICON Exact.model Env = true \/ lpf = false ->
  length (m_samples cap) = depth ->
  exists src' cap',
    @DegradeSerialData Exact.model Env src cap sampleperiod depth lpf noise_amplitude
    = Some (src', cap') /\
    length (m_samples cap') = depth /\
    forall i x, m_samples cap' !! i = Some x ->
      exists x0, m_samples cap !! i = Some x0 /\ (x == x0)%Q.
Proof.
  intros Hna Hpath Hlen.
  destruct (@DegradeSerialData_noise_only Exact.model Env src cap sampleperiod depth lpf
              noise_amplitude Hpath) as (src' & samples' & Hrun & _ & Hl & Hlo & _).
  { rewrite Hlen. apply le_n. }
  exists src', (set_samples cap samples'). split; [exact Hrun |].
  cbn [m_samples set_samples]. split; [exact (eq_trans Hl Hlen) |].
  intros i x Hx.
  assert (Hi : (i < length (m_samples cap))%nat).
  { rewrite <- Hl. exact (lookup_lt_Some _ _ _ Hx). }
  destruct (lookup_lt_is_Some_2 _ _ Hi) as [x0 Hx0].
  exists x0. split; [exact Hx0 |].
  rewrite Hlen in Hi.
  pose proof (eq_trans (eq_sym Hx) (Hlo i x0 Hi Hx0)) as Heq.
  injection Heq as ->.
  unfold noise_draw, normal_distribution.
  set (st := noise_after _ i _).
  destruct (std_normal (fst st) (snd st)) as [[z nd] rng].
  cbn [fst d2f dadd dmul f2d i2d Exact.model].
  change (inject_Z 0) with 0%Q. rewrite Hna. ring.
Qed.

(** The idealised statement: with rationals in place of binary32 the samples
    of both generators lie between the two levels, and the interpolation
    fraction lies in [0, 1]. *)
Lemma exact_samples_in_range :
  forall (Env : @Environment Exact.model) (src : @TestWaveformSource Exact.model)
         (rand_result : Z) (amplitude period : Q) (sampleperiod : Z) (depth : nat)
         (lpf : bool) (noise_amplitude : Q),
    (0 <= amplitude)%Q ->
    0 < sampleperiod ->
    (inject_Z sampleperiod <= period)%Q ->
    (noise_amplitude == 0)%Q ->
    @APPLE_SILICON Exact.model Env = true \/ lpf = false ->
    let prbs_it := @PRBS31_iteration Exact.model (amplitude / 2)%Q period sampleperiod in
    let prbs_vars := fun i => vars_after prbs_it i
                               (@PRBS31_entry Exact.model rand_result period) in
    let fixed_it := @b8b10b_iteration Exact.model (amplitude / 2)%Q period sampleperiod in
    let fixed_vars := fun i => vars_after fixed_it i (@b8b10b_entry Exact.model period) in
    (exists src' cap',
       @GeneratePRBS31 Exact.model Env src rand_result amplitude period sampleperiod depth
         lpf noise_amplitude = Some (src', cap') /\
       length (m_samples cap') = depth /\
       forall i x, m_samples cap' !! i = Some x ->
         (- (amplitude / 2) <= x <= amplitude / 2)%Q /\
         (v_value (prbs_vars i) = v_value (prbs_vars (Datatypes.S i)) ->
          (x == amplitude / 2 \/ x == - (amplitude / 2))%Q)) /\
    (exists src' cap',
       @Generate8b10b Exact.model Env src amplitude period sampleperiod depth
         lpf noise_amplitude = Some (src', cap') /\
       length (m_samples cap') = depth /\
       forall i x, m_samples cap' !! i = Some x ->
         (- (amplitude / 2) <= x <= amplitude / 2)%Q /\
         (w_value (fixed_vars i) = w_value (fixed_vars (Datatypes.S i)) ->
          (x == amplitude / 2 \/ x == - (amplitude / 2))%Q)) /\
    (forall i : nat,
       let phase := @phase_after Exact.model period sampleperiod i in
       @crosses Exact.model sampleperiod phase = true ->
       (0 <= 1 - phase / inject_Z sampleperiod <= 1)%Q).
Proof.
  intros Env src rand_result amplitude period sampleperiod depth lpf noise_amplitude
    Hamp Hsp Hper Hna Hpath prbs_it prbs_vars fixed_it fixed_vars.
  assert (Hscale : (0 <= amplitude / 2)%Q) by (apply Qle_shift_div_l; lra).
  split; [| split].
  - unfold GeneratePRBS31. cbv zeta.
    destruct (@PRBS31_waveform_spec Exact.model rand_result amplitude period sampleperiod
                depth) as (_ & Hl & Hs).
    destruct (exact_noise_free Env src _ sampleperiod depth lpf noise_amplitude
                Hna Hpath Hl) as (src' & cap' & Hrun & Hlen & Hout).
    exists src', cap'. split; [exact Hrun |]. split; [exact Hlen |].
    intros i x Hx. destruct (Hout i x Hx) as (x0 & Hx0 & Heq).
    assert (Hi : (i < depth)%nat).
    { rewrite <- Hl. exact (lookup_lt_Some _ _ _ Hx0). }
    pose proof (eq_trans (eq_sym Hx0) (Hs i Hi)) as Hx0'. injection Hx0' as ->.
    destruct (@PRBS31_iteration_spec Exact.model (amplitude / 2)%Q period sampleperiod
                (prbs_vars i)) as (_ & _ & Hv & He).
    destruct (@PRBS31_vars_after Exact.model (amplitude / 2)%Q period sampleperiod
                rand_result i) as (Hph & _ & _).
    cbv zeta in Hv, He, Hph. fold prbs_it in Hv, He, Hph |- *.
    change (vars_after prbs_it i (@PRBS31_entry Exact.model rand_result period))
      with (prbs_vars i) in Hph |- *.
    change (fst (prbs_it (prbs_vars i))) with (prbs_vars (Datatypes.S i)) in Hv, He.
    destruct (exact_emitted_range (amplitude / 2)%Q sampleperiod
                (v_value (prbs_vars i)) (v_value (prbs_vars (Datatypes.S i)))
                (v_phase (prbs_vars i)) Hscale) as [Hrange Hlevel].
    { intros Hne. rewrite Hph. apply exact_fraction_range; try done.
      rewrite <- Hph. destruct (crosses _ _); [done |]. by rewrite Hv in Hne. }
    cbv zeta in Hrange, Hlevel. rewrite <- He in Hrange, Hlevel.
    split; [rewrite Heq; exact Hrange |].
    intros Hsame. rewrite Heq. by apply Hlevel.
  - unfold Generate8b10b. cbv zeta.
    destruct (@b8b10b_waveform_spec Exact.model amplitude period sampleperiod
                depth) as (_ & Hl & Hs).
    destruct (exact_noise_free Env src _ sampleperiod depth lpf noise_amplitude
                Hna Hpath Hl) as (src' & cap' & Hrun & Hlen & Hout).
    exists src', cap'. split; [exact Hrun |]. split; [exact Hlen |].
    intros i x Hx. destruct (Hout i x Hx) as (x0 & Hx0 & Heq).
    assert (Hi : (i < depth)%nat).
    { rewrite <- Hl. exact (lookup_lt_Some _ _ _ Hx0). }
    pose proof (eq_trans (eq_sym Hx0) (Hs i Hi)) as Hx0'. injection Hx0' as ->.
    destruct (@b8b10b_iteration_spec Exact.model (amplitude / 2)%Q period sampleperiod
                (fixed_vars i)) as (_ & _ & Hv & He).
    destruct (@b8b10b_vars_after Exact.model (amplitude / 2)%Q period sampleperiod
                i) as (Hph & _ & _).
    cbv zeta in Hv, He, Hph. fold fixed_it in Hv, He, Hph |- *.
    change (vars_after fixed_it i (@b8b10b_entry Exact.model period))
      with (fixed_vars i) in Hph |- *.
    change (fst (fixed_it (fixed_vars i))) with (fixed_vars (Datatypes.S i)) in Hv, He.
    destruct (exact_emitted_range (amplitude / 2)%Q sampleperiod
                (w_value (fixed_vars i)) (w_value (fixed_vars (Datatypes.S i)))
                (w_phase (fixed_vars i)) Hscale) as [Hrange Hlevel].
    { intros Hne. rewrite Hph. apply exact_fraction_range; try done.
      rewrite <- Hph. destruct (crosses _ _); [done |]. by rewrite Hv in Hne. }
    cbv zeta in Hrange, Hlevel. rewrite <- He in Hrange, Hlevel.
    split; [rewrite Heq; exact Hrange |].
    intros Hsame. rewrite Heq. by apply Hlevel.
  - intros i phase Hc. by apply exact_fraction_range.
Qed.

Lemma exact_samples_in_range_witness :
  exists src' cap',
    @GeneratePRBS31 Exact.model reference_Exact (TestWaveformSource_new 1) (2 ^ 30)
      (2 # 1)%Q (4 # 1)%Q 1 6 false (0 # 1)%Q = Some (src', cap') /\
    length (m_samples cap') = 6%nat /\
    forall i x, m_samples cap' !! i = Some x ->
      (- ((2 # 1) / 2) <= x <= (2 # 1) / 2)%Q /\
      (v_value (vars_after (@PRBS31_iteration Exact.model ((2 # 1) / 2)%Q (4 # 1)%Q 1) i
                  (@PRBS31_entry Exact.model (2 ^ 30) (4 # 1)%Q))
       = v_value (vars_after (@PRBS31_iteration Exact.model ((2 # 1) / 2)%Q (4 # 1)%Q 1)
                    (Datatypes.S i) (@PRBS31_entry Exact.model (2 ^ 30) (4 # 1)%Q)) ->
       (x == (2 # 1) / 2 \/ x == - ((2 # 1) / 2))%Q).
Proof.
  refine (proj1 (exact_samples_in_range reference_Exact (TestWaveformSource_new 1) (2 ^ 30)
            (2 # 1)%Q (4 # 1)%Q 1 6%nat false (0 # 1)%Q _ _ _ _ _)).
  - discriminate.
  - lia.
  - discriminate.
  - reflexivity.
  - right. reflexivity.
Defined.

(** ** Rounding to nearest in a binary format

    [SpecFloat] gives the operations of IEEE-754 as functions on mantissas and
    exponents.  This part relates them to the rational values: a result of
    [binary_round_aux] never passes a number of the format that lies on the
    other side of the exact value, so an operation whose exact result lies
    between two numbers of the format returns a finite value between them. *)

(** *** Powers of two and dyadic numbers *)

Lemma pow2_pos (e : Z) : (0 < pow2 e)%Q.
Proof. apply Qpower_0_lt. reflexivity. Qed.

Lemma pow2_add (a b : Z) : (pow2 (a + b) == pow2 a * pow2 b)%Q.
Proof. apply Qpower_plus. discriminate. Qed.

Lemma pow2_Z (n : Z) : 0 <= n -> (pow2 n == inject_Z (2 ^ n))%Q.
Proof. intros Hn. unfold pow2. by rewrite Zpower_Qpower. Qed.

Lemma pow2_le (a b : Z) : a <= b -> (pow2 a <= pow2 b)%Q.
Proof. intros H. apply Qpower_le_compat_l; [exact H | discriminate]. Qed.

Lemma dyadic_shift (m e n : Z) : 0 <= n -> (dyadic (m * 2 ^ n) e == dyadic m (e + n))%Q.
Proof.
  intros Hn. unfold dyadic. rewrite pow2_add, (pow2_Z n Hn), inject_Z_mult. ring.
Qed.

Lemma dyadic_le (m m' e : Z) : m <= m' <-> (dyadic m e <= dyadic m' e)%Q.
Proof.
  unfold dyadic. pose proof (pow2_pos e) as Hp. rewrite Zle_Qle. split; intros H.
  - apply Qmult_le_compat_r; [exact H | lra].
  - eapply Qmult_le_r; [exact Hp | exact H].
Qed.

Lemma dyadic_lt (m m' e : Z) : m < m' <-> (dyadic m e < dyadic m' e)%Q.
Proof.
  unfold dyadic. pose proof (pow2_pos e) as Hp. rewrite Zlt_Qlt. split; intros H.
  - apply Qmult_lt_compat_r; [exact Hp | exact H].
  - eapply Qmult_lt_r; [exact Hp | exact H].
Qed.

Lemma dyadic_0 (e : Z) : (dyadic 0 e == 0)%Q.
Proof. unfold dyadic. change (inject_Z 0) with 0%Q. ring. Qed.

Lemma dyadic_opp (m e : Z) : (dyadic (- m) e == - dyadic m e)%Q.
Proof. unfold dyadic. rewrite inject_Z_opp. ring. Qed.

Lemma dyadic_plus (a b e : Z) : (dyadic (a + b) e == dyadic a e + dyadic b e)%Q.
Proof. unfold dyadic. rewrite inject_Z_plus. ring. Qed.

Lemma dyadic_minus (a b e : Z) : (dyadic (a - b) e == dyadic a e - dyadic b e)%Q.
Proof. unfold dyadic, Z.sub. rewrite inject_Z_plus, inject_Z_opp. ring. Qed.

Lemma dyadic_pow2 (e : Z) : (dyadic 1 e == pow2 e)%Q.
Proof. unfold dyadic. change (inject_Z 1) with 1%Q. ring. Qed.

(** *** The number of binary digits *)

Lemma digits2_pos_bounds (m : positive) :
  2 ^ (Zpos (digits2_pos m) - 1) <= Zpos m < 2 ^ Zpos (digits2_pos m).
Proof.
  induction m as [m IH | m IH |]; cbn [digits2_pos].
  - rewrite Pos2Z.inj_succ.
    replace (Z.succ (Zpos (digits2_pos m)) - 1) with (Z.succ (Zpos (digits2_pos m) - 1))
      by lia.
    rewrite !Z.pow_succ_r by lia. lia.
  - rewrite Pos2Z.inj_succ.
    replace (Z.succ (Zpos (digits2_pos m)) - 1) with (Z.succ (Zpos (digits2_pos m) - 1))
      by lia.
    rewrite !Z.pow_succ_r by lia. lia.
  - cbn. lia.
Qed.

Lemma Zdigits2_bounds (m : Z) : 0 < m -> 2 ^ (Zdigits2 m - 1) <= m < 2 ^ Zdigits2 m.
Proof. destruct m as [|p|p]; try lia. intros _. apply digits2_pos_bounds. Qed.

Lemma Zdigits2_nonneg (m : Z) : 0 <= Zdigits2 m.
Proof. destruct m; cbn; lia. Qed.

Lemma Zdigits2_unique (m d : Z) : 2 ^ (d - 1) <= m < 2 ^ d -> 0 < m -> Zdigits2 m = d.
Proof.
  intros [Hlo Hhi] Hm. pose proof (Zdigits2_bounds m Hm) as [Hlo' Hhi'].
  pose proof (Zdigits2_nonneg m) as Hd.
  assert (Hd0 : 0 < d).
  { destruct (Z.lt_trichotomy d 0) as [H|[H|H]]; [| |exact H].
    - rewrite Z.pow_neg_r in Hhi by lia. lia.
    - subst d. cbn in Hhi. lia. }
  destruct (Z.lt_trichotomy (Zdigits2 m) d) as [H|[H|H]]; [| exact H |].
  - assert (2 ^ Zdigits2 m <= 2 ^ (d - 1)) by (apply Z.pow_le_mono_r; lia). lia.
  - assert (2 ^ d <= 2 ^ (Zdigits2 m - 1)) by (apply Z.pow_le_mono_r; lia). lia.
Qed.

Lemma Zdigits2_div (m n : Z) :
  0 <= n -> 0 < m / 2 ^ n -> Zdigits2 (m / 2 ^ n) = Zdigits2 m - n.
Proof.
  intros Hn Hq.
  assert (Hp : 0 < 2 ^ n) by (apply Z.pow_pos_nonneg; lia).
  assert (Hm : 0 < m).
  { destruct (Z.lt_trichotomy m 0) as [H|[H|H]]; [| | exact H].
    - assert (m / 2 ^ n < 0) by (apply Z.div_lt_upper_bound; lia). lia.
    - subst m. rewrite Z.div_0_l in Hq; lia. }
  pose proof (Zdigits2_bounds m Hm) as [Hlo Hhi].
  set (d := Zdigits2 m) in *.
  assert (Hge : 2 ^ n <= m).
  { destruct (Z.le_gt_cases (2 ^ n) m) as [H|H]; [exact H |].
    rewrite Z.div_small in Hq; lia. }
  assert (Hnd : n < d).
  { destruct (Z.lt_ge_cases n d) as [H|H]; [exact H |].
    assert (2 ^ d <= 2 ^ n) by (apply Z.pow_le_mono_r; lia). lia. }
  apply Zdigits2_unique; [| exact Hq]. split.
  - apply Z.div_le_lower_bound; [exact Hp |].
    rewrite <- Z.pow_add_r by lia. replace (n + (d - n - 1)) with (d - 1) by lia. exact Hlo.
  - apply Z.div_lt_upper_bound; [exact Hp |].
    rewrite <- Z.pow_add_r by lia. replace (n + (d - n)) with d by lia. exact Hhi.
Qed.

Lemma Zdigits2_succ (m : Z) :
  0 < m ->
  (Zdigits2 (m + 1) = Zdigits2 m) \/
  (m + 1 = 2 ^ Zdigits2 m /\ Zdigits2 (m + 1) = Zdigits2 m + 1).
Proof.
  intros Hm. pose proof (Zdigits2_bounds m Hm) as [Hlo Hhi].
  pose proof (Zdigits2_nonneg m) as Hd.
  destruct (Z.lt_ge_cases (m + 1) (2 ^ Zdigits2 m)) as [H|H].
  - left. apply Zdigits2_unique; lia.
  - right. split; [lia |]. apply Zdigits2_unique; [| lia].
    replace (Zdigits2 m + 1 - 1) with (Zdigits2 m) by lia.
    rewrite Z.pow_add_r by lia. lia.
Qed.

Lemma Zdigits2_pow2 (k : Z) : 0 <= k -> Zdigits2 (2 ^ k) = k + 1.
Proof.
  intros Hk. assert (0 < 2 ^ k) by (apply Z.pow_pos_nonneg; lia).
  apply Zdigits2_unique; [| done].
  replace (k + 1 - 1) with k by lia. rewrite Z.pow_add_r by lia. lia.
Qed.

Lemma Zdigits2_mul_pow2 (m n : Z) : 0 < m -> 0 <= n -> Zdigits2 (m * 2 ^ n) = Zdigits2 m + n.
Proof.
  intros Hm Hn. pose proof (Zdigits2_bounds m Hm) as [Hlo Hhi].
  assert (Hp : 0 < 2 ^ n) by (apply Z.pow_pos_nonneg; lia).
  assert (Hd : 0 < Zdigits2 m) by (destruct m; try lia; cbn; lia).
  apply Zdigits2_unique; [| lia].
  replace (Zdigits2 m + n - 1) with (Zdigits2 m - 1 + n) by lia.
  rewrite !Z.pow_add_r by lia. split.
  - apply Z.mul_le_mono_nonneg_r; lia.
  - apply Z.mul_lt_mono_pos_r; lia.
Qed.

Lemma Zdigits2_ge (q k : Z) : 0 <= k -> 2 ^ k <= q -> k + 1 <= Zdigits2 q.
Proof.
  intros Hk Hq. assert (Hp : 0 < 2 ^ k) by (apply Z.pow_pos_nonneg; lia).
  pose proof (Zdigits2_bounds q ltac:(lia)) as [_ Hhi].
  destruct (Z.lt_ge_cases k (Zdigits2 q)) as [H|H]; [lia |].
  assert (2 ^ Zdigits2 q <= 2 ^ k) by (apply Z.pow_le_mono_r; lia). lia.
Qed.

(** *** Shifting a mantissa right

    [shr_1] halves the mantissa and records the bits that fall off; when
    nothing falls off the position stays exact. *)

Lemma shr_1_m (r : shr_record) : 0 <= shr_m r -> shr_m (shr_1 r) = shr_m r / 2.
Proof.
  destruct r as [m r s]. cbn [shr_m]. intros Hm.
  destruct m as [|[p|p|]|p]; cbn [shr_1 shr_m]; try lia.
  - reflexivity.
  - rewrite Pos2Z.inj_xI. apply Z.div_unique with 1; lia.
  - rewrite Pos2Z.inj_xO. apply Z.div_unique with 0; lia.
  - reflexivity.
Qed.

Lemma shr_1_exact (r : shr_record) :
  shr_r r = false -> shr_s r = false -> shr_m r mod 2 = 0 ->
  shr_r (shr_1 r) = false /\ shr_s (shr_1 r) = false.
Proof.
  destruct r as [m r s]. cbn [shr_m shr_r shr_s]. intros -> -> Hm.
  destruct m as [|[p|p|]|[p|p|]]; cbn [shr_1 shr_r shr_s orb]; try done.
  - rewrite Pos2Z.inj_xI in Hm.
    rewrite Z.add_comm, Z.mul_comm, Z.mod_add in Hm by lia. done.
  - rewrite Pos2Z.neg_xI in Hm.
    replace (2 * Z.neg p - 1) with (1 + (Z.neg p - 1) * 2) in Hm by lia.
    rewrite Z.mod_add in Hm by lia. done.
Qed.

Lemma shr_iter_m (p : positive) (r : shr_record) :
  0 <= shr_m r -> shr_m (Pos.iter shr_1 r p) = shr_m r / 2 ^ Zpos p.
Proof.
  intros Hm. induction p as [|p IH] using Pos.peano_ind.
  - cbn [Pos.iter]. rewrite shr_1_m by done. by rewrite Z.pow_1_r.
  - rewrite Pos.iter_succ, shr_1_m.
    + rewrite IH, Pos2Z.inj_succ, Z.pow_succ_r, Z.div_div by lia.
      f_equal. lia.
    + rewrite IH. apply Z.div_pos; lia.
Qed.

Lemma shr_iter_exact (p : positive) (r : shr_record) :
  0 <= shr_m r -> shr_r r = false -> shr_s r = false -> shr_m r mod 2 ^ Zpos p = 0 ->
  shr_r (Pos.iter shr_1 r p) = false /\ shr_s (Pos.iter shr_1 r p) = false.
Proof.
  intros Hm Hr Hs. induction p as [|p IH] using Pos.peano_ind; intros Hd.
  - cbn [Pos.iter]. apply shr_1_exact; try done.
  - rewrite Pos.iter_succ.
    rewrite Pos2Z.inj_succ, Z.pow_succ_r in Hd by lia.
    apply Z.mod_divide in Hd; [| lia]. destruct Hd as [k Hk].
    assert (Hp : shr_m r mod 2 ^ Zpos p = 0).
    { rewrite Hk. replace (k * (2 * 2 ^ Z.pos p)) with (k * 2 * 2 ^ Zpos p) by lia.
      apply Z.mod_mul. lia. }
    destruct (IH Hp) as [Hr' Hs'].
    apply shr_1_exact; try done.
    rewrite shr_iter_m by done. rewrite Hk.
    replace (k * (2 * 2 ^ Z.pos p)) with (k * 2 * 2 ^ Zpos p) by lia.
    rewrite Z.div_mul by lia. apply Z.mod_mul. lia.
Qed.

Lemma loc_of_shr_record_of_loc (m : Z) (l : location) :
  loc_of_shr_record (shr_record_of_loc m l) = l.
Proof. by destruct l as [|[]]. Qed.

Lemma shr_m_record_of_loc (m : Z) (l : location) : shr_m (shr_record_of_loc m l) = m.
Proof. by destruct l as [|[]]. Qed.

Lemma shr_spec (m e n : Z) (l : location) :
  0 <= m -> 0 <= n ->
  snd (shr (shr_record_of_loc m l) e n) = e + n /\
  shr_m (fst (shr (shr_record_of_loc m l) e n)) = m / 2 ^ n /\
  (l = loc_Exact -> m mod 2 ^ n = 0 ->
   loc_of_shr_record (fst (shr (shr_record_of_loc m l) e n)) = loc_Exact).
Proof.
  intros Hm Hn. destruct n as [|p|p]; [| | lia]; cbn [shr fst snd].
  - rewrite shr_m_record_of_loc, loc_of_shr_record_of_loc, Z.div_1_r.
    repeat split; [lia | done].
  - rewrite iter_pos_iter. repeat split.
    + rewrite shr_iter_m; by rewrite shr_m_record_of_loc.
    + intros -> Hd. cbn [shr_record_of_loc].
      destruct (shr_iter_exact p {| shr_m := m; shr_r := false; shr_s := false |}) as [Hr Hs];
        try done.
      destruct (Pos.iter _ _ _) as [m' r' s']. cbn in Hr, Hs. by subst.
Qed.

Lemma shr_nop (r : shr_record) (e n : Z) : n <= 0 -> shr r e n = (r, e).
Proof. destruct n; try done; lia. Qed.

Lemma round_nearest_even_range (m : Z) (l : location) :
  m <= round_nearest_even m l <= m + 1 /\ (l = loc_Exact -> round_nearest_even m l = m).
Proof.
  destruct l as [|[]]; cbn [round_nearest_even]; try (split; [lia | done]).
  destruct (Z.even m); split; try lia; done.
Qed.

(** *** Values *)

Lemma located_range (mx ex : Z) (lx : location) (v : Q) :
  located mx ex lx v -> (dyadic mx ex <= v < dyadic (mx + 1) ex)%Q.
Proof.
  destruct lx; cbn [located]; intros H; [| lra].
  assert (dyadic mx ex < dyadic (mx + 1) ex)%Q by (apply dyadic_lt; lia). lra.
Qed.

Lemma dyadic_digits (m e : Z) :
  0 < m -> (pow2 (Zdigits2 m - 1 + e) <= dyadic m e < pow2 (Zdigits2 m + e))%Q.
Proof.
  intros Hm. pose proof (Zdigits2_bounds m Hm) as [Hlo Hhi].
  pose proof (Zdigits2_nonneg m) as Hd.
  assert (Hd1 : 0 <= Zdigits2 m - 1).
  { destruct m; try lia. cbn. lia. }
  split.
  - rewrite <- dyadic_pow2, Z.add_comm, <- dyadic_shift by done.
    apply dyadic_le. lia.
  - rewrite <- (dyadic_pow2 (_ + _)), Z.add_comm, <- dyadic_shift by done.
    apply dyadic_lt. lia.
Qed.

Lemma SF2Q_pos (m : positive) (e : Z) : SF2Q (S754_finite false m e) = dyadic (Zpos m) e.
Proof. reflexivity. Qed.

Lemma SF2Q_neg (m : positive) (e : Z) :
  (SF2Q (S754_finite true m e) == - dyadic (Zpos m) e)%Q.
Proof. change (SF2Q (S754_finite true m e)) with (dyadic (- Zpos m) e). apply dyadic_opp. Qed.

Lemma dyadic_pos (m e : Z) : 0 < m -> (0 < dyadic m e)%Q.
Proof. intros Hm. rewrite <- (dyadic_0 e). by apply dyadic_lt. Qed.

Ltac SF2Q_norm :=
  repeat first
    [ rewrite SF2Q_neg in *
    | rewrite SF2Q_pos in *
    | progress change (SF2Q (S754_zero _)) with 0%Q in * ].

(** *** Shifting a mantissa left *)

Lemma iter_xO_value (m d : positive) : Zpos (Pos.iter xO m d) = Zpos m * 2 ^ Zpos d.
Proof.
  induction d as [|d IH] using Pos.peano_ind.
  - cbn [Pos.iter]. lia.
  - rewrite Pos.iter_succ, Pos2Z.inj_xO, IH, Pos2Z.inj_succ, Z.pow_succ_r by lia. lia.
Qed.

Lemma shl_align_spec (m : positive) (e e' : Z) :
  snd (shl_align m e e') = Z.min e e' /\
  Zpos (fst (shl_align m e e')) = Zpos m * 2 ^ (e - Z.min e e').
Proof.
  unfold shl_align. destruct (e' - e) as [|d|d] eqn:E; cbn [fst snd].
  - replace (Z.min e e') with e by lia. rewrite Z.sub_diag. lia.
  - replace (Z.min e e') with e by lia. rewrite Z.sub_diag. lia.
  - replace (Z.min e e') with e' by lia. split; [done |].
    rewrite iter_xO_value. f_equal. f_equal. lia.
Qed.

Lemma dyadic_cond_Zopp (s : bool) (m e : Z) :
  (dyadic (cond_Zopp s m) e == if s then - dyadic m e else dyadic m e)%Q.
Proof. destruct s; cbn [cond_Zopp]; [apply dyadic_opp | reflexivity]. Qed.

Lemma SF2Q_finite (s : bool) (m : positive) (e : Z) :
  SF2Q (S754_finite s m e) = dyadic (cond_Zopp s (Zpos m)) e.
Proof. reflexivity. Qed.

Lemma shl_align_value (s : bool) (m : positive) (e e' : Z) :
  e' <= e ->
  (dyadic (cond_Zopp s (Zpos (fst (shl_align m e e')))) e' == SF2Q (S754_finite s m e))%Q.
Proof.
  intros He. destruct (shl_align_spec m e e') as [_ ->].
  replace (Z.min e e') with e' by lia.
  rewrite SF2Q_finite.
  destruct s; cbn [cond_Zopp]; rewrite ?dyadic_opp, dyadic_shift by lia;
    replace (e' + (e - e')) with e by lia; reflexivity.
Qed.

(** *** Products and quotients *)

Lemma dyadic_mul (a b e e' : Z) : (dyadic (a * b) (e + e') == dyadic a e * dyadic b e')%Q.
Proof. unfold dyadic. rewrite pow2_add, inject_Z_mult. ring. Qed.

Lemma new_location_exact (n k : Z) :
  (k = 0 -> new_location n k = loc_Exact) /\
  (k <> 0 -> exists c, new_location n k = loc_Inexact c).
Proof.
  unfold new_location, new_location_even, new_location_odd. split.
  - intros ->. by destruct (Z.even n).
  - intros Hk. destruct k; [done | |]; destruct (Z.even n); eexists; reflexivity.
Qed.

(** *** A format with [prec] bits of precision and exponents below [emax] *)

Section Format.
Variables prec emax : Z.
Hypothesis Hprec : 0 < prec.
Hypothesis Hemax : prec < emax.

Local Abbreviation fexp := (SpecFloat.fexp prec emax).
Local Abbreviation emin := (SpecFloat.emin prec emax).
Local Abbreviation valid := (valid_binary prec emax).

Lemma fexp_ge_emin (e : Z) : emin <= fexp e.
Proof. unfold SpecFloat.fexp. lia. Qed.

Lemma fexp_mono (a b : Z) : a <= b -> fexp a <= fexp b.
Proof. unfold SpecFloat.fexp. lia. Qed.

(** The shape of a rounded result.  The input is the mantissa [mx] at an
    exponent [ex] not above the one the format gives a number of that size;
    [m1] is the mantissa cut to the exponent [e1] of the format, and the
    result is [m1] or [m1 + 1] at that exponent, written in canonical form. *)
Lemma binary_round_aux_shape (sx : bool) (mx ex : Z) (lx : location) :
  0 <= mx -> ex <= fexp (Zdigits2 mx + ex) ->
  let e1 := fexp (Zdigits2 mx + ex) in
  let m1 := mx / 2 ^ (e1 - ex) in
  exists m2 : Z,
    m1 <= m2 <= m1 + 1 /\
    (lx = loc_Exact -> mx mod 2 ^ (e1 - ex) = 0 -> m2 = m1) /\
    (m1 = 0 -> e1 = emin) /\
    (0 < m1 -> fexp (Zdigits2 m1 + e1) = e1) /\
    ((m2 = 0 /\ binary_round_aux prec emax sx mx ex lx = S754_zero sx) \/
     (exists (m3 : positive) (e3 : Z),
        Zpos m3 * 2 ^ (e3 - e1) = m2 /\ e1 <= e3 /\
        canonical_mantissa prec emax m3 e3 = true /\
        binary_round_aux prec emax sx mx ex lx =
          if e3 <=? emax - prec then S754_finite sx m3 e3 else S754_infinity sx)).
Proof.
  intros Hm Hal e1 m1.
  assert (Hn : 0 <= e1 - ex) by (unfold e1; lia).
  assert (Hp : 0 < 2 ^ (e1 - ex)) by (apply Z.pow_pos_nonneg; lia).
  assert (Hm1 : 0 <= m1) by (apply Z.div_pos; lia).
  assert (Hz : m1 = 0 -> e1 = emin).
  { intros H0. destruct (Z.eq_dec e1 emin) as [|Hne]; [done | exfalso].
    assert (He1 : e1 = Zdigits2 mx + ex - prec) by (unfold e1, SpecFloat.fexp in *; lia).
    assert (Hmx : 0 < mx).
    { destruct (Z.eq_dec mx 0) as [->|]; [| lia]. cbn in He1. lia. }
    pose proof (Zdigits2_bounds mx Hmx) as [Hlo _].
    assert (2 ^ (e1 - ex) <= 2 ^ (Zdigits2 mx - 1)) by (apply Z.pow_le_mono_r; lia).
    assert (1 <= m1); [| lia].
    apply Z.div_le_lower_bound; lia. }
  assert (Hc : 0 < m1 -> fexp (Zdigits2 m1 + e1) = e1).
  { intros Hpos. unfold m1. rewrite Zdigits2_div by done.
    replace (Zdigits2 mx - (e1 - ex) + e1) with (Zdigits2 mx + ex) by lia. done. }
  unfold binary_round_aux, shr_fexp. fold e1.
  destruct (shr_spec mx ex (e1 - ex) lx Hm Hn) as (He' & Hm' & Hl').
  destruct (shr (shr_record_of_loc mx lx) ex (e1 - ex)) as [mrs' e'].
  cbn [fst snd] in He', Hm', Hl'.
  replace (ex + (e1 - ex)) with e1 in He' by lia. subst e'. rewrite Hm'. fold m1.
  set (l1 := loc_of_shr_record mrs') in *.
  destruct (round_nearest_even_range m1 l1) as [Hr Hre].
  set (m2 := round_nearest_even m1 l1) in *.
  exists m2. split; [exact Hr |]. split; [by intros Hx Hd; apply Hre, Hl' |].
  split; [exact Hz |]. split; [exact Hc |].
  destruct (Z.eq_dec m2 0) as [H0 | H0].
  - left. split; [exact H0 |]. rewrite H0. cbn [Zdigits2].
    rewrite shr_nop
      by (pose proof (fexp_ge_emin (Zdigits2 mx + ex)); unfold e1, SpecFloat.fexp in *; lia).
    reflexivity.
  - right. assert (Hm2 : 0 < m2) by lia.
    destruct (Z.eq_dec (fexp (Zdigits2 m2 + e1)) e1) as [Hcan | Hncan].
    + exists (Z.to_pos m2), e1. rewrite Z.sub_diag, Z.mul_1_r, Z2Pos.id by done.
      split; [done |]. split; [lia |]. split.
      * unfold canonical_mantissa. apply Z.eqb_eq.
        replace (Zpos (digits2_pos (Z.to_pos m2))) with (Zdigits2 m2); [done |].
        destruct m2; try lia. reflexivity.
      * rewrite Hcan, Z.sub_diag. cbn [shr shr_record_of_loc shr_m].
        destruct m2; try lia. reflexivity.
    + assert (Hm1p : 0 < m1).
      { destruct (Z.eq_dec m1 0) as [H1|]; [exfalso | lia].
        assert (m2 = 1) as Hm21 by lia. rewrite Hm21 in Hncan.
        cbn [Zdigits2 digits2_pos] in Hncan.
        specialize (Hz H1). unfold SpecFloat.fexp in Hncan. lia. }
      specialize (Hc Hm1p).
      assert (Hm21 : m2 = m1 + 1).
      { destruct (Z.eq_dec m2 m1) as [E|]; [| lia]. rewrite E in Hncan. done. }
      destruct (Zdigits2_succ m1 Hm1p) as [Hd | [Hpow Hd]];
        rewrite Hm21 in Hncan; rewrite Hd in Hncan; [done |].
      assert (Hd1 : Zdigits2 m1 = prec) by (unfold SpecFloat.fexp in *; lia).
      assert (Hf : fexp (Zdigits2 m1 + 1 + e1) = e1 + 1) by (unfold SpecFloat.fexp in *; lia).
      exists (Z.to_pos (2 ^ (prec - 1))), (e1 + 1).
      assert (Hpp : 0 < 2 ^ (prec - 1)) by (apply Z.pow_pos_nonneg; lia).
      rewrite Z2Pos.id by done.
      replace (e1 + 1 - e1) with 1 by lia.
      split.
      { rewrite Hm21, Hpow, Hd1. rewrite <- Z.pow_add_r by lia. f_equal. lia. }
      split; [lia |]. split.
      * unfold canonical_mantissa. apply Z.eqb_eq.
        replace (Zpos (digits2_pos (Z.to_pos (2 ^ (prec - 1))))) with (Zdigits2 (2 ^ (prec - 1)))
          by (destruct (2 ^ (prec - 1)); try lia; reflexivity).
        rewrite Zdigits2_pow2 by lia. unfold SpecFloat.fexp in *. lia.
      * rewrite Hm21, Hd, Hf. replace (e1 + 1 - e1) with 1 by lia.
        cbn [shr iter_pos shr_record_of_loc].
        rewrite shr_1_m by (cbn [shr_m]; lia). cbn [shr_m].
        rewrite Hpow, Hd1.
        assert (H2p : 2 ^ prec = 2 ^ (prec - 1) * 2).
        { replace prec with (Z.succ (prec - 1)) at 1 by lia.
          rewrite Z.pow_succ_r; lia. }
        rewrite H2p.
        rewrite Z.div_mul by lia.
        destruct (2 ^ (prec - 1)); try lia. reflexivity.
Qed.

(** Canonical numbers are ordered like their exponents: the smaller one does
    not have the larger exponent. *)
Lemma canonical_exponent_le (m m' e e' : Z) :
  0 < m -> 0 < m' ->
  fexp (Zdigits2 m + e) = e -> fexp (Zdigits2 m' + e') = e' ->
  (dyadic m e <= dyadic m' e')%Q -> e <= e'.
Proof.
  intros Hm Hm' Hc Hc' Hle.
  destruct (Z.le_gt_cases e e') as [H|H]; [exact H | exfalso].
  assert (Hd : Zdigits2 m' + e' <= Zdigits2 m - 1 + e).
  { destruct (Z.le_gt_cases (Zdigits2 m + e) (Zdigits2 m' + e')) as [H'|H']; [| lia].
    pose proof (fexp_mono _ _ H'). lia. }
  pose proof (dyadic_digits m e Hm) as [H1 _].
  pose proof (dyadic_digits m' e' Hm') as [_ H2].
  pose proof (pow2_le _ _ Hd). lra.
Qed.

Lemma bounded_inv (m : positive) (e : Z) :
  bounded prec emax m e = true ->
  fexp (Zdigits2 (Zpos m) + e) = e /\ e <= emax - prec.
Proof.
  unfold bounded, canonical_mantissa. intros H. apply andb_prop in H as [H1 H2].
  apply Z.eqb_eq in H1. apply Z.leb_le in H2. done.
Qed.

(** The exact value lies between the cut mantissa and the next one, and
    strictly above the cut mantissa unless the cut dropped nothing. *)
Lemma round_aux_values (mx ex : Z) (lx : location) (v : Q) :
  0 <= mx -> ex <= fexp (Zdigits2 mx + ex) -> located mx ex lx v ->
  let e1 := fexp (Zdigits2 mx + ex) in
  let m1 := mx / 2 ^ (e1 - ex) in
  (dyadic m1 e1 <= v < dyadic (m1 + 1) e1)%Q /\
  (~ (lx = loc_Exact /\ mx mod 2 ^ (e1 - ex) = 0) -> (dyadic m1 e1 < v)%Q).
Proof.
  intros Hm Hal Hloc e1 m1.
  assert (Hn : 0 <= e1 - ex) by (unfold e1; lia).
  assert (Hp : 0 < 2 ^ (e1 - ex)) by (apply Z.pow_pos_nonneg; lia).
  pose proof (Z.div_mod mx (2 ^ (e1 - ex)) ltac:(lia)) as Hdm. fold m1 in Hdm.
  pose proof (Z.mod_pos_bound mx (2 ^ (e1 - ex)) Hp) as Hr.
  assert (E1 : (dyadic m1 e1 == dyadic (m1 * 2 ^ (e1 - ex)) ex)%Q).
  { rewrite dyadic_shift by done. replace (ex + (e1 - ex)) with e1 by lia. reflexivity. }
  assert (E2 : (dyadic (m1 + 1) e1 == dyadic ((m1 + 1) * 2 ^ (e1 - ex)) ex)%Q).
  { rewrite dyadic_shift by done. replace (ex + (e1 - ex)) with e1 by lia. reflexivity. }
  pose proof (located_range _ _ _ _ Hloc) as [Hlo Hhi].
  assert (L1 : (dyadic (m1 * 2 ^ (e1 - ex)) ex <= dyadic mx ex)%Q) by (apply dyadic_le; lia).
  assert (L2 : (dyadic (mx + 1) ex <= dyadic ((m1 + 1) * 2 ^ (e1 - ex)) ex)%Q)
    by (apply dyadic_le; lia).
  split; [lra |]. intros Hne.
  destruct lx as [|c].
  - destruct (Z.eq_dec (mx mod 2 ^ (e1 - ex)) 0) as [H0|H0]; [by destruct Hne |].
    assert (dyadic (m1 * 2 ^ (e1 - ex)) ex < dyadic mx ex)%Q by (apply dyadic_lt; lia).
    lra.
  - cbn [located] in Hloc. lra.
Qed.

(** A rounded magnitude does not exceed a format number above the exact
    value. *)
Lemma round_aux_upper (sx : bool) (mx ex : Z) (lx : location) (v : Q)
  (mf : positive) (ef : Z) :
  0 <= mx -> ex <= fexp (Zdigits2 mx + ex) -> located mx ex lx v ->
  bounded prec emax mf ef = true ->
  (v <= dyadic (Zpos mf) ef)%Q ->
  binary_round_aux prec emax sx mx ex lx = S754_zero sx \/
  exists m e, binary_round_aux prec emax sx mx ex lx = S754_finite sx m e /\
    bounded prec emax m e = true /\ (dyadic (Zpos m) e <= dyadic (Zpos mf) ef)%Q.
Proof.
  intros Hm Hal Hloc Hb Hle.
  destruct (bounded_inv _ _ Hb) as [Hcf Hef].
  destruct (round_aux_values mx ex lx v Hm Hal Hloc) as [[Hlo Hhi] Hstrict].
  destruct (binary_round_aux_shape sx mx ex lx Hm Hal)
    as (m2 & Hm2 & Hexact & Hz & Hc & Hshape).
  cbv zeta in *.
  set (e1 := fexp (Zdigits2 mx + ex)) in *.
  set (m1 := mx / 2 ^ (e1 - ex)) in *.
  assert (Hn : 0 <= e1 - ex) by (unfold e1; lia).
  assert (Hm1 : 0 <= m1) by (apply Z.div_pos; [lia | apply Z.pow_pos_nonneg; lia]).
  assert (He : e1 <= ef).
  { destruct (Z.eq_dec m1 0) as [H0 | H0].
    - rewrite (Hz H0), <- Hcf. apply fexp_ge_emin.
    - apply (canonical_exponent_le m1 (Zpos mf) e1 ef);
        [lia | lia | apply Hc; lia | exact Hcf | lra]. }
  set (F := Zpos mf * 2 ^ (ef - e1)).
  assert (EF : (dyadic F e1 == dyadic (Zpos mf) ef)%Q).
  { unfold F. rewrite dyadic_shift by lia. replace (e1 + (ef - e1)) with ef by lia. reflexivity. }
  assert (H2F : m2 <= F).
  { destruct (Z.eq_dec m2 m1) as [E | E].
    - rewrite E. apply (dyadic_le _ _ e1). lra.
    - assert (dyadic m1 e1 < v)%Q.
      { apply Hstrict. intros [Hx Hd]. by apply E, Hexact. }
      assert (m1 < F) by (apply (dyadic_lt _ _ e1); lra). lia. }
  destruct Hshape as [[_ Hr] | (m3 & e3 & Hm3 & He3 & Hcan & Hr)]; [by left | right].
  assert (E3 : (dyadic (Zpos m3) e3 == dyadic m2 e1)%Q).
  { rewrite <- Hm3, dyadic_shift by lia. replace (e1 + (e3 - e1)) with e3 by lia. reflexivity. }
  assert (Hle3 : (dyadic (Zpos m3) e3 <= dyadic (Zpos mf) ef)%Q).
  { rewrite E3, <- EF. by apply dyadic_le. }
  assert (He3' : e3 <= ef).
  { apply (canonical_exponent_le (Zpos m3) (Zpos mf) e3 ef);
      [lia | lia | | exact Hcf | exact Hle3].
    unfold canonical_mantissa in Hcan. by apply Z.eqb_eq in Hcan. }
  exists m3, e3. split; [| split; [| exact Hle3]].
  - rewrite Hr. destruct (Z.leb_spec e3 (emax - prec)); [done | lia].
  - unfold bounded. rewrite Hcan. apply Z.leb_le. lia.
Qed.

(** A rounded magnitude is not below a format number under the exact
    value. *)
Lemma round_aux_lower (sx : bool) (mx ex : Z) (lx : location) (v : Q)
  (mf : positive) (ef : Z) :
  0 <= mx -> ex <= fexp (Zdigits2 mx + ex) -> located mx ex lx v ->
  bounded prec emax mf ef = true ->
  (dyadic (Zpos mf) ef <= v)%Q ->
  binary_round_aux prec emax sx mx ex lx = S754_infinity sx \/
  exists m e, binary_round_aux prec emax sx mx ex lx = S754_finite sx m e /\
    bounded prec emax m e = true /\ (dyadic (Zpos mf) ef <= dyadic (Zpos m) e)%Q.
Proof.
  intros Hm Hal Hloc Hb Hle.
  destruct (bounded_inv _ _ Hb) as [Hcf Hef].
  destruct (round_aux_values mx ex lx v Hm Hal Hloc) as [[Hlo Hhi] _].
  destruct (binary_round_aux_shape sx mx ex lx Hm Hal)
    as (m2 & Hm2 & _ & Hz & Hc & Hshape).
  cbv zeta in *.
  set (e1 := fexp (Zdigits2 mx + ex)) in *.
  set (m1 := mx / 2 ^ (e1 - ex)) in *.
  assert (Hn : 0 <= e1 - ex) by (unfold e1; lia).
  assert (Hm1 : 0 <= m1) by (apply Z.div_pos; [lia | apply Z.pow_pos_nonneg; lia]).
  assert (H2 : (dyadic (Zpos mf) ef <= dyadic m2 e1)%Q /\ 0 < m2).
  { destruct (Z.le_gt_cases e1 ef) as [He | He].
    - set (F := Zpos mf * 2 ^ (ef - e1)).
      assert (EF : (dyadic F e1 == dyadic (Zpos mf) ef)%Q).
      { unfold F. rewrite dyadic_shift by lia.
        replace (e1 + (ef - e1)) with ef by lia. reflexivity. }
      assert (F < m1 + 1) by (apply (dyadic_lt _ _ e1); lra).
      assert (0 < F) by (unfold F; apply Z.mul_pos_pos; [lia | apply Z.pow_pos_nonneg; lia]).
      split; [| lia]. rewrite <- EF. apply dyadic_le. lia.
    - assert (Hpos : 0 < m1).
      { destruct (Z.eq_dec m1 0) as [H0 |]; [| lia].
        pose proof (fexp_ge_emin (Zdigits2 (Zpos mf) + ef)). specialize (Hz H0). lia. }
      split; [| lia].
      destruct (Qlt_le_dec (dyadic (Zpos mf) ef) (dyadic m1 e1)) as [Hlt | Hge].
      + assert (dyadic m1 e1 <= dyadic m2 e1)%Q by (apply dyadic_le; lia). lra.
      + pose proof (canonical_exponent_le m1 (Zpos mf) e1 ef Hpos ltac:(lia)
                      (Hc Hpos) Hcf Hge). lia. }
  destruct H2 as [H2 Hpos].
  destruct Hshape as [[H0 _] | (m3 & e3 & Hm3 & He3 & Hcan & Hr)]; [lia |].
  assert (E3 : (dyadic (Zpos m3) e3 == dyadic m2 e1)%Q).
  { rewrite <- Hm3, dyadic_shift by lia. replace (e1 + (e3 - e1)) with e3 by lia. reflexivity. }
  rewrite Hr. destruct (Z.leb_spec e3 (emax - prec)) as [Hov | Hov]; [right | by left].
  exists m3, e3. split; [done |]. split; [| by rewrite E3].
  unfold bounded. rewrite Hcan. by apply Z.leb_le.
Qed.

(** The magnitude [q] of a rounded result, given a format number above the
    exact magnitude [v]. *)
Lemma round_aux_magnitude (sx : bool) (mx ex : Z) (lx : location) (v : Q)
  (mu : positive) (eu : Z) :
  0 <= mx -> ex <= fexp (Zdigits2 mx + ex) -> located mx ex lx v ->
  bounded prec emax mu eu = true -> (v <= dyadic (Zpos mu) eu)%Q ->
  let r := binary_round_aux prec emax sx mx ex lx in
  exists q : Q,
    valid_binary prec emax r = true /\ IEEE.is_finite r = true /\
    (SF2Q r == if sx then - q else q)%Q /\
    (0 <= q <= dyadic (Zpos mu) eu)%Q /\
    (forall ml el, bounded prec emax ml el = true -> (dyadic (Zpos ml) el <= v)%Q ->
       (dyadic (Zpos ml) el <= q)%Q).
Proof.
  intros Hm Hal Hloc Hb Hle r. subst r.
  pose proof (dyadic_pos (Zpos mu) eu eq_refl) as Hpu.
  destruct (round_aux_upper sx mx ex lx v mu eu Hm Hal Hloc Hb Hle)
    as [Hr | (m & e & Hr & Hbr & Hler)].
  - exists 0%Q. rewrite Hr. cbn [valid_binary IEEE.is_finite SF2Q].
    repeat split; try done; try lra.
    + by destruct sx.
    + intros ml el Hbl Hge. exfalso.
      destruct (round_aux_lower sx mx ex lx v ml el Hm Hal Hloc Hbl Hge)
        as [Hr' | (m' & e' & Hr' & _)]; rewrite Hr in Hr'; discriminate.
  - exists (dyadic (Zpos m) e). rewrite Hr. cbn [valid_binary IEEE.is_finite].
    pose proof (dyadic_pos (Zpos m) e eq_refl) as Hp.
    repeat split; try done; try lra.
    + destruct sx; [apply SF2Q_neg | reflexivity].
    + intros ml el Hbl Hge.
      destruct (round_aux_lower sx mx ex lx v ml el Hm Hal Hloc Hbl Hge)
        as [Hr' | (m' & e' & Hr' & _ & Hge')]; rewrite Hr in Hr'; [discriminate |].
      by injection Hr' as <- <-.
Qed.

(** A rounded value stays between two format numbers that enclose the exact
    value. *)
Lemma round_aux_between (sx : bool) (mx ex : Z) (lx : location) (v : Q)
  (f1 f2 : spec_float) :
  0 <= mx -> ex <= fexp (Zdigits2 mx + ex) -> located mx ex lx v -> (0 < v)%Q ->
  valid_binary prec emax f1 = true -> IEEE.is_finite f1 = true ->
  valid_binary prec emax f2 = true -> IEEE.is_finite f2 = true ->
  (SF2Q f1 <= (if sx then - v else v) <= SF2Q f2)%Q ->
  let r := binary_round_aux prec emax sx mx ex lx in
  valid_binary prec emax r = true /\ IEEE.is_finite r = true /\
  (SF2Q f1 <= SF2Q r <= SF2Q f2)%Q.
Proof.
  intros Hm Hal Hloc Hv Hv1 Hf1 Hv2 Hf2 [Hlo Hhi] r. subst r.
  destruct sx.
  - destruct f1 as [s1 | s1 | | [|] m1 e1]; try discriminate; SF2Q_norm;
      try (pose proof (dyadic_pos (Zpos m1) e1 eq_refl)); try (exfalso; lra).
    destruct (round_aux_magnitude true mx ex lx v m1 e1 Hm Hal Hloc Hv1)
      as (q & Hvr & Hfr & Hq & Hrange & Hlow); [lra |].
    split; [exact Hvr |]. split; [exact Hfr |]. rewrite Hq.
    destruct f2 as [s2 | s2 | | [|] m2 e2]; try discriminate; SF2Q_norm;
      try (pose proof (dyadic_pos (Zpos m2) e2 eq_refl)); try lra.
    specialize (Hlow m2 e2 Hv2). lra.
  - destruct f2 as [s2 | s2 | | [|] m2 e2]; try discriminate; SF2Q_norm;
      try (pose proof (dyadic_pos (Zpos m2) e2 eq_refl)); try (exfalso; lra).
    destruct (round_aux_magnitude false mx ex lx v m2 e2 Hm Hal Hloc Hv2)
      as (q & Hvr & Hfr & Hq & Hrange & Hlow); [lra |].
    split; [exact Hvr |]. split; [exact Hfr |]. rewrite Hq.
    destruct f1 as [s1 | s1 | | [|] m1 e1]; try discriminate; SF2Q_norm;
      try (pose proof (dyadic_pos (Zpos m1) e1 eq_refl)); try lra.
    specialize (Hlow m1 e1 Hv1). lra.
Qed.

(** *** The operations

    Each operation returns a finite canonical value between [f1] and [f2]
    whenever the exact result lies between these two numbers of the format. *)

Lemma binary_round_between (sx : bool) (m : positive) (e : Z) (f1 f2 : spec_float) :
  valid f1 = true -> IEEE.is_finite f1 = true -> valid f2 = true -> IEEE.is_finite f2 = true ->
  (SF2Q f1 <= SF2Q (S754_finite sx m e) <= SF2Q f2)%Q ->
  let r := binary_round prec emax sx m e in
  valid r = true /\ IEEE.is_finite r = true /\ (SF2Q f1 <= SF2Q r <= SF2Q f2)%Q.
Proof.
  intros Hv1 Hf1 Hv2 Hf2 Hb. unfold binary_round.
  destruct (shl_align_spec m e (fexp (Zpos (digits2_pos m) + e))) as [He Hm].
  destruct (shl_align m e _) as [mz ez]. cbn [fst snd] in He, Hm.
  set (e1 := fexp (Zpos (digits2_pos m) + e)) in *.
  assert (Hd : Zdigits2 (Zpos mz) + ez = Zpos (digits2_pos m) + e).
  { rewrite Hm, Zdigits2_mul_pow2 by lia. cbn [Zdigits2]. lia. }
  assert (Hval : (dyadic (Zpos mz) ez == dyadic (Zpos m) e)%Q).
  { rewrite Hm, dyadic_shift by lia. replace (ez + (e - Z.min e e1)) with e by lia.
    reflexivity. }
  apply (round_aux_between sx (Zpos mz) ez loc_Exact (dyadic (Zpos m) e));
    [lia | | exact (Qeq_sym _ _ Hval) | by apply dyadic_pos | done | done | done | done |].
  - rewrite Hd. fold e1. lia.
  - rewrite SF2Q_finite, dyadic_cond_Zopp in Hb. exact Hb.
Qed.

Lemma binary_normalize_between (m e : Z) (f1 f2 : spec_float) :
  valid f1 = true -> IEEE.is_finite f1 = true -> valid f2 = true -> IEEE.is_finite f2 = true ->
  (SF2Q f1 <= dyadic m e <= SF2Q f2)%Q ->
  let r := binary_normalize prec emax m e false in
  valid r = true /\ IEEE.is_finite r = true /\ (SF2Q f1 <= SF2Q r <= SF2Q f2)%Q.
Proof.
  intros Hv1 Hf1 Hv2 Hf2 Hb. destruct m as [|p|p]; cbn [binary_normalize].
  - rewrite dyadic_0 in Hb. cbn [valid_binary IEEE.is_finite SF2Q]. done.
  - by apply binary_round_between.
  - by apply binary_round_between.
Qed.

Lemma SFadd_between (x y f1 f2 : spec_float) :
  valid x = true -> IEEE.is_finite x = true -> valid y = true -> IEEE.is_finite y = true ->
  valid f1 = true -> IEEE.is_finite f1 = true -> valid f2 = true -> IEEE.is_finite f2 = true ->
  (SF2Q f1 <= SF2Q x + SF2Q y <= SF2Q f2)%Q ->
  let r := SFadd prec emax x y in
  valid r = true /\ IEEE.is_finite r = true /\ (SF2Q f1 <= SF2Q r <= SF2Q f2)%Q.
Proof.
  intros Hvx Hfx Hvy Hfy Hv1 Hf1 Hv2 Hf2 Hb.
  destruct x as [sx | sx | | sx mx ex], y as [sy | sy | | sy my ey]; try discriminate.
  - assert (H0 : (SF2Q (S754_zero sx) + SF2Q (S754_zero sy) == 0)%Q) by (cbn [SF2Q]; ring).
    rewrite H0 in Hb. by destruct sx, sy.
  - assert (H0 : (SF2Q (S754_zero sx) + SF2Q (S754_finite sy my ey)
                  == SF2Q (S754_finite sy my ey))%Q) by (cbn [SF2Q]; ring).
    rewrite H0 in Hb. done.
  - assert (H0 : (SF2Q (S754_finite sx mx ex) + SF2Q (S754_zero sy)
                  == SF2Q (S754_finite sx mx ex))%Q) by (cbn [SF2Q]; ring).
    rewrite H0 in Hb. done.
  - cbn [SFadd]. apply binary_normalize_between; try done.
    rewrite dyadic_plus, !shl_align_value by lia. exact Hb.
Qed.

Lemma SFsub_between (x y f1 f2 : spec_float) :
  valid x = true -> IEEE.is_finite x = true -> valid y = true -> IEEE.is_finite y = true ->
  valid f1 = true -> IEEE.is_finite f1 = true -> valid f2 = true -> IEEE.is_finite f2 = true ->
  (SF2Q f1 <= SF2Q x - SF2Q y <= SF2Q f2)%Q ->
  let r := SFsub prec emax x y in
  valid r = true /\ IEEE.is_finite r = true /\ (SF2Q f1 <= SF2Q r <= SF2Q f2)%Q.
Proof.
  intros Hvx Hfx Hvy Hfy Hv1 Hf1 Hv2 Hf2 Hb.
  destruct x as [sx | sx | | sx mx ex], y as [sy | sy | | sy my ey]; try discriminate.
  - assert (H0 : (SF2Q (S754_zero sx) - SF2Q (S754_zero sy) == 0)%Q) by (cbn [SF2Q]; ring).
    rewrite H0 in Hb. by destruct sx, sy.
  - assert (H0 : (SF2Q (S754_zero sx) - SF2Q (S754_finite sy my ey)
                  == SF2Q (S754_finite (negb sy) my ey))%Q).
    { rewrite !SF2Q_finite, !dyadic_cond_Zopp. change (SF2Q (S754_zero sx)) with 0%Q.
      destruct sy; cbn [negb]; ring. }
    rewrite H0 in Hb. done.
  - assert (H0 : (SF2Q (S754_finite sx mx ex) - SF2Q (S754_zero sy)
                  == SF2Q (S754_finite sx mx ex))%Q) by (cbn [SF2Q]; ring).
    rewrite H0 in Hb. done.
  - cbn [SFsub]. apply binary_normalize_between; try done.
    rewrite dyadic_minus, !shl_align_value by lia. exact Hb.
Qed.

(** The product of two canonical mantissas is not finer than the format. *)
Lemma mul_aligned (mx my : positive) (ex ey : Z) :
  bounded prec emax mx ex = true -> bounded prec emax my ey = true ->
  ex + ey <= fexp (Zdigits2 (Zpos (mx * my)) + (ex + ey)).
Proof.
  intros Hx Hy.
  destruct (bounded_inv _ _ Hx) as [Hcx _]. destruct (bounded_inv _ _ Hy) as [Hcy _].
  pose proof (Zdigits2_bounds (Zpos mx) eq_refl) as [Hlx _].
  pose proof (Zdigits2_bounds (Zpos my) eq_refl) as [Hly _].
  assert (Hdx : 1 <= Zdigits2 (Zpos mx)) by (cbn; lia).
  assert (Hdy : 1 <= Zdigits2 (Zpos my)) by (cbn; lia).
  assert (HD : Zdigits2 (Zpos mx) - 1 + (Zdigits2 (Zpos my) - 1) + 1
               <= Zdigits2 (Zpos (mx * my))).
  { apply Zdigits2_ge; [lia |]. rewrite Z.pow_add_r, Pos2Z.inj_mul by lia.
    apply Z.mul_le_mono_nonneg; try done; apply Z.pow_nonneg; lia. }
  unfold SpecFloat.fexp, SpecFloat.emin in *. lia.
Qed.

Lemma SFmul_between (x y f1 f2 : spec_float) :
  valid x = true -> IEEE.is_finite x = true -> valid y = true -> IEEE.is_finite y = true ->
  valid f1 = true -> IEEE.is_finite f1 = true -> valid f2 = true -> IEEE.is_finite f2 = true ->
  (SF2Q f1 <= SF2Q x * SF2Q y <= SF2Q f2)%Q ->
  let r := SFmul prec emax x y in
  valid r = true /\ IEEE.is_finite r = true /\ (SF2Q f1 <= SF2Q r <= SF2Q f2)%Q.
Proof.
  intros Hvx Hfx Hvy Hfy Hv1 Hf1 Hv2 Hf2 Hb.
  destruct x as [sx | sx | | sx mx ex], y as [sy | sy | | sy my ey]; try discriminate;
    try (assert (H0 : (SF2Q f1 <= 0 <= SF2Q f2)%Q)
           by (cbn [SF2Q] in Hb; rewrite ?Qmult_0_l, ?Qmult_0_r in Hb; exact Hb);
         by cbn [SFmul valid_binary IEEE.is_finite SF2Q]).
  cbn [SFmul].
  pose proof (dyadic_pos (Zpos mx) ex eq_refl) as Hpx.
  pose proof (dyadic_pos (Zpos my) ey eq_refl) as Hpy.
  assert (Hv : (dyadic (Zpos (mx * my)) (ex + ey) == dyadic (Zpos mx) ex * dyadic (Zpos my) ey)%Q)
    by (rewrite Pos2Z.inj_mul; apply dyadic_mul).
  apply (round_aux_between (xorb sx sy) (Zpos (mx * my)) (ex + ey) loc_Exact
           (dyadic (Zpos mx) ex * dyadic (Zpos my) ey));
    [lia | by apply mul_aligned | exact (Qeq_sym _ _ Hv) | | done | done | done | done |].
  - by apply Qmult_lt_0_compat.
  - destruct sx, sy; cbn [xorb]; SF2Q_norm; split; lra.
Qed.

(** The integer quotient computed by [SFdiv_core_binary], with the position
    of the exact quotient. *)
Lemma SFdiv_core_binary_spec (mx my : positive) (ex ey : Z) :
  let '(q, e', l) := SFdiv_core_binary prec emax (Zpos mx) ex (Zpos my) ey in
  0 <= q /\ e' <= fexp (Zdigits2 q + e') /\
  located q e' l (dyadic (Zpos mx) ex / dyadic (Zpos my) ey).
Proof.
  unfold SFdiv_core_binary.
  set (d1 := Zdigits2 (Zpos mx)). set (d2 := Zdigits2 (Zpos my)).
  set (e' := Z.min (fexp (d1 + ex - (d2 + ey))) (ex - ey)).
  set (s := ex - ey - e').
  assert (Hs : 0 <= s) by (unfold s, e'; lia).
  set (m' := match s with Z.pos _ => Z.shiftl (Zpos mx) s | 0 => Zpos mx | Z.neg _ => 0 end).
  assert (Hm' : m' = Zpos mx * 2 ^ s).
  { unfold m'. destruct s as [|p|p]; [lia | | lia]. by rewrite Z.shiftl_mul_pow2. }
  clearbody m'.
  pose proof (Z_div_mod m' (Zpos my) eq_refl) as Hdiv.
  destruct (Z.div_eucl m' (Zpos my)) as [q r]. destruct Hdiv as [Hqr Hr].
  assert (Hp : 0 < 2 ^ s) by (apply Z.pow_pos_nonneg; lia).
  assert (Hq : 0 <= q) by nia.
  pose proof (Zdigits2_bounds (Zpos mx) eq_refl) as [Hlx Hhx]. fold d1 in Hlx, Hhx.
  pose proof (Zdigits2_bounds (Zpos my) eq_refl) as [Hly Hhy]. fold d2 in Hly, Hhy.
  assert (Hd1 : 1 <= d1) by (unfold d1; cbn; lia).
  assert (Hd2 : 1 <= d2) by (unfold d2; cbn; lia).
  split; [exact Hq |]. split.
  - assert (HD : d1 + s - d2 <= Zdigits2 q).
    { destruct (Z.le_gt_cases (d1 + s - d2) 0) as [H|H].
      - pose proof (Zdigits2_nonneg q). lia.
      - replace (d1 + s - d2) with (d1 + s - d2 - 1 + 1) by lia.
        apply Zdigits2_ge; [lia |].
        assert (Hpow : 2 ^ d2 * 2 ^ (d1 + s - d2 - 1) = 2 ^ (d1 - 1) * 2 ^ s).
        { rewrite <- !Z.pow_add_r by lia. f_equal. lia. }
        assert (Hk : 0 < 2 ^ (d1 + s - d2 - 1)) by (apply Z.pow_pos_nonneg; lia).
        assert (Hle : Zpos my * 2 ^ (d1 + s - d2 - 1) <= m') by nia.
        nia. }
    pose proof (fexp_mono (d1 + ex - (d2 + ey)) (Zdigits2 q + e')
                  ltac:(unfold s in HD; lia)).
    unfold e' at 1. lia.
  - pose proof (dyadic_pos (Zpos my) ey eq_refl) as Hpy.
    assert (Hx : (dyadic (Zpos mx) ex == dyadic (Zpos my * q + r) (ey + e'))%Q).
    { rewrite <- Hqr, Hm', dyadic_shift by lia. replace (ey + e' + s) with ex by (unfold s; lia).
      reflexivity. }
    assert (Hsplit : (dyadic (Zpos my * q + r) (ey + e')
                      == dyadic (Zpos my) ey * dyadic q e' + dyadic r (ey + e'))%Q).
    { rewrite dyadic_plus, dyadic_mul. reflexivity. }
    assert (Hsucc : (dyadic (Zpos my) ey * dyadic (q + 1) e'
                     == dyadic (Zpos my) ey * dyadic q e' + dyadic (Zpos my) (ey + e'))%Q).
    { unfold dyadic. rewrite inject_Z_plus, pow2_add. change (inject_Z 1) with 1%Q. ring. }
    destruct (new_location_exact (Zpos my) r) as [Hex Hin].
    destruct (Z.eq_dec r 0) as [-> | Hr0].
    + rewrite Hex by done. cbn [located].
      rewrite dyadic_0 in Hsplit. rewrite Hx, Hsplit. field. lra.
    + destruct (Hin Hr0) as [c ->]. cbn [located].
      assert (H1 : (0 < dyadic r (ey + e'))%Q) by (apply dyadic_pos; lia).
      assert (H2 : (dyadic r (ey + e') < dyadic (Zpos my) (ey + e'))%Q)
        by (apply dyadic_lt; lia).
      split.
      * apply Qlt_shift_div_l; [exact Hpy |]. rewrite Hx, Hsplit. lra.
      * apply Qlt_shift_div_r; [exact Hpy |]. rewrite Hx, Hsplit.
        rewrite (Qmult_comm (dyadic (q + 1) e')), Hsucc. lra.
Qed.

Lemma SFdiv_between (x f1 f2 : spec_float) (sy : bool) (my : positive) (ey : Z) :
  valid x = true -> IEEE.is_finite x = true ->
  valid f1 = true -> IEEE.is_finite f1 = true -> valid f2 = true -> IEEE.is_finite f2 = true ->
  (SF2Q f1 <= SF2Q x / SF2Q (S754_finite sy my ey) <= SF2Q f2)%Q ->
  let r := SFdiv prec emax x (S754_finite sy my ey) in
  valid r = true /\ IEEE.is_finite r = true /\ (SF2Q f1 <= SF2Q r <= SF2Q f2)%Q.
Proof.
  intros Hvx Hfx Hv1 Hf1 Hv2 Hf2 Hb.
  pose proof (dyadic_pos (Zpos my) ey eq_refl) as Hpy.
  destruct x as [sx | sx | | sx mx ex]; try discriminate.
  - assert (H0 : (SF2Q (S754_zero sx) / SF2Q (S754_finite sy my ey) == 0)%Q).
    { change (SF2Q (S754_zero sx)) with 0%Q. unfold Qdiv. ring. }
    rewrite H0 in Hb. by cbn [SFdiv valid_binary IEEE.is_finite SF2Q].
  - cbn [SFdiv].
    pose proof (SFdiv_core_binary_spec mx my ex ey) as Hcore.
    destruct (SFdiv_core_binary prec emax (Zpos mx) ex (Zpos my) ey) as [[q e'] l].
    destruct Hcore as (Hq & Hal & Hloc).
    pose proof (dyadic_pos (Zpos mx) ex eq_refl) as Hpx.
    apply (round_aux_between (xorb sx sy) q e' l
             (dyadic (Zpos mx) ex / dyadic (Zpos my) ey));
      [done | done | done | | done | done | done | done |].
    + apply Qlt_shift_div_l; [exact Hpy | lra].
    + assert (Hs : (SF2Q (S754_finite sx mx ex) / SF2Q (S754_finite sy my ey)
                    == if xorb sx sy then - (dyadic (Zpos mx) ex / dyadic (Zpos my) ey)
                       else dyadic (Zpos mx) ex / dyadic (Zpos my) ey)%Q).
      { destruct sx, sy; cbn [xorb]; SF2Q_norm; field; lra. }
      rewrite <- Hs. exact Hb.
Qed.

(** *** Comparisons *)

Lemma bounded_compare (m1 m2 : positive) (e1 e2 : Z) :
  bounded prec emax m1 e1 = true -> bounded prec emax m2 e2 = true ->
  match Z.compare e1 e2 with
  | Lt => Lt
  | Gt => Gt
  | Eq => Pos.compare_cont Eq m1 m2
  end = (dyadic (Zpos m1) e1 ?= dyadic (Zpos m2) e2)%Q.
Proof.
  intros H1 H2.
  destruct (bounded_inv _ _ H1) as [Hc1 _]. destruct (bounded_inv _ _ H2) as [Hc2 _].
  symmetry. destruct (Z.compare_spec e1 e2) as [-> | Hlt | Hgt].
  - change (Pos.compare_cont Eq m1 m2) with (Pos.compare m1 m2).
    destruct (Pos.compare_spec m1 m2) as [-> | Hm | Hm].
    + by apply (proj1 (Qeq_alt _ _)).
    + apply (proj1 (Qlt_alt _ _)), dyadic_lt. lia.
    + apply (proj1 (Qgt_alt _ _)), dyadic_lt. lia.
  - apply (proj1 (Qlt_alt _ _)).
    destruct (Qlt_le_dec (dyadic (Zpos m1) e1) (dyadic (Zpos m2) e2)) as [H | H]; [exact H |].
    pose proof (canonical_exponent_le (Zpos m2) (Zpos m1) e2 e1 eq_refl eq_refl
                  Hc2 Hc1 H). lia.
  - apply (proj1 (Qgt_alt _ _)).
    destruct (Qlt_le_dec (dyadic (Zpos m2) e2) (dyadic (Zpos m1) e1)) as [H | H]; [exact H |].
    pose proof (canonical_exponent_le (Zpos m1) (Zpos m2) e1 e2 eq_refl eq_refl
                  Hc1 Hc2 H). lia.
Qed.

Lemma Qcompare_opp (a b : Q) : (- a ?= - b)%Q = CompOpp (a ?= b)%Q.
Proof.
  destruct (Qcompare_spec a b) as [H | H | H]; cbn [CompOpp].
  - apply (proj1 (Qeq_alt _ _)). lra.
  - apply (proj1 (Qgt_alt _ _)). lra.
  - apply (proj1 (Qlt_alt _ _)). lra.
Qed.

(** On canonical finite values the comparison of the format is the comparison
    of the values. *)
Lemma SFcompare_value (x y : spec_float) :
  valid x = true -> IEEE.is_finite x = true -> valid y = true -> IEEE.is_finite y = true ->
  SFcompare x y = Some (SF2Q x ?= SF2Q y)%Q.
Proof.
  intros Hvx Hfx Hvy Hfy.
  destruct x as [sx | sx | | sx mx ex], y as [sy | sy | | sy my ey]; try discriminate;
    cbn [SFcompare]; f_equal; symmetry.
  - pose proof (dyadic_pos (Zpos my) ey eq_refl).
    destruct sy; SF2Q_norm; [apply (proj1 (Qgt_alt _ _)) | apply (proj1 (Qlt_alt _ _))]; lra.
  - pose proof (dyadic_pos (Zpos mx) ex eq_refl).
    destruct sx; SF2Q_norm; [apply (proj1 (Qlt_alt _ _)) | apply (proj1 (Qgt_alt _ _))]; lra.
  - pose proof (dyadic_pos (Zpos mx) ex eq_refl).
    pose proof (dyadic_pos (Zpos my) ey eq_refl).
    destruct sx, sy.
    + rewrite !SF2Q_neg, Qcompare_opp, <- (bounded_compare mx my ex ey) by done.
      destruct (ex ?= ey); try done.
    + SF2Q_norm. apply (proj1 (Qlt_alt _ _)). lra.
    + SF2Q_norm. apply (proj1 (Qgt_alt _ _)). lra.
    + rewrite !SF2Q_pos. symmetry. by apply bounded_compare.
Qed.

Lemma SFleb_value (x y : spec_float) :
  valid x = true -> IEEE.is_finite x = true -> valid y = true -> IEEE.is_finite y = true ->
  SFleb x y = true <-> (SF2Q x <= SF2Q y)%Q.
Proof.
  intros Hvx Hfx Hvy Hfy. unfold SFleb. rewrite SFcompare_value by done.
  rewrite Qle_alt. by destruct (_ ?= _)%Q.
Qed.

Lemma SFltb_value (x y : spec_float) :
  valid x = true -> IEEE.is_finite x = true -> valid y = true -> IEEE.is_finite y = true ->
  SFltb x y = true <-> (SF2Q x < SF2Q y)%Q.
Proof.
  intros Hvx Hfx Hvy Hfy. unfold SFltb. rewrite SFcompare_value by done.
  rewrite Qlt_alt. by destruct (_ ?= _)%Q.
Qed.

End Format.

(** ** binary32 arithmetic between bounds *)

Lemma finite32_zero (s : bool) : finite32 (S754_zero s).
Proof. done. Qed.

Lemma finite32_one : finite32 IEEE.one.
Proof. done. Qed.

Lemma SF2Q_one : (SF2Q IEEE.one == 1)%Q.
Proof. reflexivity. Qed.

Lemma SF2Q_opp (x : spec_float) : (SF2Q (SFopp x) == - SF2Q x)%Q.
Proof.
  destruct x as [s | s | | s m e]; cbn [SFopp]; try (cbn [SF2Q]; lra).
  rewrite !SF2Q_finite, !dyadic_cond_Zopp. destruct s; cbn [negb]; lra.
Qed.

Lemma finite32_opp (x : spec_float) : finite32 x -> finite32 (SFopp x).
Proof. by destruct x. Qed.

Lemma fadd_between (x y f1 f2 : spec_float) :
  finite32 x -> finite32 y -> finite32 f1 -> finite32 f2 ->
  (SF2Q f1 <= SF2Q x + SF2Q y <= SF2Q f2)%Q ->
  finite32 (@fadd IEEE.model x y) /\
  (SF2Q f1 <= SF2Q (@fadd IEEE.model x y) <= SF2Q f2)%Q.
Proof.
  intros [Vx Fx] [Vy Fy] [V1 F1] [V2 F2] Hb.
  destruct (SFadd_between 24 128 eq_refl x y f1 f2 Vx Fx Vy Fy V1 F1 V2 F2 Hb)
    as (Hv & Hf & Hr).
  by split.
Qed.

Lemma fsub_between (x y f1 f2 : spec_float) :
  finite32 x -> finite32 y -> finite32 f1 -> finite32 f2 ->
  (SF2Q f1 <= SF2Q x - SF2Q y <= SF2Q f2)%Q ->
  finite32 (@fsub IEEE.model x y) /\
  (SF2Q f1 <= SF2Q (@fsub IEEE.model x y) <= SF2Q f2)%Q.
Proof.
  intros [Vx Fx] [Vy Fy] [V1 F1] [V2 F2] Hb.
  destruct (SFsub_between 24 128 eq_refl x y f1 f2 Vx Fx Vy Fy V1 F1 V2 F2 Hb)
    as (Hv & Hf & Hr).
  by split.
Qed.

Lemma fmul_between (x y f1 f2 : spec_float) :
  finite32 x -> finite32 y -> finite32 f1 -> finite32 f2 ->
  (SF2Q f1 <= SF2Q x * SF2Q y <= SF2Q f2)%Q ->
  finite32 (@fmul IEEE.model x y) /\
  (SF2Q f1 <= SF2Q (@fmul IEEE.model x y) <= SF2Q f2)%Q.
Proof.
  intros [Vx Fx] [Vy Fy] [V1 F1] [V2 F2] Hb.
  destruct (SFmul_between 24 128 eq_refl eq_refl x y f1 f2 Vx Fx Vy Fy V1 F1 V2 F2 Hb)
    as (Hv & Hf & Hr).
  by split.
Qed.

Lemma fdiv_between (x y f1 f2 : spec_float) :
  finite32 x -> finite32 y -> (0 < SF2Q y)%Q -> finite32 f1 -> finite32 f2 ->
  (SF2Q f1 <= SF2Q x / SF2Q y <= SF2Q f2)%Q ->
  finite32 (@fdiv IEEE.model x y) /\
  (SF2Q f1 <= SF2Q (@fdiv IEEE.model x y) <= SF2Q f2)%Q.
Proof.
  intros [Vx Fx] [Vy Fy] Hy [V1 F1] [V2 F2] Hb.
  destruct y as [sy | sy | | sy my ey]; try discriminate.
  destruct (SFdiv_between 24 128 eq_refl x f1 f2 sy my ey Vx Fx V1 F1 V2 F2 Hb)
    as (Hv & Hf & Hr).
  by split.
Qed.

Lemma i2f_between (z : Z) (f1 f2 : spec_float) :
  finite32 f1 -> finite32 f2 ->
  (SF2Q f1 <= inject_Z z <= SF2Q f2)%Q ->
  finite32 (@i2f IEEE.model z) /\
  (SF2Q f1 <= SF2Q (@i2f IEEE.model z) <= SF2Q f2)%Q.
Proof.
  intros [V1 F1] [V2 F2] Hb.
  assert (Hz : (dyadic z 0 == inject_Z z)%Q).
  { unfold dyadic. change (pow2 0) with 1%Q. ring. }
  rewrite <- Hz in Hb.
  destruct (binary_normalize_between 24 128 eq_refl z 0 f1 f2 V1 F1 V2 F2 Hb)
    as (Hv & Hf & Hr).
  by split.
Qed.

Lemma fleb_value (x y : spec_float) :
  finite32 x -> finite32 y -> SFleb x y = true <-> (SF2Q x <= SF2Q y)%Q.
Proof. intros [Vx Fx] [Vy Fy]. by apply (SFleb_value 24 128). Qed.

Lemma fltb_value (x y : spec_float) :
  finite32 x -> finite32 y -> SFltb x y = true <-> (SF2Q x < SF2Q y)%Q.
Proof. intros [Vx Fx] [Vy Fy]. by apply (SFltb_value 24 128). Qed.

(** ** The accumulator in binary32 *)

Ltac SF2Q_simpl :=
  change (SF2Q IEEE.zero) with 0%Q in *;
  change (SF2Q (S754_zero false)) with 0%Q in *;
  rewrite ?SF2Q_one, ?SF2Q_opp in *.

(** A sample period that fits [int64_t] converts to a finite [float] that is
    at least 1. *)
Lemma sample_period_float (sampleperiod : Z) :
  0 < sampleperiod <= INT64_MAX ->
  finite32 (@i2f IEEE.model sampleperiod) /\ (1 <= SF2Q (@i2f IEEE.model sampleperiod))%Q.
Proof.
  intros [Hlo Hhi].
  assert (H63 : (SF2Q (S754_finite false 8388608 40) == inject_Z (2 ^ 63))%Q) by reflexivity.
  destruct (i2f_between sampleperiod IEEE.one (S754_finite false 8388608 40))
    as (Hf & Hl & _); try done.
  - rewrite SF2Q_one, H63. change 1%Q with (inject_Z 1). rewrite <- !Zle_Qle.
    unfold INT64_MAX in Hhi. lia.
  - split; [exact Hf |]. by rewrite <- SF2Q_one.
Qed.

(** A symbol period not below the sample period is [+inf] or a finite value
    not below it. *)
Lemma period_cases (spf period : spec_float) :
  finite32 spf -> IEEE.valid32 period -> SFleb spf period = true ->
  period = S754_infinity false \/ (finite32 period /\ (SF2Q spf <= SF2Q period)%Q).
Proof.
  intros Hs Hv Hle.
  destruct period as [s | s | | s m e].
  - right. split; [done |]. by apply fleb_value.
  - left. destruct s; [| done]. destruct Hs as [_ Hf]. by destruct spf.
  - destruct Hs as [_ Hf]. by destruct spf.
  - right. split; [done |]. by apply fleb_value.
Qed.

(** An iteration that takes the accumulator below zero entered with a finite
    accumulator below the sample period, and leaves the decremented value
    not below minus the sample period. *)
Lemma crosses_finite (sampleperiod : Z) (phase : spec_float) :
  0 < sampleperiod <= INT64_MAX ->
  phase_ok phase ->
  @crosses IEEE.model sampleperiod phase = true ->
  finite32 phase /\
  (0 <= SF2Q phase < SF2Q (@i2f IEEE.model sampleperiod))%Q /\
  finite32 (@fsub IEEE.model phase (i2f sampleperiod)) /\
  (- SF2Q (@i2f IEEE.model sampleperiod)
   <= SF2Q (@fsub IEEE.model phase (i2f sampleperiod)) < 0)%Q.
Proof.
  intros Hsp Hok Hc. destruct (sample_period_float sampleperiod Hsp) as [Hf H1].
  change (SFltb (@fsub IEEE.model phase (@i2f IEEE.model sampleperiod)) IEEE.zero = true) in Hc.
  set (spf := @i2f IEEE.model sampleperiod) in *. clearbody spf.
  destruct Hok as [-> | [Hp H0]].
  - exfalso. destruct Hf as [_ Hf]. destruct spf; try discriminate; cbn in Hc; discriminate.
  - destruct (fsub_between phase spf (SFopp spf) phase Hp Hf (finite32_opp _ Hf) Hp)
      as [Hd Hr]; SF2Q_simpl; [lra |].
    apply (fltb_value _ _ Hd (finite32_zero false)) in Hc. SF2Q_simpl.
    split; [exact Hp |]. split; [| split; [exact Hd | lra]].
    split; [exact H0 |].
    destruct (Qlt_le_dec (SF2Q phase) (SF2Q spf)) as [Hlt | Hge]; [exact Hlt | exfalso].
    destruct (fsub_between phase spf IEEE.zero phase Hp Hf (finite32_zero false) Hp)
      as [_ Hr']; SF2Q_simpl; lra.
Qed.

(** The accumulator never goes below zero. *)
Lemma next_phase_ok (period : spec_float) (sampleperiod : Z) (phase : spec_float) :
  0 < sampleperiod <= INT64_MAX ->
  IEEE.valid32 period -> SFleb (@i2f IEEE.model sampleperiod) period = true ->
  phase_ok phase ->
  phase_ok (@next_phase IEEE.model period sampleperiod phase).
Proof.
  intros Hsp Hv Hle Hok. destruct (sample_period_float sampleperiod Hsp) as [Hf H1].
  change (phase_ok
            (if @crosses IEEE.model sampleperiod phase
             then @fadd IEEE.model (@fsub IEEE.model phase (@i2f IEEE.model sampleperiod)) period
             else @fsub IEEE.model phase (@i2f IEEE.model sampleperiod))).
  destruct (@crosses IEEE.model sampleperiod phase) eqn:Hc.
  - destruct (crosses_finite sampleperiod phase Hsp Hok Hc) as (_ & _ & Hd & Hr).
    set (dec := @fsub IEEE.model phase (@i2f IEEE.model sampleperiod)) in *. clearbody dec.
    destruct (period_cases _ _ Hf Hv Hle) as [-> | [Hpf Hpl]].
    + left. destruct Hd as [_ Hd]. by destruct dec.
    + right.
      destruct (fadd_between dec period IEEE.zero period Hd Hpf (finite32_zero false) Hpf)
        as [Hs Hb]; SF2Q_simpl; [lra |].
      split; [exact Hs | lra].
  - change (SFltb (@fsub IEEE.model phase (@i2f IEEE.model sampleperiod)) IEEE.zero = false)
      in Hc.
    set (spf := @i2f IEEE.model sampleperiod) in *. clearbody spf.
    destruct Hok as [-> | [Hp H0]].
    + left. destruct Hf as [_ Hf]. by destruct spf.
    + right.
      destruct (fsub_between phase spf (SFopp spf) phase Hp Hf (finite32_opp _ Hf) Hp)
        as [Hd Hr]; SF2Q_simpl; [lra |].
      split; [exact Hd |].
      destruct (Qlt_le_dec (SF2Q (@fsub IEEE.model phase spf)) 0) as [Hlt | Hge]; [| exact Hge].
      change 0%Q with (SF2Q IEEE.zero) in Hlt.
      apply (fltb_value _ _ Hd (finite32_zero false)) in Hlt.
      destruct (eq_true_false_abs _ Hlt Hc).
Qed.

Lemma phase_after_ok (period : spec_float) (sampleperiod : Z) (i : nat) :
  0 < sampleperiod <= INT64_MAX ->
  IEEE.valid32 period -> SFleb (@i2f IEEE.model sampleperiod) period = true ->
  phase_ok (@phase_after IEEE.model period sampleperiod i).
Proof.
  intros Hsp Hv Hle. induction i as [|i IH].
  - destruct (sample_period_float sampleperiod Hsp) as [Hf H1].
    destruct (period_cases _ _ Hf Hv Hle) as [Hinf | [Hpf Hpl]]; [by left | right].
    split; [exact Hpf |]. change (0 <= SF2Q period)%Q. lra.
  - change (@phase_after IEEE.model period sampleperiod (Datatypes.S i))
      with (@next_phase IEEE.model period sampleperiod
              (@phase_after IEEE.model period sampleperiod i)).
    by apply next_phase_ok.
Qed.

(** The interpolation fraction of an iteration that takes the accumulator
    below zero. *)
Lemma fraction_range (sampleperiod : Z) (phase : spec_float) :
  0 < sampleperiod <= INT64_MAX ->
  phase_ok phase ->
  @crosses IEEE.model sampleperiod phase = true ->
  let frac := @fsub IEEE.model (i2f 1) (@fdiv IEEE.model phase (i2f sampleperiod)) in
  finite32 frac /\ (0 <= SF2Q frac <= 1)%Q.
Proof.
  intros Hsp Hok Hc frac. subst frac.
  destruct (sample_period_float sampleperiod Hsp) as [Hf H1].
  destruct (crosses_finite sampleperiod phase Hsp Hok Hc) as (Hp & [H0 Hlt] & _).
  set (spf := @i2f IEEE.model sampleperiod) in *. clearbody spf.
  change (@i2f IEEE.model 1) with IEEE.one.
  destruct (fdiv_between phase spf IEEE.zero IEEE.one Hp Hf ltac:(lra)
              (finite32_zero false) finite32_one) as [Hq Hqr].
  { SF2Q_simpl. split.
    - apply Qle_shift_div_l; lra.
    - apply Qle_shift_div_r; lra. }
  SF2Q_simpl.
  destruct (fsub_between IEEE.one _ IEEE.zero IEEE.one finite32_one Hq
              (finite32_zero false) finite32_one) as [Hfr Hr].
  { SF2Q_simpl. lra. }
  SF2Q_simpl. by split.
Qed.

(** ** The two levels and the interpolated sample in binary32 *)

Lemma bounded32_inv (m : positive) (e : Z) :
  bounded 24 128 m e = true ->
  Z.max (Zpos (digits2_pos m) + e - 24) (-149) = e /\ e <= 104.
Proof. exact (bounded_inv 24 128 m e). Qed.

Lemma bounded32_intro (m : positive) (e : Z) :
  Z.max (Zpos (digits2_pos m) + e - 24) (-149) = e -> e <= 104 ->
  bounded 24 128 m e = true.
Proof.
  intros Hc He. unfold bounded, canonical_mantissa. apply andb_true_intro. split.
  - apply Z.eqb_eq. exact Hc.
  - apply Z.leb_le. exact He.
Qed.

Lemma SF2Q_max32 : (SF2Q max32 == 2 * SF2Q half_max32)%Q.
Proof. reflexivity. Qed.

(** No finite binary32 value exceeds [max32]. *)
Lemma finite32_le_max (x : spec_float) : finite32 x -> (SF2Q x <= SF2Q max32)%Q.
Proof.
  intros [Hv Hf]. pose proof (dyadic_pos 16777215 104 eq_refl) as Hmax.
  change (SF2Q max32) with (dyadic 16777215 104).
  destruct x as [s | s | | s m e]; try discriminate.
  destruct (bounded32_inv m e Hv) as [Hc He].
  pose proof (digits2_pos_bounds m) as [_ Hhi].
  assert (Hm : Zpos m <= 16777215).
  { assert (2 ^ Zpos (digits2_pos m) <= 2 ^ 24) by (apply Z.pow_le_mono_r; lia). lia. }
  pose proof (dyadic_pos (Zpos m) e eq_refl) as Hp.
  destruct s; SF2Q_norm; [lra |].
  assert (H1 : (dyadic (Zpos m) e <= dyadic (16777215 * 2 ^ (104 - e)) e)%Q).
  { apply dyadic_le. assert (0 < 2 ^ (104 - e)) by (apply Z.pow_pos_nonneg; lia). nia. }
  rewrite dyadic_shift in H1 by lia. replace (e + (104 - e)) with 104 in H1 by lia. exact H1.
Qed.

(** [scale = amplitude / 2]: for a finite amplitude that is not negative, a
    finite value between 0 and half the largest float. *)
Lemma scale_float (amplitude : spec_float) :
  finite32 amplitude -> (0 <= SF2Q amplitude)%Q ->
  let scale := @fdiv IEEE.model amplitude (i2f 2) in
  finite32 scale /\ (0 <= SF2Q scale <= SF2Q half_max32)%Q.
Proof.
  intros Hf H0 scale. subst scale. change (@i2f IEEE.model 2) with IEEE.two.
  assert (H2 : (SF2Q IEEE.two == 2)%Q) by reflexivity.
  pose proof (finite32_le_max amplitude Hf) as Hmax. rewrite SF2Q_max32 in Hmax.
  assert (Hh : finite32 half_max32) by done.
  destruct (fdiv_between amplitude IEEE.two IEEE.zero half_max32 Hf ltac:(done)
              ltac:(reflexivity) (finite32_zero false) Hh) as [Hs Hr]; SF2Q_simpl.
  - rewrite H2. split.
    + apply Qle_shift_div_l; lra.
    + apply Qle_shift_div_r; lra.
  - by split.
Qed.

Lemma dyadic_double (m e : Z) : (dyadic m (e + 1) == 2 * dyadic m e)%Q.
Proof. unfold dyadic. rewrite pow2_add. change (pow2 1) with 2%Q. ring. Qed.

(** Twice a binary32 value of magnitude at most [half_max32] is a binary32
    value. *)
Lemma double_float (x : spec_float) :
  finite32 x -> (- SF2Q half_max32 <= SF2Q x <= SF2Q half_max32)%Q ->
  exists f, finite32 f /\ (SF2Q f == 2 * SF2Q x)%Q.
Proof.
  intros [Hv Hf] Hb.
  destruct x as [s | s | | s m e]; try discriminate.
  - exists (S754_zero s). split; [done |]. cbn [SF2Q]. ring.
  - destruct (bounded32_inv m e Hv) as [Hc He].
    pose proof (digits2_pos_bounds m) as [Hlo Hhi].
    destruct (Z.eq_dec (Zpos (digits2_pos m)) 24) as [Hd | Hd].
    + exists (S754_finite s m (e + 1)). split; [split; [| done] |].
      * apply bounded32_intro; [lia |].
        destruct (Z.eq_dec e 104) as [-> |]; [exfalso | lia].
        rewrite Hd in Hlo. change (2 ^ (24 - 1)) with 8388608 in Hlo.
        change (SF2Q half_max32) with (dyadic 16777215 103) in Hb.
        assert (H1 : (dyadic (8388608 * 2 ^ 1) 103 <= dyadic (Zpos m) 104)%Q).
        { rewrite dyadic_shift by lia. apply dyadic_le. exact Hlo. }
        assert (H2 : (dyadic 16777215 103 < dyadic (8388608 * 2 ^ 1) 103)%Q)
          by (apply dyadic_lt; reflexivity).
        destruct s; SF2Q_norm; lra.
      * rewrite !SF2Q_finite. apply dyadic_double.
    + exists (S754_finite s (m~0) e). split; [split; [| done] |].
      * apply bounded32_intro; [| lia]. cbn [digits2_pos]. lia.
      * rewrite !SF2Q_finite. unfold dyadic.
        replace (cond_Zopp s (Zpos m~0)) with (2 * cond_Zopp s (Zpos m))
          by (destruct s; cbn [cond_Zopp]; lia).
        rewrite inject_Z_mult. change (inject_Z 2) with 2%Q. ring.
Qed.

(** A stored sample lies between the two levels; outside an edge it is one of
    them. *)
Lemma emitted_range (scale : spec_float) (sampleperiod : Z) (last value : bool)
  (phase : spec_float) :
  finite32 scale -> (0 <= SF2Q scale <= SF2Q half_max32)%Q ->
  (last <> value ->
   let frac := @fsub IEEE.model (i2f 1) (@fdiv IEEE.model phase (i2f sampleperiod)) in
   finite32 frac /\ (0 <= SF2Q frac <= 1)%Q) ->
  let x := @emitted IEEE.model scale sampleperiod last phase value in
  finite32 x /\ (- SF2Q scale <= SF2Q x <= SF2Q scale)%Q /\
  (last = value -> x = @level IEEE.model scale value).
Proof.
  intros Hs Hr Hfrac x. subst x. unfold emitted.
  pose proof (finite32_opp _ Hs) as Hn.
  destruct (Bool.eqb last value) eqn:E.
  - split; [| split; [| done]]; destruct value; cbn [level fneg IEEE.model];
      rewrite ?SF2Q_opp; try done; lra.
  - apply eqb_false_iff in E. specialize (Hfrac E). cbv zeta in Hfrac.
    set (frac := @fsub IEEE.model (i2f 1) (@fdiv IEEE.model phase (i2f sampleperiod))) in *.
    clearbody frac. destruct Hfrac as [Hff Hfr].
    destruct (double_float scale Hs ltac:(lra)) as (f & Hf & Hf2).
    pose proof (finite32_opp _ Hf) as Hfn.
    split; [| split; [| done]]; destruct last, value; try done;
      cbn [level fneg IEEE.model].
    + destruct (fsub_between (SFopp scale) scale (SFopp f) (SFopp f) Hn Hs Hfn Hfn)
        as [Hd Hdr]; [SF2Q_simpl; lra |].
      destruct (fmul_between _ frac _ IEEE.zero Hd Hff Hd (finite32_zero false))
        as [Hy Hyr]; [SF2Q_simpl; nra |].
      destruct (fadd_between scale _ (SFopp scale) scale Hs Hy Hn Hs) as [Hx _];
        [SF2Q_simpl; lra | exact Hx].
    + destruct (fsub_between scale (SFopp scale) f f Hs Hn Hf Hf)
        as [Hd Hdr]; [SF2Q_simpl; lra |].
      destruct (fmul_between _ frac IEEE.zero _ Hd Hff (finite32_zero false) Hd)
        as [Hy Hyr]; [SF2Q_simpl; nra |].
      destruct (fadd_between (SFopp scale) _ (SFopp scale) scale Hn Hy Hn Hs) as [Hx _];
        [SF2Q_simpl; lra | exact Hx].
    + destruct (fsub_between (SFopp scale) scale (SFopp f) (SFopp f) Hn Hs Hfn Hfn)
        as [Hd Hdr]; [SF2Q_simpl; lra |].
      destruct (fmul_between _ frac _ IEEE.zero Hd Hff Hd (finite32_zero false))
        as [Hy Hyr]; [SF2Q_simpl; nra |].
      destruct (fadd_between scale _ (SFopp scale) scale Hs Hy Hn Hs) as [_ Hx];
        [SF2Q_simpl; lra | SF2Q_simpl; lra].
    + destruct (fsub_between scale (SFopp scale) f f Hs Hn Hf Hf)
        as [Hd Hdr]; [SF2Q_simpl; lra |].
      destruct (fmul_between _ frac IEEE.zero _ Hd Hff (finite32_zero false) Hd)
        as [Hy Hyr]; [SF2Q_simpl; nra |].
      destruct (fadd_between (SFopp scale) _ (SFopp scale) scale Hn Hy Hn Hs) as [_ Hx];
        [SF2Q_simpl; lra | SF2Q_simpl; lra].
Qed.

(** With a standard deviation of zero the noise-only branch returns binary32
    samples with the values it was given. *)
Lemma zero_noise_samples (Env : @Environment IEEE.model)
  (src : @TestWaveformSource IEEE.model) (cap : @UniformAnalogWaveform IEEE.model)
  (sampleperiod : Z) (depth : nat) (lpf : bool) (s : bool) :
  (forall (nd : @nd_cache IEEE.model Env) (rng : Z),
     IEEE.is_finite (fst (fst (@std_normal IEEE.model Env nd rng))) = true) ->
  @APPLE_SILICON IEEE.model Env = true \/ lpf = false ->
  length (m_samples cap) = depth ->
  (forall i x0, m_samples cap !! i = Some x0 -> IEEE.valid32 x0) ->
  exists src' cap',
    @DegradeSerialData IEEE.model Env src cap sampleperiod depth lpf (S754_zero s)
    = Some (src', cap') /\
    length (m_samples cap') = depth /\
    forall i x, m_samples cap' !! i = Some x ->
      exists x0, m_samples cap !! i = Some x0 /\ IEEE.same_value x x0.
Proof.
  intros Hfin Hpath Hlen Hvalid.
  destruct (@DegradeSerialData_noise_only IEEE.model Env src cap sampleperiod depth lpf
              (S754_zero s) Hpath) as (src' & samples' & Hrun & _ & Hl & Hlo & _).
  { rewrite Hlen. apply le_n. }
  exists src', (set_samples cap samples'). split; [exact Hrun |].
  cbn [m_samples set_samples]. split; [exact (eq_trans Hl Hlen) |].
  intros i x Hx.
  assert (Hi : (i < length (m_samples cap))%nat).
  { rewrite <- Hl. exact (lookup_lt_Some _ _ _ Hx). }
  destruct (lookup_lt_is_Some_2 _ _ Hi) as [x0 Hx0].
  exists x0. split; [exact Hx0 |].
  rewrite Hlen in Hi.
  pose proof (eq_trans (eq_sym Hx) (Hlo i x0 Hi Hx0)) as Heq.
  injection Heq as ->.
  unfold noise_draw. set (st := noise_after _ i _). unfold normal_distribution.
  pose proof (Hfin (fst st) (snd st)) as Hz.
  destruct (std_normal (fst st) (snd st)) as [[z nd] rng]. cbn [fst] in Hz |- *.
  apply zero_stddev_sample; [| exact Hz]. exact (Hvalid i x0 Hx0).
Qed.

(** IEEE comparisons do not tell the two zeros apart. *)
Lemma same_value_leb (x x0 a b : spec_float) :
  IEEE.same_value x x0 -> SFleb a x0 = true -> SFleb x0 b = true ->
  SFleb a x = true /\ SFleb x b = true.
Proof.
  intros [-> | (s & t & -> & ->)] Ha Hb; [done |].
  split; [by destruct a | by destruct b].
Qed.

(** The sample stored by an iteration of either loop. *)
Lemma synthesized_sample (amplitude period : spec_float) (sampleperiod : Z)
  (last value : bool) (i : nat) :
  finite32 amplitude -> SFleb IEEE.zero amplitude = true ->
  0 < sampleperiod <= INT64_MAX ->
  IEEE.valid32 period -> SFleb (@i2f IEEE.model sampleperiod) period = true ->
  let scale := @fdiv IEEE.model amplitude (i2f 2) in
  let phase := @phase_after IEEE.model period sampleperiod i in
  (last <> value -> @crosses IEEE.model sampleperiod phase = true) ->
  let x := @emitted IEEE.model scale sampleperiod last phase value in
  finite32 x /\ SFleb (SFopp scale) x = true /\ SFleb x scale = true /\
  (last = value -> x = @level IEEE.model scale value).
Proof.
  intros Hamp H0 Hsp Hv Hle scale phase Hc x.
  apply (fleb_value _ _ (finite32_zero false) Hamp) in H0. SF2Q_simpl.
  destruct (scale_float amplitude Hamp H0) as [Hs Hr]. fold scale in Hs, Hr.
  destruct (emitted_range scale sampleperiod last value phase Hs Hr) as (Hf & Hx & Hl).
  { intros Hne. apply fraction_range; [exact Hsp | | by apply Hc].
    by apply phase_after_ok. }
  fold x in Hf, Hx, Hl.
  split; [exact Hf |]. split; [| split; [| exact Hl]].
  - apply fleb_value; [by apply finite32_opp | exact Hf |]. rewrite SF2Q_opp. lra.
  - apply fleb_value; [exact Hf | exact Hs |]. lra.
Qed.

(** C10 (amended).  In binary32, for every bit-pattern generation call with a
    finite amplitude >= 0, sample period > 0, symbol period >= sample period,
    noise standard deviation 0 and the loss model disabled, every output
    sample lies in [-amplitude/2, +amplitude/2]; a sample at which the logic
    level does not change has the value of one of the two bounds, and the
    interpolation fraction of every iteration that takes the accumulator below
    zero lies in [0, 1]. *)
Theorem samples_in_range :
  forall (Env : @Environment IEEE.model) (src : @TestWaveformSource IEEE.model)
         (rand_result : Z) (amplitude period : spec_float) (sampleperiod : Z) (depth : nat)
         (lpf : bool) (s : bool),
    finite32 amplitude -> SFleb IEEE.zero amplitude = true ->
    0 < sampleperiod <= INT64_MAX ->
    IEEE.valid32 period -> SFleb (@i2f IEEE.model sampleperiod) period = true ->
    (forall (nd : @nd_cache IEEE.model Env) (rng : Z),
       IEEE.is_finite (fst (fst (@std_normal IEEE.model Env nd rng))) = true) ->
    @APPLE_SILICON IEEE.model Env = true \/ lpf = false ->
    let scale := @fdiv IEEE.model amplitude (i2f 2) in
    let prbs_it := @PRBS31_iteration IEEE.model scale period sampleperiod in
    let prbs_vars := fun i => vars_after prbs_it i
                               (@PRBS31_entry IEEE.model rand_result period) in
    let fixed_it := @b8b10b_iteration IEEE.model scale period sampleperiod in
    let fixed_vars := fun i => vars_after fixed_it i (@b8b10b_entry IEEE.model period) in
    (exists src' cap',
       @GeneratePRBS31 IEEE.model Env src rand_result amplitude period sampleperiod depth
         lpf (S754_zero s) = Some (src', cap') /\
       length (m_samples cap') = depth /\
       forall i x, m_samples cap' !! i = Some x ->
         (SFleb (SFopp scale) x = true /\ SFleb x scale = true) /\
         (v_value (prbs_vars i) = v_value (prbs_vars (Datatypes.S i)) ->
          IEEE.same_value x scale \/ IEEE.same_value x (SFopp scale))) /\
    (exists src' cap',
       @Generate8b10b IEEE.model Env src amplitude period sampleperiod depth
         lpf (S754_zero s) = Some (src', cap') /\
       length (m_samples cap') = depth /\
       forall i x, m_samples cap' !! i = Some x ->
         (SFleb (SFopp scale) x = true /\ SFleb x scale = true) /\
         (w_value (fixed_vars i) = w_value (fixed_vars (Datatypes.S i)) ->
          IEEE.same_value x scale \/ IEEE.same_value x (SFopp scale))) /\
    (forall i : nat,
       let phase := @phase_after IEEE.model period sampleperiod i in
       @crosses IEEE.model sampleperiod phase = true ->
       let frac := @fsub IEEE.model (i2f 1) (@fdiv IEEE.model phase (i2f sampleperiod)) in
       SFleb IEEE.zero frac = true /\ SFleb frac IEEE.one = true).
Proof.
  intros Env src rand_result amplitude period sampleperiod depth lpf s
    Hamp H0 Hsp Hv Hle Hfin Hpath scale prbs_it prbs_vars fixed_it fixed_vars.
  assert (Hprbs : forall i,
            let x0 := snd (prbs_it (prbs_vars i)) in
            finite32 x0 /\ SFleb (SFopp scale) x0 = true /\ SFleb x0 scale = true /\
            (v_value (prbs_vars i) = v_value (prbs_vars (Datatypes.S i)) ->
             x0 = @level IEEE.model scale (v_value (prbs_vars (Datatypes.S i))))).
  { intros i x0. subst x0.
    destruct (@PRBS31_iteration_spec IEEE.model scale period sampleperiod (prbs_vars i))
      as (_ & _ & Hval & He).
    destruct (@PRBS31_vars_after IEEE.model scale period sampleperiod rand_result i)
      as (Hph & _ & _).
    cbv zeta in Hval, He, Hph. fold prbs_it in Hval, He, Hph |- *.
    change (vars_after prbs_it i (@PRBS31_entry IEEE.model rand_result period))
      with (prbs_vars i) in Hph.
    change (fst (prbs_it (prbs_vars i))) with (prbs_vars (Datatypes.S i)) in Hval, He.
    rewrite He, Hph.
    apply (synthesized_sample amplitude period sampleperiod); try done.
    intros Hne. rewrite <- Hph. destruct (crosses _ _); [done |]. by rewrite Hval in Hne. }
  assert (Hfixed : forall i,
            let x0 := snd (fixed_it (fixed_vars i)) in
            finite32 x0 /\ SFleb (SFopp scale) x0 = true /\ SFleb x0 scale = true /\
            (w_value (fixed_vars i) = w_value (fixed_vars (Datatypes.S i)) ->
             x0 = @level IEEE.model scale (w_value (fixed_vars (Datatypes.S i))))).
  { intros i x0. subst x0.
    destruct (@b8b10b_iteration_spec IEEE.model scale period sampleperiod (fixed_vars i))
      as (_ & _ & Hval & He).
    destruct (@b8b10b_vars_after IEEE.model scale period sampleperiod i) as (Hph & _ & _).
    cbv zeta in Hval, He, Hph. fold fixed_it in Hval, He, Hph |- *.
    change (vars_after fixed_it i (@b8b10b_entry IEEE.model period))
      with (fixed_vars i) in Hph.
    change (fst (fixed_it (fixed_vars i))) with (fixed_vars (Datatypes.S i)) in Hval, He.
    rewrite He, Hph.
    apply (synthesized_sample amplitude period sampleperiod); try done.
    intros Hne. rewrite <- Hph. destruct (crosses _ _); [done |]. by rewrite Hval in Hne. }
  split; [| split].
  - unfold GeneratePRBS31. cbv zeta.
    destruct (@PRBS31_waveform_spec IEEE.model rand_result amplitude period sampleperiod
                depth) as (_ & Hl & Hs).
    cbv zeta in Hs. fold scale in Hs. fold prbs_it in Hs.
    destruct (zero_noise_samples Env src _ sampleperiod depth lpf s Hfin Hpath Hl)
      as (src' & cap' & Hrun & Hlen & Hout).
    { intros i x0 Hx0.
      assert (Hi : (i < depth)%nat) by (rewrite <- Hl; exact (lookup_lt_Some _ _ _ Hx0)).
      pose proof (eq_trans (eq_sym Hx0) (Hs i Hi)) as E. injection E as ->.
      by destruct (Hprbs i) as [[? _] _]. }
    exists src', cap'. split; [exact Hrun |]. split; [exact Hlen |].
    intros i x Hx. destruct (Hout i x Hx) as (x0 & Hx0 & Heq).
    assert (Hi : (i < depth)%nat) by (rewrite <- Hl; exact (lookup_lt_Some _ _ _ Hx0)).
    pose proof (eq_trans (eq_sym Hx0) (Hs i Hi)) as E. injection E as ->.
    destruct (Hprbs i) as (_ & Hlo & Hhi & Hlev). cbv zeta in Hlo, Hhi, Hlev.
    split; [exact (same_value_leb _ _ _ _ Heq Hlo Hhi) |].
    intros Hsame.
    assert (Heq' : IEEE.same_value x
                     (@level IEEE.model scale (v_value (prbs_vars (Datatypes.S i)))))
      by (rewrite <- (Hlev Hsame); exact Heq).
    destruct (v_value (prbs_vars (Datatypes.S i))); [by left | by right].
  - unfold Generate8b10b. cbv zeta.
    destruct (@b8b10b_waveform_spec IEEE.model amplitude period sampleperiod
                depth) as (_ & Hl & Hs).
    cbv zeta in Hs. fold scale in Hs. fold fixed_it in Hs.
    destruct (zero_noise_samples Env src _ sampleperiod depth lpf s Hfin Hpath Hl)
      as (src' & cap' & Hrun & Hlen & Hout).
    { intros i x0 Hx0.
      assert (Hi : (i < depth)%nat) by (rewrite <- Hl; exact (lookup_lt_Some _ _ _ Hx0)).
      pose proof (eq_trans (eq_sym Hx0) (Hs i Hi)) as E. injection E as ->.
      by destruct (Hfixed i) as [[? _] _]. }
    exists src', cap'. split; [exact Hrun |]. split; [exact Hlen |].
    intros i x Hx. destruct (Hout i x Hx) as (x0 & Hx0 & Heq).
    assert (Hi : (i < depth)%nat) by (rewrite <- Hl; exact (lookup_lt_Some _ _ _ Hx0)).
    pose proof (eq_trans (eq_sym Hx0) (Hs i Hi)) as E. injection E as ->.
    destruct (Hfixed i) as (_ & Hlo & Hhi & Hlev). cbv zeta in Hlo, Hhi, Hlev.
    split; [exact (same_value_leb _ _ _ _ Heq Hlo Hhi) |].
    intros Hsame.
    assert (Heq' : IEEE.same_value x
                     (@level IEEE.model scale (w_value (fixed_vars (Datatypes.S i)))))
      by (rewrite <- (Hlev Hsame); exact Heq).
    destruct (w_value (fixed_vars (Datatypes.S i))); [by left | by right].
  - intros i phase Hc frac.
    destruct (fraction_range sampleperiod phase Hsp) as [Hf Hr]; [| exact Hc |].
    { by apply phase_after_ok. }
    fold frac in Hf, Hr. split.
    + apply fleb_value; [done | exact Hf |]. SF2Q_simpl. lra.
    + apply fleb_value; [exact Hf | done |]. SF2Q_simpl. lra.
Qed.

Lemma samples_in_range_witness :
  let scale := @fdiv IEEE.model IEEE.two (i2f 2) in
  exists src' cap',
    @GeneratePRBS31 IEEE.model reference_IEEE (TestWaveformSource_new 1) (2 ^ 30)
      IEEE.two IEEE.four 1 6 false (S754_zero false) = Some (src', cap') /\
    length (m_samples cap') = 6%nat /\
    forall i x, m_samples cap' !! i = Some x ->
      (SFleb (SFopp scale) x = true /\ SFleb x scale = true) /\
      (v_value (vars_after (@PRBS31_iteration IEEE.model scale IEEE.four 1) i
                  (@PRBS31_entry IEEE.model (2 ^ 30) IEEE.four))
       = v_value (vars_after (@PRBS31_iteration IEEE.model scale IEEE.four 1)
                    (Datatypes.S i) (@PRBS31_entry IEEE.model (2 ^ 30) IEEE.four)) ->
       IEEE.same_value x scale \/ IEEE.same_value x (SFopp scale)).
Proof.
  refine (proj1 (samples_in_range reference_IEEE (TestWaveformSource_new 1) (2 ^ 30)
            IEEE.two IEEE.four 1 6%nat false false _ _ _ _ _ _ _)).
  - split; reflexivity.
  - reflexivity.
  - unfold INT64_MAX. lia.
  - reflexivity.
  - reflexivity.
  - exact reference_draw_finite.
  - right. reflexivity.
Defined.

(** C10 as stated fails for a negative amplitude (with amplitude -2.0 the low
    level is +1.0, above amplitude/2 = -1.0) and for an infinite one (the
    interpolated sample is a NaN). *)
Lemma amplitude_out_of_range :
  (fmap (M := option) m_samples
     (snd <$> GeneratePRBS31 (Env := reference_IEEE) (TestWaveformSource_new 1) 0
                (SFopp IEEE.two) IEEE.four 1 2 false IEEE.zero)
   = Some [IEEE.one; IEEE.one] /\
   @fdiv IEEE.model (SFopp IEEE.two) (@i2f IEEE.model 2) = SFopp IEEE.one /\
   SFleb IEEE.one (SFopp IEEE.one) = false) /\
  (fmap (M := option) m_samples
     (snd <$> GeneratePRBS31 (Env := reference_IEEE) (TestWaveformSource_new 1) (2 ^ 30)
                (S754_infinity false) IEEE.three 2 2 false IEEE.zero)
   = Some [S754_infinity true; S754_nan] /\
   @fdiv IEEE.model (S754_infinity false) (@i2f IEEE.model 2) = S754_infinity false /\
   SFleb S754_nan (S754_infinity false) = false).
Proof. repeat split; vm_compute; reflexivity. Qed.

(** * Further properties of the generators *)

(** ** More on the shift register *)

Lemma lfsr31_iter_0 (n : N) : N.iter n lfsr31 0 = 0.
Proof.
  induction n as [|n IH] using N.peano_ind; [done |].
  by rewrite N.iter_succ, IH, lfsr31_0.
Qed.

(** The all-zero state delivers zeros only. *)
Lemma PRBS31_bit_zero_state (seed : Z) (n : N) :
  low31 seed = 0 -> PRBS31_bit seed n = false.
Proof.
  intros Hs. by rewrite PRBS31_bit_lfsr31, Hs, lfsr31_iter_0.
Qed.

(** A shift is invertible on the 31-bit states: only zero is shifted to
    zero. *)
Lemma lfsr31_iter_nonzero (s : Z) (n : N) :
  0 <= s < 2 ^ 31 -> N.iter n lfsr31 s = 0 -> s = 0.
Proof.
  intros Hs Hz.
  pose proof (iter_multiple lfsr31 s PRBS31_period n (lfsr31_full_cycle s Hs)) as Hback.
  replace (n * PRBS31_period)%N with (n * PRBS31_period - n + n)%N in Hback
    by (unfold PRBS31_period; lia).
  rewrite N.iter_add, Hz, lfsr31_iter_0 in Hback. done.
Qed.

(** X1.  When the 31-bit register state [rand()] leaves is zero (for instance
    [rand()] returns 0) the register never leaves that state: every sample
    [GeneratePRBS31] synthesizes, before the channel model, is the low level
    [-scale = -(amplitude / 2)]. *)
Theorem PRBS31_lockup :
  forall (FM : FloatModel) (rand_result : Z) (amplitude period : float)
         (sampleperiod : Z) (depth i : nat),
    low31 (uint32 rand_result) = 0 ->
    (i < depth)%nat ->
    m_samples (PRBS31_waveform rand_result amplitude period sampleperiod depth) !! i
    = Some (- (amplitude / i2f 2))%flt.
Proof.
  intros FM rand_result amplitude period sampleperiod depth i Hz Hi.
  destruct (PRBS31_waveform_spec rand_result amplitude period sampleperiod depth)
    as (_ & _ & Hs).
  rewrite (Hs i Hi). f_equal.
  set (scale := (amplitude / i2f 2)%flt).
  set (it := PRBS31_iteration scale period sampleperiod).
  destruct (PRBS31_iteration_spec scale period sampleperiod
              (vars_after it i (PRBS31_entry rand_result period))) as (_ & _ & _ & He).
  cbv zeta in He. fold it in He. rewrite He.
  change (fst (it (vars_after it i (PRBS31_entry rand_result period))))
    with (vars_after it (Datatypes.S i) (PRBS31_entry rand_result period)).
  assert (Hlow : forall j, v_value (vars_after it j (PRBS31_entry rand_result period)) = false).
  { intros j.
    destruct (PRBS31_vars_after scale period sampleperiod rand_result j) as (_ & _ & Hv).
    cbv zeta in Hv. fold it in Hv. rewrite Hv.
    destruct (advances period sampleperiod j); [done |].
    by apply PRBS31_bit_zero_state. }
  rewrite !Hlow. reflexivity.
Qed.

Lemma PRBS31_lockup_witness :
  m_samples (PRBS31_waveform (FM := IEEE.model) 0 IEEE.two IEEE.four 1 8) !! 5%nat
  = Some (SFopp (@fdiv IEEE.model IEEE.two (i2f 2))).
Proof.
  apply (PRBS31_lockup IEEE.model 0 IEEE.two IEEE.four 1 8%nat 5%nat).
  - reflexivity.
  - lia.
Defined.

(** X2.  A register whose 31-bit state is not zero never reaches the all-zero
    state: at every iteration of the loop of [GeneratePRBS31] the low 31 bits
    of [prbs] are not all zero. *)
Theorem PRBS31_never_locks_up :
  forall (FM : FloatModel) (rand_result : Z) (amplitude period : float)
         (sampleperiod : Z) (i : nat),
    low31 (uint32 rand_result) <> 0 ->
    low31 (v_prbs (vars_after (PRBS31_iteration (amplitude / i2f 2)%flt period sampleperiod) i
                     (PRBS31_entry rand_result period))) <> 0.
Proof.
  intros FM rand_result amplitude period sampleperiod i Hnz Hz.
  destruct (PRBS31_vars_after (amplitude / i2f 2)%flt period sampleperiod rand_result i)
    as (_ & Hp & _).
  cbv zeta in Hp. rewrite Hp, low31_iter in Hz.
  apply Hnz. eapply lfsr31_iter_nonzero; [apply low31_range | exact Hz].
Qed.

Lemma PRBS31_never_locks_up_witness :
  low31 (v_prbs (vars_after (PRBS31_iteration (FM := IEEE.model)
                               (IEEE.two / i2f 2)%flt IEEE.four 1) 40
                   (PRBS31_entry 1 IEEE.four))) <> 0.
Proof.
  apply (PRBS31_never_locks_up IEEE.model 1 IEEE.two IEEE.four 1 40%nat).
  discriminate.
Defined.

Lemma bounded_search (f : nat -> bool) (k : nat) :
  (exists j, (j < k)%nat /\ f j = true) \/ (forall j, (j < k)%nat -> f j = false).
Proof.
  induction k as [|k [(j & Hj & Hf) | Hall]].
  - right. intros j Hj. lia.
  - left. exists j. split; [lia | done].
  - destruct (f k) eqn:E.
    + left. exists k. split; [lia | done].
    + right. intros j Hj. destruct (decide (j = k)) as [-> |]; [done |]. apply Hall. lia.
Qed.

(** The last 31 bits delivered are the register state. *)
Lemma lfsr31_window (seed : Z) (n : N) (b : bool) :
  (forall j : nat, (j < 31)%nat -> PRBS31_bit seed (n + N.of_nat j) = b) ->
  forall j : nat, (j <= 30)%nat ->
    Z.testbit (N.iter (n + 31) lfsr31 (low31 seed)) (Z.of_nat j) = b.
Proof.
  intros Hrun j Hj. rewrite lfsr31_history_bit by lia.
  replace (n + 31 - N.of_nat j - 1)%N with (n + N.of_nat (30 - j))%N by lia.
  apply Hrun. lia.
Qed.

(** X3.  Run lengths of the PRBS31 bit sequence: from a non-zero state every
    31 consecutive bits contain a one, and from any state every 32
    consecutive bits contain a zero. *)
Theorem PRBS31_run_lengths :
  (forall (seed : Z) (n : N),
     low31 seed <> 0 ->
     exists j : N, (j < 31)%N /\ PRBS31_bit seed (n + j) = true) /\
  (forall (seed : Z) (n : N),
     exists j : N, (j < 32)%N /\ PRBS31_bit seed (n + j) = false).
Proof.
  split.
  - intros seed n Hnz.
    destruct (bounded_search (fun j => PRBS31_bit seed (n + N.of_nat j)) 31)
      as [(j & Hj & Hf) | Hall].
    { exists (N.of_nat j). split; [lia | exact Hf]. }
    exfalso. apply Hnz.
    apply (lfsr31_iter_nonzero (low31 seed) (n + 31) (low31_range seed)).
    pose proof (proj2 (iter_lfsr31_matrix (n + 31) (low31 seed) (low31_range seed))) as Hr.
    apply Z.bits_inj'. intros k Hk. rewrite Z.bits_0.
    destruct (Z.lt_ge_cases k 31) as [Hlt | Hge].
    + rewrite <- (Z2Nat.id k) by done. apply (lfsr31_window seed n false Hall). lia.
    + rewrite <- (Z.mod_small _ (2 ^ 31) Hr). apply Z.mod_pow2_bits_high. lia.
  - intros seed n.
    destruct (bounded_search (fun j => negb (PRBS31_bit seed (n + N.of_nat j))) 31)
      as [(j & Hj & Hf) | Hall].
    { exists (N.of_nat j). split; [lia |]. by apply negb_true_iff. }
    exists 31%N. split; [lia |].
    assert (Hones : forall j : nat, (j < 31)%nat -> PRBS31_bit seed (n + N.of_nat j) = true).
    { intros j Hj. specialize (Hall j Hj). by apply negb_false_iff in Hall. }
    rewrite PRBS31_bit_lfsr31, N.iter_succ, lfsr31_testbit by lia.
    change (0 =? 0) with true. cbv iota.
    pose proof (lfsr31_window seed n true Hones 30%nat ltac:(lia)) as H30.
    pose proof (lfsr31_window seed n true Hones 27%nat ltac:(lia)) as H27.
    change (Z.of_nat 30) with 30 in H30. change (Z.of_nat 27) with 27 in H27.
    by rewrite H30, H27.
Qed.

Lemma PRBS31_run_lengths_witness :
  exists j : N, (j < 31)%N /\ PRBS31_bit 1 (1000 + j) = true.
Proof.
  apply (proj1 PRBS31_run_lengths 1 1000%N). discriminate.
Defined.

(** ** The pattern index *)

(** X4.  The index into the 20-bit pattern of [Generate8b10b] is the number of
    pattern advances modulo 20: at every iteration it lies in [0, 20), so the
    read [pattern[nbit ++]] never leaves the array. *)
Theorem pattern_index_in_bounds :
  forall (FM : FloatModel) (amplitude period : float) (sampleperiod : Z) (i : nat),
    let st := vars_after (b8b10b_iteration (amplitude / i2f 2)%flt period sampleperiod) i
                (b8b10b_entry period) in
    w_nbit st = Z.of_nat (advances period sampleperiod i mod 20) /\
    0 <= w_nbit st < patternlen /\
    (Z.to_nat (w_nbit st) < length pattern)%nat.
Proof.
  intros FM amplitude period sampleperiod i st.
  destruct (b8b10b_vars_after (amplitude / i2f 2)%flt period sampleperiod i) as (_ & Hn & _).
  cbv zeta in Hn. fold st in Hn. rewrite Hn, b8b10b_nbit_mod.
  pose proof (Nat.mod_upper_bound (advances period sampleperiod i) 20 ltac:(lia)) as Hlt.
  unfold patternlen. cbn [length pattern]. repeat split; lia.
Qed.

(** ** Integer periods in binary32 *)

(** An integer below 2^24 in magnitude is a binary32 value. *)
Lemma int_representable (z : Z) :
  Z.abs z < 2 ^ 24 -> exists f, finite32 f /\ (SF2Q f == inject_Z z)%Q.
Proof.
  intros Hz.
  assert (Hpos : forall p : positive, Zpos p < 2 ^ 24 ->
            exists m e, bounded 24 128 m e = true /\
                        (dyadic (Zpos m) e == inject_Z (Zpos p))%Q).
  { intros p Hp.
    pose proof (digits2_pos_bounds p) as [Hlo Hhi].
    set (d := Zpos (digits2_pos p)) in *.
    assert (Hd : 1 <= d <= 24).
    { split; [unfold d; lia |].
      destruct (Z.le_gt_cases d 24) as [H | H]; [exact H |].
      assert (2 ^ 24 <= 2 ^ (d - 1)) by (apply Z.pow_le_mono_r; lia). lia. }
    assert (Hm : 0 < Zpos p * 2 ^ (24 - d))
      by (apply Z.mul_pos_pos; [lia | apply Z.pow_pos_nonneg; lia]).
    exists (Z.to_pos (Zpos p * 2 ^ (24 - d))), (d - 24). split.
    - apply bounded32_intro; [| lia].
      replace (Zpos (digits2_pos (Z.to_pos (Zpos p * 2 ^ (24 - d)))))
        with (Zdigits2 (Zpos p * 2 ^ (24 - d)))
        by (destruct (Zpos p * 2 ^ (24 - d)); try lia; reflexivity).
      rewrite Zdigits2_mul_pow2 by lia. cbn [Zdigits2]. fold d. lia.
    - rewrite Z2Pos.id by done. rewrite dyadic_shift by lia.
      replace (d - 24 + (24 - d)) with 0 by lia.
      unfold dyadic. change (pow2 0) with 1%Q. ring. }
  destruct z as [|p|p].
  - exists (S754_zero false). by split.
  - destruct (Hpos p ltac:(lia)) as (m & e & Hb & Hv).
    exists (S754_finite false m e). split; [by split |]. by rewrite SF2Q_pos.
  - destruct (Hpos p ltac:(lia)) as (m & e & Hb & Hv).
    exists (S754_finite true m e). split; [by split |].
    rewrite SF2Q_neg, Hv. change (Z.neg p) with (- Zpos p). rewrite inject_Z_opp. reflexivity.
Qed.

(** The conversion of such an integer, and sums and differences of integer
    values that stay below 2^24, are exact. *)
Lemma i2f_exact (z : Z) :
  Z.abs z < 2 ^ 24 ->
  finite32 (@i2f IEEE.model z) /\ (SF2Q (@i2f IEEE.model z) == inject_Z z)%Q.
Proof.
  intros Hz. destruct (int_representable z Hz) as (f & Hf & Hv).
  destruct (i2f_between z f f Hf Hf) as [Hfin Hr]; [rewrite Hv; lra |].
  split; [exact Hfin | lra].
Qed.

Lemma fsub_exact (x y : spec_float) (a b : Z) :
  finite32 x -> finite32 y ->
  (SF2Q x == inject_Z a)%Q -> (SF2Q y == inject_Z b)%Q ->
  Z.abs (a - b) < 2 ^ 24 ->
  finite32 (@fsub IEEE.model x y) /\ (SF2Q (@fsub IEEE.model x y) == inject_Z (a - b))%Q.
Proof.
  intros Hx Hy Ha Hb Hz. destruct (int_representable (a - b) Hz) as (f & Hf & Hv).
  assert (Hab : (inject_Z (a - b) == inject_Z a - inject_Z b)%Q)
    by (unfold Z.sub; rewrite inject_Z_plus, inject_Z_opp; reflexivity).
  destruct (fsub_between x y f f Hx Hy Hf Hf) as [Hfin Hr]; [rewrite Hv; lra |].
  split; [exact Hfin | lra].
Qed.

Lemma fadd_exact (x y : spec_float) (a b : Z) :
  finite32 x -> finite32 y ->
  (SF2Q x == inject_Z a)%Q -> (SF2Q y == inject_Z b)%Q ->
  Z.abs (a + b) < 2 ^ 24 ->
  finite32 (@fadd IEEE.model x y) /\ (SF2Q (@fadd IEEE.model x y) == inject_Z (a + b))%Q.
Proof.
  intros Hx Hy Ha Hb Hz. destruct (int_representable (a + b) Hz) as (f & Hf & Hv).
  assert (Hab : (inject_Z (a + b) == inject_Z a + inject_Z b)%Q)
    by (rewrite inject_Z_plus; reflexivity).
  destruct (fadd_between x y f f Hx Hy Hf Hf) as [Hfin Hr]; [rewrite Hv; lra |].
  split; [exact Hfin | lra].
Qed.

(** One iteration on integer values: the accumulator and the crossing test
    are those of integer arithmetic, as long as no intermediate value reaches
    2^24. *)
Lemma next_phase_int (P sp p : Z) (phase : spec_float) :
  Z.abs sp < 2 ^ 24 -> Z.abs P < 2 ^ 24 -> Z.abs (p - sp) < 2 ^ 24 ->
  (p - sp < 0 -> Z.abs (p - sp + P) < 2 ^ 24) ->
  finite32 phase -> (SF2Q phase == inject_Z p)%Q ->
  @crosses IEEE.model sp phase = (p - sp <? 0) /\
  finite32 (@next_phase IEEE.model (@i2f IEEE.model P) sp phase) /\
  (SF2Q (@next_phase IEEE.model (@i2f IEEE.model P) sp phase)
   == inject_Z (if p - sp <? 0 then p - sp + P else p - sp))%Q.
Proof.
  intros Hsp HP Hd Hs Hf Hv.
  destruct (i2f_exact sp Hsp) as [Hsf Hsv].
  destruct (i2f_exact P HP) as [HPf HPv].
  destruct (fsub_exact phase (@i2f IEEE.model sp) p sp Hf Hsf Hv Hsv Hd) as [Hdf Hdv].
  assert (Hc : @crosses IEEE.model sp phase = (p - sp <? 0)).
  { change (@crosses IEEE.model sp phase)
      with (SFltb (@fsub IEEE.model phase (@i2f IEEE.model sp)) IEEE.zero).
    destruct (Z.ltb_spec (p - sp) 0) as [Hlt | Hge].
    - apply (fltb_value _ _ Hdf (finite32_zero false)). rewrite Hdv.
      change (SF2Q (S754_zero false)) with (inject_Z 0). by rewrite <- Zlt_Qlt.
    - apply not_true_is_false. intros Ht.
      apply (fltb_value _ _ Hdf (finite32_zero false)) in Ht. rewrite Hdv in Ht.
      change (SF2Q (S754_zero false)) with (inject_Z 0) in Ht. rewrite <- Zlt_Qlt in Ht. lia. }
  split; [exact Hc |].
  change (@next_phase IEEE.model (@i2f IEEE.model P) sp phase)
    with (if @crosses IEEE.model sp phase
          then @fadd IEEE.model (@fsub IEEE.model phase (@i2f IEEE.model sp)) (@i2f IEEE.model P)
          else @fsub IEEE.model phase (@i2f IEEE.model sp)).
  rewrite Hc. destruct (Z.ltb_spec (p - sp) 0) as [Hlt | Hge]; [| by split].
  apply (fadd_exact _ _ (p - sp) P Hdf HPf Hdv HPv). by apply Hs.
Qed.

(** The accumulator with integer periods [S <= P < 2^24]: on entry of
    iteration [i >= 1] its value is the integer [(a + 1) * P - i * S], where
    [a] is the number of advances so far, and lies in [0, P). *)
Lemma integer_phase_invariant (P S : Z) (i : nat) :
  1 <= S <= P -> P < 2 ^ 24 ->
  let period := @i2f IEEE.model P in
  exists p : Z,
    finite32 (@phase_after IEEE.model period S i) /\
    (SF2Q (@phase_after IEEE.model period S i) == inject_Z p)%Q /\
    @crosses IEEE.model S (@phase_after IEEE.model period S i) = (p - S <? 0) /\
    match i with
    | O => p = P /\ @advances IEEE.model period S i = O
    | _ => 0 <= p <= P - 1 /\
           (Z.of_nat (@advances IEEE.model period S i) + 1) * P - Z.of_nat i * S = p
    end.
Proof.
  intros HS HP period.
  assert (Inv : exists p : Z,
            finite32 (@phase_after IEEE.model period S i) /\
            (SF2Q (@phase_after IEEE.model period S i) == inject_Z p)%Q /\
            match i with
            | O => p = P /\ @advances IEEE.model period S i = O
            | _ => 0 <= p <= P - 1 /\
                   (Z.of_nat (@advances IEEE.model period S i) + 1) * P
                   - Z.of_nat i * S = p
            end).
  { induction i as [|i IH].
    - exists P. destruct (i2f_exact P ltac:(lia)) as [Hf Hv].
      split; [exact Hf |]. split; [exact Hv |]. by split.
    - destruct IH as (p & Hf & Hv & Hi).
      assert (Hp : 0 <= p <= P) by (destruct i; lia).
      destruct (next_phase_int P S p _ ltac:(lia) ltac:(lia) ltac:(lia) ltac:(lia) Hf Hv)
        as (Hc & Hnf & Hnv).
      fold period in Hnf, Hnv.
      change (@phase_after IEEE.model period S (Datatypes.S i))
        with (@next_phase IEEE.model period S (@phase_after IEEE.model period S i)).
      exists (if p - S <? 0 then p - S + P else p - S).
      split; [exact Hnf |]. split; [exact Hnv |].
      cbn [advances]. rewrite Hc.
      destruct (Z.ltb_spec (p - S) 0) as [Hlt | Hge]; destruct i; lia. }
  destruct Inv as (p & Hf & Hv & Hi). exists p.
  split; [exact Hf |]. split; [exact Hv |]. split; [| exact Hi].
  assert (Hp : 0 <= p <= P) by (destruct i; lia).
  by destruct (next_phase_int P S p _ ltac:(lia) ltac:(lia) ltac:(lia) ltac:(lia) Hf Hv)
    as (Hc & _).
Qed.

(** X5.  No timing drift with integer periods: in binary32, with an integer
    sample period [S >= 1] and an integer symbol period [P] with
    [S <= P < 2^24], the accumulator on entry of iteration [i >= 1] is exactly
    [(- i * S) mod P], and the pattern has advanced exactly
    [(i * S - 1) / P] times: the [k]-th advance happens in the sample that
    contains the time [k * P]. *)
Theorem integer_period_timing :
  forall (P S : Z) (i : nat),
    1 <= S <= P -> P < 2 ^ 24 ->
    let period := @i2f IEEE.model P in
    let phase := @phase_after IEEE.model period S i in
    finite32 phase /\
    (SF2Q phase
     == inject_Z (match i with O => P | _ => (- (Z.of_nat i * S)) mod P end))%Q /\
    @advances IEEE.model period S i = Z.to_nat ((Z.of_nat i * S - 1) / P).
Proof.
  intros P S i HS HP period phase. subst phase.
  destruct (integer_phase_invariant P S i HS HP) as (p & Hf & Hv & _ & Hi).
  fold period in Hf, Hv, Hi.
  split; [exact Hf |].
  destruct i as [|i].
  - destruct Hi as [-> Ha]. split; [exact Hv |]. rewrite Ha.
    change (Z.of_nat 0 * S - 1) with (-1).
    assert (-1 / P = -1) as -> by (symmetry; apply (Z.div_unique _ _ _ (P - 1)); lia).
    reflexivity.
  - destruct Hi as [Hr Hp].
    set (a := Z.of_nat (@advances IEEE.model period S (Datatypes.S i))) in *.
    set (n := Z.of_nat (Datatypes.S i) * S) in *.
    split.
    + rewrite Hv. apply inject_Z_injective.
      apply (Z.mod_unique _ _ (- (a + 1))); lia.
    + assert ((n - 1) / P = a) as ->
        by (symmetry; apply (Z.div_unique _ _ _ (P - 1 - p)); lia).
      unfold a. by rewrite Nat2Z.id.
Qed.

Lemma integer_period_timing_witness :
  (SF2Q (@phase_after IEEE.model (@i2f IEEE.model 5) 2 4) == inject_Z 2)%Q /\
  @advances IEEE.model (@i2f IEEE.model 5) 2 4 = 1%nat.
Proof.
  destruct (integer_period_timing 5 2 4%nat) as (_ & Hv & Ha); [lia | lia |].
  split; [exact Hv | exact Ha].
Defined.

(** X6.  Undersampling.  In binary32, with integer periods and a sample
    period [S] longer than the symbol period [P], every iteration takes the
    accumulator below zero: the pattern advances exactly once per sample,
    whatever the ratio [S / P], and the accumulator falls by [S - P] per
    sample (as long as [(i + 1) * (S - P)] stays below 2^24). *)
Theorem undersampled_one_bit_per_sample :
  forall (P S : Z) (i : nat),
    1 <= P < S -> S < 2 ^ 24 -> (Z.of_nat i + 1) * (S - P) < 2 ^ 24 ->
    let period := @i2f IEEE.model P in
    let phase := @phase_after IEEE.model period S i in
    finite32 phase /\
    (SF2Q phase == inject_Z (P - Z.of_nat i * (S - P)))%Q /\
    @advances IEEE.model period S i = i /\
    @crosses IEEE.model S phase = true.
Proof.
  intros P S i HP HS Hi period phase. subst phase.
  assert (Inv : finite32 (@phase_after IEEE.model period S i) /\
                (SF2Q (@phase_after IEEE.model period S i)
                 == inject_Z (P - Z.of_nat i * (S - P)))%Q /\
                @advances IEEE.model period S i = i).
  { induction i as [|i IH].
    - destruct (i2f_exact P ltac:(lia)) as [Hf Hv].
      split; [exact Hf |]. split; [| reflexivity].
      change (@phase_after IEEE.model period S 0) with (@i2f IEEE.model P).
      rewrite Hv. apply inject_Z_injective. lia.
    - destruct IH as (Hf & Hv & Ha); [nia |].
      destruct (next_phase_int P S (P - Z.of_nat i * (S - P)) _
                  ltac:(lia) ltac:(lia) ltac:(nia) ltac:(nia) Hf Hv) as (Hc & Hnf & Hnv).
      fold period in Hnf, Hnv.
      change (@phase_after IEEE.model period S (Datatypes.S i))
        with (@next_phase IEEE.model period S (@phase_after IEEE.model period S i)).
      assert (Hneg : (P - Z.of_nat i * (S - P) - S <? 0) = true) by (apply Z.ltb_lt; nia).
      rewrite Hneg in Hc, Hnv.
      split; [exact Hnf |]. split.
      + rewrite Hnv. apply inject_Z_injective. lia.
      + cbn [advances]. rewrite Hc, Ha. lia. }
  destruct Inv as (Hf & Hv & Ha).
  split; [exact Hf |]. split; [exact Hv |]. split; [exact Ha |].
  destruct (i2f_exact S ltac:(lia)) as [Hsf Hsv].
  destruct (fsub_exact _ (@i2f IEEE.model S) _ S Hf Hsf Hv Hsv ltac:(nia)) as [Hdf Hdv].
  change (@crosses IEEE.model S (@phase_after IEEE.model period S i))
    with (SFltb (@fsub IEEE.model (@phase_after IEEE.model period S i) (@i2f IEEE.model S))
            IEEE.zero).
  apply (fltb_value _ _ Hdf (finite32_zero false)). rewrite Hdv.
  change (SF2Q (S754_zero false)) with (inject_Z 0). rewrite <- Zlt_Qlt. nia.
Qed.

Lemma undersampled_one_bit_per_sample_witness :
  @advances IEEE.model (@i2f IEEE.model 2) 5 7 = 7%nat.
Proof.
  destruct (undersampled_one_bit_per_sample 2 5 7%nat) as (_ & _ & Ha & _);
    [lia | lia | lia |].
  exact Ha.
Defined.

(** ** Before the first pattern advance *)

Section NoEdges.
Context {FM : FloatModel}.

Lemma advances_none (period : float) (sampleperiod : Z) (i : nat) :
  (forall j, (j < i)%nat -> crosses sampleperiod (phase_after period sampleperiod j) = false) ->
  advances period sampleperiod i = 0%nat.
Proof.
  induction i as [|i IH]; intros H; [done |].
  cbn [advances]. rewrite IH by (intros j Hj; apply H; lia).
  by rewrite H by lia.
Qed.

Lemma advances_S_none (period : float) (sampleperiod : Z) (i : nat) :
  advances period sampleperiod (Datatypes.S i) = 0%nat ->
  advances period sampleperiod i = 0%nat.
Proof. cbn [advances]. lia. Qed.

(** Both loops start at the low level and hold it until the pattern first
    advances. *)
Lemma PRBS31_low_before_first_advance (rand_result : Z) (amplitude period : float)
  (sampleperiod : Z) (depth i : nat) :
  (i < depth)%nat ->
  advances period sampleperiod (Datatypes.S i) = 0%nat ->
  m_samples (PRBS31_waveform rand_result amplitude period sampleperiod depth) !! i
  = Some (- (amplitude / i2f 2))%flt.
Proof.
  intros Hi Ha.
  destruct (PRBS31_waveform_spec rand_result amplitude period sampleperiod depth)
    as (_ & _ & Hs).
  rewrite (Hs i Hi). f_equal.
  set (scale := (amplitude / i2f 2)%flt).
  set (it := PRBS31_iteration scale period sampleperiod).
  destruct (PRBS31_iteration_spec scale period sampleperiod
              (vars_after it i (PRBS31_entry rand_result period))) as (_ & _ & _ & He).
  cbv zeta in He. fold it in He. rewrite He.
  change (fst (it (vars_after it i (PRBS31_entry rand_result period))))
    with (vars_after it (Datatypes.S i) (PRBS31_entry rand_result period)).
  destruct (PRBS31_vars_after scale period sampleperiod rand_result i) as (_ & _ & Hv).
  destruct (PRBS31_vars_after scale period sampleperiod rand_result (Datatypes.S i))
    as (_ & _ & Hv').
  cbv zeta in Hv, Hv'. fold it in Hv, Hv'.
  rewrite Hv, Hv', Ha, (advances_S_none _ _ _ Ha). reflexivity.
Qed.

Lemma b8b10b_low_before_first_advance (amplitude period : float)
  (sampleperiod : Z) (depth i : nat) :
  (i < depth)%nat ->
  advances period sampleperiod (Datatypes.S i) = 0%nat ->
  m_samples (b8b10b_waveform amplitude period sampleperiod depth) !! i
  = Some (- (amplitude / i2f 2))%flt.
Proof.
  intros Hi Ha.
  destruct (b8b10b_waveform_spec amplitude period sampleperiod depth) as (_ & _ & Hs).
  rewrite (Hs i Hi). f_equal.
  set (scale := (amplitude / i2f 2)%flt).
  set (it := b8b10b_iteration scale period sampleperiod).
  destruct (b8b10b_iteration_spec scale period sampleperiod
              (vars_after it i (b8b10b_entry period))) as (_ & _ & _ & He).
  cbv zeta in He. fold it in He. rewrite He.
  change (fst (it (vars_after it i (b8b10b_entry period))))
    with (vars_after it (Datatypes.S i) (b8b10b_entry period)).
  destruct (b8b10b_vars_after scale period sampleperiod i) as (_ & _ & Hv).
  destruct (b8b10b_vars_after scale period sampleperiod (Datatypes.S i)) as (_ & _ & Hv').
  cbv zeta in Hv, Hv'. fold it in Hv, Hv'.
  rewrite Hv, Hv', Ha, (advances_S_none _ _ _ Ha). reflexivity.
Qed.

End NoEdges.

(** An accumulator that is [+inf] or a NaN stays so and is never below zero. *)
Lemma nonfinite_phase (period : spec_float) (sampleperiod : Z) (i : nat) :
  period = S754_infinity false \/ period = S754_nan ->
  (@phase_after IEEE.model period sampleperiod i = S754_infinity false \/
   @phase_after IEEE.model period sampleperiod i = S754_nan) /\
  @crosses IEEE.model sampleperiod (@phase_after IEEE.model period sampleperiod i) = false.
Proof.
  intros Hp.
  assert (Hstep : forall phase : spec_float,
            phase = S754_infinity false \/ phase = S754_nan ->
            (@next_phase IEEE.model period sampleperiod phase = S754_infinity false \/
             @next_phase IEEE.model period sampleperiod phase = S754_nan) /\
            @crosses IEEE.model sampleperiod phase = false).
  { intros phase Hph. unfold next_phase, crosses.
    change (@i2f IEEE.model 0) with (S754_zero false).
    change (@fsub IEEE.model phase (@i2f IEEE.model sampleperiod))
      with (SFsub 24 128 phase (@i2f IEEE.model sampleperiod)).
    destruct (@i2f IEEE.model sampleperiod) as [sy | sy | | sy my ey];
      destruct Hph as [-> | ->]; try destruct sy; cbn; auto. }
  induction i as [|i IH].
  - exact (conj Hp (proj2 (Hstep period Hp))).
  - change (@phase_after IEEE.model period sampleperiod (Datatypes.S i))
      with (@next_phase IEEE.model period sampleperiod
              (@phase_after IEEE.model period sampleperiod i)).
    destruct (Hstep _ (proj1 IH)) as [Hn _].
    exact (conj Hn (proj2 (Hstep _ Hn))).
Qed.

(** X7.  In binary32 a symbol period that is [+inf] or a NaN never produces
    an edge: the accumulator never compares below zero, the pattern never
    advances, and every synthesized sample of both bit-pattern generators is
    the low level [-(amplitude / 2)]. *)
Theorem nonfinite_period_no_edges :
  forall (rand_result : Z) (amplitude period : spec_float) (sampleperiod : Z)
         (depth i : nat),
    period = S754_infinity false \/ period = S754_nan ->
    (i < depth)%nat ->
    @advances IEEE.model period sampleperiod depth = 0%nat /\
    m_samples (@PRBS31_waveform IEEE.model rand_result amplitude period sampleperiod depth)
      !! i = Some (SFopp (@fdiv IEEE.model amplitude (i2f 2))) /\
    m_samples (@b8b10b_waveform IEEE.model amplitude period sampleperiod depth)
      !! i = Some (SFopp (@fdiv IEEE.model amplitude (i2f 2))).
Proof.
  intros rand_result amplitude period sampleperiod depth i Hp Hi.
  assert (Ha : forall n, @advances IEEE.model period sampleperiod n = 0%nat).
  { intros n. apply advances_none. intros j _.
    exact (proj2 (nonfinite_phase period sampleperiod j Hp)). }
  split; [apply Ha |]. split.
  - exact (@PRBS31_low_before_first_advance IEEE.model rand_result amplitude period
             sampleperiod depth i Hi (Ha _)).
  - exact (@b8b10b_low_before_first_advance IEEE.model amplitude period
             sampleperiod depth i Hi (Ha _)).
Qed.

Lemma nonfinite_period_no_edges_witness :
  m_samples (@PRBS31_waveform IEEE.model 1 IEEE.two (S754_infinity false) 1 9) !! 8%nat
  = Some (SFopp IEEE.one).
Proof.
  destruct (nonfinite_period_no_edges 1 IEEE.two (S754_infinity false) 1 9%nat 8%nat)
    as (_ & Hs & _); [by left | lia |].
  exact Hs.
Defined.

(** ** A symbol period that is a multiple of the sample period *)

Section SampleForm.
Context {FM : FloatModel}.

(** The sample of iteration [i], from the number of advances before and after
    it. *)
Lemma PRBS31_sample_form (rand_result : Z) (amplitude period : float)
  (sampleperiod : Z) (depth i : nat) :
  (i < depth)%nat ->
  let lvl := fun a : nat => match a with
                            | O => false
                            | Datatypes.S c => PRBS31_bit (uint32 rand_result) (N.of_nat c)
                            end in
  m_samples (PRBS31_waveform rand_result amplitude period sampleperiod depth) !! i
  = Some (emitted (amplitude / i2f 2)%flt sampleperiod
            (lvl (advances period sampleperiod i))
            (phase_after period sampleperiod i)
            (lvl (advances period sampleperiod (Datatypes.S i)))).
Proof.
  intros Hi lvl.
  destruct (PRBS31_waveform_spec rand_result amplitude period sampleperiod depth)
    as (_ & _ & Hs).
  rewrite (Hs i Hi). f_equal.
  set (scale := (amplitude / i2f 2)%flt).
  set (it := PRBS31_iteration scale period sampleperiod).
  destruct (PRBS31_iteration_spec scale period sampleperiod
              (vars_after it i (PRBS31_entry rand_result period))) as (_ & _ & _ & He).
  cbv zeta in He. fold it in He. rewrite He.
  change (fst (it (vars_after it i (PRBS31_entry rand_result period))))
    with (vars_after it (Datatypes.S i) (PRBS31_entry rand_result period)).
  destruct (PRBS31_vars_after scale period sampleperiod rand_result i) as (Hp & _ & Hv).
  destruct (PRBS31_vars_after scale period sampleperiod rand_result (Datatypes.S i))
    as (_ & _ & Hv').
  cbv zeta in Hp, Hv, Hv'. fold it in Hp, Hv, Hv'.
  by rewrite Hp, Hv, Hv'.
Qed.

Lemma b8b10b_sample_form (amplitude period : float) (sampleperiod : Z) (depth i : nat) :
  (i < depth)%nat ->
  let lvl := fun a : nat => match a with
                            | O => false
                            | Datatypes.S c => b8b10b_bit c
                            end in
  m_samples (b8b10b_waveform amplitude period sampleperiod depth) !! i
  = Some (emitted (amplitude / i2f 2)%flt sampleperiod
            (lvl (advances period sampleperiod i))
            (phase_after period sampleperiod i)
            (lvl (advances period sampleperiod (Datatypes.S i)))).
Proof.
  intros Hi lvl.
  destruct (b8b10b_waveform_spec amplitude period sampleperiod depth) as (_ & _ & Hs).
  rewrite (Hs i Hi). f_equal.
  set (scale := (amplitude / i2f 2)%flt).
  set (it := b8b10b_iteration scale period sampleperiod).
  destruct (b8b10b_iteration_spec scale period sampleperiod
              (vars_after it i (b8b10b_entry period))) as (_ & _ & _ & He).
  cbv zeta in He. fold it in He. rewrite He.
  change (fst (it (vars_after it i (b8b10b_entry period))))
    with (vars_after it (Datatypes.S i) (b8b10b_entry period)).
  destruct (b8b10b_vars_after scale period sampleperiod i) as (Hp & _ & Hv).
  destruct (b8b10b_vars_after scale period sampleperiod (Datatypes.S i)) as (_ & _ & Hv').
  cbv zeta in Hp, Hv, Hv'. fold it in Hp, Hv, Hv'.
  by rewrite Hp, Hv, Hv'.
Qed.

End SampleForm.

(** Two canonical finite binary32 numbers with the same value are the same
    number, up to the sign of zero. *)
Lemma finite32_value_inj (x y : spec_float) :
  finite32 x -> finite32 y -> (SF2Q x == SF2Q y)%Q -> IEEE.same_value x y.
Proof.
  intros [Vx Fx] [Vy Fy] Hv.
  pose proof (SFcompare_value 24 128 x y Vx Fx Vy Fy) as Hc.
  rewrite (proj1 (Qeq_alt _ _) Hv) in Hc.
  destruct x as [sx | sx | | sx mx ex]; try discriminate;
    destruct y as [sy | sy | | sy my ey]; try discriminate.
  - right. by exists sx, sy.
  - by destruct sy.
  - by destruct sx.
  - left. cbn [SFcompare] in Hc.
    destruct sx, sy; try discriminate; injection Hc as Hc;
      destruct (Z.compare ex ey) eqn:He; try discriminate;
      apply Z.compare_eq in He; subst ey; f_equal.
    + destruct (Pos.compare_cont Eq mx my) eqn:Hm; try discriminate.
      by apply Pos.compare_eq in Hm.
    + by apply Pos.compare_eq in Hc.
Qed.

(** A finite number of value zero is a zero. *)
Lemma finite32_zero_inv (x : spec_float) :
  finite32 x -> (SF2Q x == 0)%Q -> exists s, x = S754_zero s.
Proof.
  intros Hx Hv.
  destruct (finite32_value_inj x (S754_zero false) Hx (finite32_zero false) Hv)
    as [-> | (s & t & -> & _)]; by eexists.
Qed.

(** When the accumulator is zero at an edge, the interpolated sample is the
    new level itself. *)
Lemma aligned_emitted (scale phase : spec_float) (S : Z) (last value : bool) :
  finite32 scale -> (0 <= SF2Q scale <= SF2Q half_max32)%Q ->
  1 <= S < 2 ^ 24 ->
  (last <> value -> finite32 phase /\ (SF2Q phase == 0)%Q) ->
  IEEE.same_value (@emitted IEEE.model scale S last phase value)
    (@level IEEE.model scale value).
Proof.
  intros Hs Hr HS Hph. unfold emitted.
  destruct (Bool.eqb last value) eqn:Hlv; [by left |].
  apply eqb_false_iff in Hlv.
  destruct (Hph Hlv) as [Hpf Hpv].
  destruct (finite32_zero_inv phase Hpf Hpv) as [sp ->].
  destruct (i2f_exact S ltac:(lia)) as [Hsf Hsv].
  assert (Hfrac : @fsub IEEE.model (i2f 1) (@fdiv IEEE.model (S754_zero sp) (i2f S))
                  = IEEE.one).
  { destruct (@i2f IEEE.model S) as [sy | sy | | sy my ey].
    - exfalso. change (SF2Q (S754_zero sy)) with (inject_Z 0) in Hsv.
      apply (proj1 (inject_Z_injective _ _)) in Hsv. lia.
    - by destruct Hsf.
    - by destruct Hsf.
    - reflexivity. }
  rewrite Hfrac.
  set (lo := @level IEEE.model scale last). set (hi := @level IEEE.model scale value).
  assert (Hlev : forall b, finite32 (@level IEEE.model scale b) /\
                           (SF2Q (@level IEEE.model scale b)
                            == if b then SF2Q scale else - SF2Q scale)%Q).
  { intros [|]; cbn [level].
    - by split.
    - split; [by apply finite32_opp | apply SF2Q_opp]. }
  destruct (Hlev last) as [Hlof Hlov]. destruct (Hlev value) as [Hhif Hhiv].
  fold lo in Hlof, Hlov. fold hi in Hhif, Hhiv.
  destruct (double_float scale Hs ltac:(lra)) as (f & Hf & Hfv).
  assert (Hd : exists d, finite32 d /\ (SF2Q d == SF2Q hi - SF2Q lo)%Q).
  { destruct last, value; try done.
    - exists (SFopp f). split; [by apply finite32_opp |]. rewrite SF2Q_opp. lra.
    - exists f. split; [done |]. lra. }
  destruct Hd as (d & Hdf & Hdv).
  destruct (fsub_between hi lo d d Hhif Hlof Hdf Hdf ltac:(lra)) as [Hdelta Hdeltav].
  destruct (fmul_between (@fsub IEEE.model hi lo) IEEE.one d d Hdelta finite32_one Hdf Hdf)
    as [Hprod Hprodv]; [rewrite SF2Q_one; lra |].
  destruct (fadd_between lo (@fmul IEEE.model (@fsub IEEE.model hi lo) IEEE.one) hi hi
              Hlof Hprod Hhif Hhif ltac:(lra)) as [Hsum Hsumv].
  apply finite32_value_inj; [exact Hsum | exact Hhif | lra].
Qed.

(** X8.  Aligned sampling.  In binary32, with a finite amplitude >= 0 and a
    symbol period that is an integer multiple [k] of the integer sample period
    ([k * S < 2^24]), both generators synthesize a square wave without
    interpolated samples: the first [k] samples are the low level and bit
    number [n] of the sequence is held for the [k] samples [(n + 1) * k ..
    (n + 2) * k - 1], each of them exactly [+scale] or [-scale]. *)
Theorem aligned_sampling_square_wave :
  forall (rand_result : Z) (amplitude : spec_float) (S k : Z) (depth i : nat),
    finite32 amplitude -> (0 <= SF2Q amplitude)%Q ->
    1 <= S -> 1 <= k -> k * S < 2 ^ 24 ->
    (i < depth)%nat ->
    let period := @i2f IEEE.model (k * S) in
    let scale := @fdiv IEEE.model amplitude (i2f 2) in
    (exists x,
       m_samples (@PRBS31_waveform IEEE.model rand_result amplitude period S depth) !! i
       = Some x /\
       IEEE.same_value x
         (@level IEEE.model scale
            (match Z.to_nat (Z.of_nat i / k) with
             | O => false
             | Datatypes.S n => PRBS31_bit (uint32 rand_result) (N.of_nat n)
             end))) /\
    (exists x,
       m_samples (@b8b10b_waveform IEEE.model amplitude period S depth) !! i = Some x /\
       IEEE.same_value x
         (@level IEEE.model scale
            (match Z.to_nat (Z.of_nat i / k) with
             | O => false
             | Datatypes.S n => b8b10b_bit n
             end))).
Proof.
  intros rand_result amplitude S k depth i Hamp H0 HS Hk HP Hi period scale.
  destruct (scale_float amplitude Hamp H0) as [Hs Hsr]. fold scale in Hs, Hsr.
  assert (HSP : 1 <= S <= k * S) by nia.
  destruct (integer_phase_invariant (k * S) S i HSP HP) as (p & Hf & Hv & Hc & Hinv).
  destruct (integer_phase_invariant (k * S) S (Datatypes.S i) HSP HP)
    as (p' & _ & _ & _ & Hr' & Ha').
  fold period in Hf, Hv, Hc, Hinv, Hr', Ha'.
  assert (Hadv : @advances IEEE.model period S (Datatypes.S i) = Z.to_nat (Z.of_nat i / k)).
  { assert (Z.of_nat i / k = Z.of_nat (@advances IEEE.model period S (Datatypes.S i))) as ->.
    { symmetry.
      set (a := Z.of_nat (@advances IEEE.model period S (Datatypes.S i))) in *.
      assert (Hdiv : (S | p' + S)).
      { exists ((a + 1) * k - Z.of_nat i). lia. }
      destruct Hdiv as [q Hq].
      apply (Z.div_unique _ _ _ (k - q)); nia. }
    by rewrite Nat2Z.id. }
  assert (Hzero : @crosses IEEE.model S (@phase_after IEEE.model period S i) = true ->
                  (SF2Q (@phase_after IEEE.model period S i) == 0)%Q).
  { rewrite Hc. intros Hlt. apply Z.ltb_lt in Hlt.
    assert (Hdiv : (S | p)).
    { destruct i as [|i'].
      - destruct Hinv as [-> _]. by exists k.
      - destruct Hinv as [_ <-].
        exists ((Z.of_nat (@advances IEEE.model period S (Datatypes.S i')) + 1) * k
                - Z.of_nat (Datatypes.S i')). lia. }
    destruct Hdiv as [q Hq].
    assert (0 <= p) by (clear Hq; destruct i; lia).
    assert (q < 1) by nia. assert (-1 < q) by nia.
    assert (p = 0) as -> by (replace q with 0 in Hq by lia; lia).
    exact Hv. }
  assert (Hedge : forall lvl : nat -> bool,
            lvl (@advances IEEE.model period S i)
            <> lvl (@advances IEEE.model period S (Datatypes.S i)) ->
            finite32 (@phase_after IEEE.model period S i) /\
            (SF2Q (@phase_after IEEE.model period S i) == 0)%Q).
  { intros lvl Hne. split; [exact Hf |]. apply Hzero.
    destruct (@crosses IEEE.model S (@phase_after IEEE.model period S i)) eqn:E; [done |].
    exfalso. apply Hne. cbn [advances]. rewrite E. f_equal. lia. }
  split.
  - eexists. split;
      [exact (@PRBS31_sample_form IEEE.model rand_result amplitude period S depth i Hi) |].
    rewrite <- Hadv.
    apply aligned_emitted; [exact Hs | exact Hsr | lia |].
    apply (Hedge (fun a => match a with
                           | O => false
                           | Datatypes.S c => PRBS31_bit (uint32 rand_result) (N.of_nat c)
                           end)).
  - eexists. split;
      [exact (@b8b10b_sample_form IEEE.model amplitude period S depth i Hi) |].
    rewrite <- Hadv.
    apply aligned_emitted; [exact Hs | exact Hsr | lia |].
    apply (Hedge (fun a => match a with
                           | O => false
                           | Datatypes.S c => b8b10b_bit c
                           end)).
Qed.

Lemma aligned_sampling_square_wave_witness :
  exists x,
    m_samples (@b8b10b_waveform IEEE.model IEEE.two (@i2f IEEE.model (4 * 1)) 1 40) !! 13%nat
    = Some x /\
    IEEE.same_value x (@level IEEE.model (@fdiv IEEE.model IEEE.two (i2f 2)) true).
Proof.
  apply (proj2 (aligned_sampling_square_wave 0 IEEE.two 1 4 40%nat 13%nat
                  ltac:(done) ltac:(by vm_compute) ltac:(lia) ltac:(lia) ltac:(lia)
                  ltac:(lia))).
Defined.

(** ** More on the degradation step *)

Section DegradeEdges.
Context {FM : FloatModel} {Env : Environment}.

(** No group delay in samples exists for a time step of zero: the integer
    division is by zero. *)
Lemma groupDelaySamples_zero : groupDelaySamples 0 = None.
Proof. unfold groupDelaySamples. by destruct groupDelay. Qed.

Lemma DegradeSerialData_zero_timescale (src : TestWaveformSource)
  (cap : UniformAnalogWaveform) (sampleperiod : Z) (depth : nat) (noise_amplitude : float) :
  APPLE_SILICON = false ->
  m_timescale cap = 0 ->
  DegradeSerialData src cap sampleperiod depth true noise_amplitude = None.
Proof.
  intros Ha Ht. unfold DegradeSerialData. rewrite Ha. cbv zeta.
  destruct (RectangularWindow _ _ _ _) as [inbuf |]; [| done]. cbn [mbind option_bind].
  destruct (ffts_execute_forward _ _ _) as [outbuf |]; [| done]. cbn [mbind option_bind].
  by rewrite Ht, groupDelaySamples_zero.
Qed.

(** The copy loop: output sample [i] is cell [i + istart] of the inverse
    transform, rescaled, plus draw number [i]. *)
Lemma rescale_and_copy_content (noise : noise_state -> double * noise_state)
  (revbuf : list float) (istart finalLen : Z) (fftscale : float)
  (samples : list float) (ns : noise_state) :
  0 <= istart -> 0 <= finalLen ->
  istart + finalLen <= Z.of_nat (length revbuf) ->
  finalLen <= Z.of_nat (length samples) ->
  istart + finalLen < SIZE_MODULUS ->
  exists samples',
    rescale_and_copy noise revbuf istart finalLen fftscale samples ns
    = Some (samples', noise_after noise (Z.to_nat finalLen) ns) /\
    length samples' = length samples /\
    forall i, (i < Z.to_nat finalLen)%nat ->
      exists r, revbuf !! (i + Z.to_nat istart)%nat = Some r /\
                samples' !! i
                = Some (d2f (dadd (f2d (r * fftscale)%flt) (noise_draw noise i ns))).
Proof.
  intros Hi Hf Hrev Hsam Hmod. unfold rescale_and_copy.
  set (P := fun (j : nat) (st : list float * noise_state) =>
              snd st = noise_after noise j ns /\ length (fst st) = length samples /\
              forall i, (i < j)%nat ->
                exists r, revbuf !! (i + Z.to_nat istart)%nat = Some r /\
                          fst st !! i
                          = Some (d2f (dadd (f2d (r * fftscale)%flt) (noise_draw noise i ns)))).
  destruct (for_loopM_ind P
              (fun i '(samples0, ns0) =>
                 r ← revbuf !! Z.to_nat ((Z.of_nat i + istart) mod SIZE_MODULUS);
                 guard (i < length samples0)%nat;;
                 let '(n, ns1) := noise ns0 in
                 Some (<[i := d2f (dadd (f2d (r * fftscale)%flt) n)]> samples0, ns1))
              (Z.to_nat finalLen) (samples, ns)) as ([samples' ns'] & Hrun & Hns & Hl & Hc).
  - split; [done |]. split; [done |]. intros i Hlt. lia.
  - intros j [samples0 ns0] Hj (Hns & Hl & Hc). cbn [fst snd] in *.
    rewrite Z.mod_small by lia.
    replace (Z.to_nat (Z.of_nat j + istart)) with (j + Z.to_nat istart)%nat by lia.
    destruct (lookup_lt_is_Some_2 revbuf (j + Z.to_nat istart) ltac:(lia)) as [r Hr].
    rewrite Hr. cbn [mbind option_bind].
    case_guard; [| lia]. cbn [mbind option_bind].
    destruct (noise ns0) as [n ns1] eqn:En.
    eexists. split; [reflexivity |]. split; [| split]; cbn [fst snd].
    + by rewrite noise_after_S, <- Hns, En.
    + by rewrite length_insert.
    + intros i Hlt. destruct (decide (i = j)) as [-> | Hne].
      * exists r. split; [exact Hr |]. rewrite list_lookup_insert_eq by lia.
        unfold noise_draw. by rewrite <- Hns, En.
      * destruct (Hc i ltac:(lia)) as (r' & Hr' & Hs'). exists r'. split; [exact Hr' |].
        by rewrite list_lookup_insert_ne.
  - cbn [fst snd] in *. subst ns'. by exists samples'.
Qed.

(** The noise loop runs over the end of a waveform shorter than [depth]. *)
Lemma add_noise_overrun (noise : noise_state -> double * noise_state) (depth : nat)
  (samples : list float) (ns : noise_state) :
  (length samples < depth)%nat -> add_noise noise depth samples ns = None.
Proof.
  intros Hlen. unfold add_noise, for_loopM.
  apply (for_fromM_fail (fun st => length (fst st) = length samples) _ _ 0 (length samples)).
  - lia.
  - done.
  - intros j [samples0 ns0] [samples1 ns1] Hinv Hb. cbn [fst] in *.
    destruct (samples0 !! j) as [x |]; [| discriminate]. cbn [mbind option_bind] in Hb.
    destruct (noise ns0) as [n ns2]. injection Hb as <- <-.
    by rewrite length_insert.
  - intros [samples0 ns0] Hinv. cbn [fst] in *.
    by rewrite lookup_ge_None_2 by lia.
Qed.

(** Two waveforms with the same label, time step and samples are the same. *)
Lemma waveform_eq (w1 w2 : UniformAnalogWaveform) :
  m_name w1 = m_name w2 -> m_timescale w1 = m_timescale w2 ->
  m_samples w1 = m_samples w2 -> w1 = w2.
Proof. destruct w1, w2. cbn. by intros -> -> ->. Qed.

(** On the noise path the first [d] output samples depend only on the first
    [d] input samples. *)
Lemma noise_only_prefix (src : TestWaveformSource) (cap1 cap2 : UniformAnalogWaveform)
  (sp1 sp2 : Z) (d d' : nat) (lpf : bool) (noise_amplitude : float) :
  APPLE_SILICON = true \/ lpf = false ->
  length (m_samples cap1) = d -> length (m_samples cap2) = d' -> (d <= d')%nat ->
  (forall i, (i < d)%nat -> m_samples cap1 !! i = m_samples cap2 !! i) ->
  exists src1 out1 src2 out2,
    DegradeSerialData src cap1 sp1 d lpf noise_amplitude = Some (src1, out1) /\
    DegradeSerialData src cap2 sp2 d' lpf noise_amplitude = Some (src2, out2) /\
    m_samples out1 = take d (m_samples out2).
Proof.
  intros Hpath H1 H2 Hle Hsame.
  destruct (DegradeSerialData_noise_only src cap1 sp1 d lpf noise_amplitude Hpath ltac:(lia))
    as (src1 & s1 & Hr1 & _ & Hl1 & Hc1 & _).
  destruct (DegradeSerialData_noise_only src cap2 sp2 d' lpf noise_amplitude Hpath ltac:(lia))
    as (src2 & s2 & Hr2 & _ & Hl2 & Hc2 & _).
  exists src1, (set_samples cap1 s1), src2, (set_samples cap2 s2).
  split; [exact Hr1 |]. split; [exact Hr2 |]. cbn [m_samples set_samples].
  apply list_eq. intros i. rewrite lookup_take.
  destruct (decide (i < d)%nat) as [Hlt | Hge].
  - destruct (lookup_lt_is_Some_2 (m_samples cap1) i ltac:(lia)) as [x Hx].
    rewrite (Hc1 i x Hlt Hx). symmetry. apply Hc2; [lia |]. by rewrite <- Hsame.
  - apply lookup_ge_None_2. lia.
Qed.

End DegradeEdges.

(** X9.  With the FFT path compiled in and the loss model enabled, a sample
    period of zero makes both bit-pattern generators undefined: the group
    delay in samples is an integer division by the time step. *)
Theorem zero_sample_period_undefined :
  forall (FM : FloatModel) (Env : Environment) (src : TestWaveformSource)
         (rand_result : Z) (amplitude period : float) (depth : nat)
         (noise_amplitude : float),
    APPLE_SILICON = false ->
    GeneratePRBS31 src rand_result amplitude period 0 depth true noise_amplitude = None /\
    Generate8b10b src amplitude period 0 depth true noise_amplitude = None.
Proof.
  intros FM Env src rand_result amplitude period depth noise_amplitude Ha.
  split.
  - unfold GeneratePRBS31. apply DegradeSerialData_zero_timescale; [exact Ha |].
    by destruct (PRBS31_waveform_spec rand_result amplitude period 0 depth) as (Ht & _).
  - unfold Generate8b10b. apply DegradeSerialData_zero_timescale; [exact Ha |].
    by destruct (b8b10b_waveform_spec amplitude period 0 depth) as (Ht & _).
Qed.

Lemma zero_sample_period_undefined_witness :
  @GeneratePRBS31 IEEE.model reference_IEEE (TestWaveformSource_new 1) 1
    IEEE.two IEEE.four 0 4 true IEEE.zero = None /\
  @Generate8b10b IEEE.model reference_IEEE (TestWaveformSource_new 1)
    IEEE.two IEEE.four 0 4 true IEEE.zero = None.
Proof.
  apply (zero_sample_period_undefined IEEE.model reference_IEEE (TestWaveformSource_new 1) 1
           IEEE.two IEEE.four 4%nat IEEE.zero).
  reflexivity.
Defined.

(** X10.  The filtered output.  On the FFT path, with a group delay of [gds]
    samples in [0, depth], output sample [i] is cell [i + gds] of the inverse
    transform the object holds after the call, times [1 / npoints], plus draw
    number [i]: the first [gds] cells of the inverse transform are dropped,
    and the engine is left after [depth - gds] draws. *)
Theorem filtered_samples :
  forall (FM : FloatModel) (Env : Environment) (src : TestWaveformSource)
         (cap : UniformAnalogWaveform) (sampleperiod : Z) (depth : nat)
         (noise_amplitude : float) (gds : Z),
    APPLE_SILICON = false ->
    cache_consistent src ->
    length (m_samples cap) = depth ->
    Z.of_nat depth < SIZE_MODULUS ->
    groupDelaySamples (m_timescale cap) = Some gds ->
    0 <= gds <= Z.of_nat depth ->
    let noise := normal_distribution (i2d 0) (f2d noise_amplitude) in
    let ns := (nd_fresh, m_rng src) in
    let fftscale := (i2f 1 / i2f (Z.of_nat (next_pow2 depth)))%flt in
    exists src' cap',
      DegradeSerialData src cap sampleperiod depth true noise_amplitude = Some (src', cap') /\
      length (m_samples cap') = (depth - Z.to_nat gds)%nat /\
      length (m_reverseOutBuf src') = next_pow2 depth /\
      m_rng src' = snd (noise_after noise (depth - Z.to_nat gds) ns) /\
      forall i, (i < depth - Z.to_nat gds)%nat ->
        exists r, m_reverseOutBuf src' !! (i + Z.to_nat gds)%nat = Some r /\
                  m_samples cap' !! i
                  = Some (d2f (dadd (f2d (r * fftscale)%flt) (noise_draw noise i ns))).
Proof.
  intros FM Env src cap sampleperiod depth noise_amplitude gds Ha Hc Hlen Hdepth Hgds Hrange
    noise ns fftscale.
  unfold DegradeSerialData. rewrite Ha. cbv zeta.
  destruct (next_pow2_ge depth) as [Hge Hnp].
  destruct (prepare_fft_shape src _ Hc Hnp) as (Hn & Hf & Hr & Hi & Ho & Hv).
  pose proof (prepare_fft_rng src (next_pow2 depth) (next_pow2 depth / 2 + 1)) as Hrng.
  cbv zeta in *. set (s := prepare_fft src _ _) in *.
  set (np := next_pow2 depth) in *.
  destruct (RectangularWindow_defined (m_samples cap) depth np (m_forwardInBuf s))
    as (inbuf & Hwin & Hinbuf); [lia | done |].
  rewrite Hwin. cbn [mbind option_bind]. rewrite Hf.
  destruct (ffts_execute_forward_defined np inbuf (m_forwardOutBuf s))
    as (outbuf0 & Hfwd & Hout0); [lia | done |].
  rewrite Hfwd. cbn [mbind option_bind].
  rewrite Hgds. cbn [mbind option_bind].
  destruct (apply_channel_length sampleperiod (np / 2 + 1) outbuf0 Hout0)
    as (outbuf & Hch & Hout).
  rewrite Hch. cbn [mbind option_bind]. rewrite Hr.
  destruct (ffts_execute_backward_defined np outbuf (m_reverseOutBuf s))
    as (revbuf & Hbwd & Hrev); [lia | done |].
  rewrite Hbwd. cbn [mbind option_bind].
  rewrite (Z.mod_small gds) by lia.
  rewrite (Z.mod_small (Z.of_nat depth - gds)) by lia.
  destruct (rescale_and_copy_content noise revbuf gds (Z.of_nat depth - gds) fftscale
              (m_samples cap) (nd_fresh, m_rng s))
    as (samples' & Hrun & Hl & Hcont); [lia .. |].
  fold noise. fold fftscale. rewrite Hrun. cbn [mbind option_bind].
  replace (Z.to_nat (Z.of_nat depth - gds)) with (depth - Z.to_nat gds)%nat in * by lia.
  eexists _, _. split; [reflexivity |].
  cbn [m_samples m_reverseOutBuf m_rng Resize set_samples snd].
  split; [by rewrite length_resize |]. split; [exact Hrev |].
  split; [unfold ns; by rewrite <- Hrng |].
  intros i Hlt. destruct (Hcont i Hlt) as (r & Hr1 & Hr2).
  exists r. split; [exact Hr1 |].
  rewrite lookup_resize by lia. unfold ns. by rewrite <- Hrng.
Qed.

Lemma filtered_samples_witness :
  exists src' cap',
    @DegradeSerialData IEEE.model reference_IEEE (TestWaveformSource_new 1)
      (@b8b10b_waveform IEEE.model IEEE.two IEEE.four 400 6) 400 6 true IEEE.zero
    = Some (src', cap') /\
    length (m_samples cap') = 4%nat.
Proof.
  destruct (filtered_samples IEEE.model reference_IEEE (TestWaveformSource_new 1)
              (@b8b10b_waveform IEEE.model IEEE.two IEEE.four 400 6) 400 6%nat IEEE.zero 2)
    as (src' & cap' & Hrun & Hlen & _).
  - reflexivity.
  - by left.
  - reflexivity.
  - reflexivity.
  - vm_compute. reflexivity.
  - lia.
  - exists src', cap'. split; [exact Hrun | exact Hlen].
Defined.

(** X11.  The channel is applied bin by bin and in place: complex bin [i] of
    the forward transform, [(re, im)], becomes
    [(re * cosval - im * sinval, re * sinval + im * cosval)] with the response
    interpolated at [bin_hz * i], both products taken from the values before
    the update, and no bin disturbs another. *)
Theorem channel_applied_per_bin :
  forall (FM : FloatModel) (Env : Environment) (sampleperiod : Z) (nouts : nat)
         (buf : list float),
    length buf = (2 * nouts)%nat ->
    let bin_hz :=
      round (ddiv (dmul (dmul (f2d (i2f 1 / i2f 2)%flt)
                              (ddiv (i2d 1000000) (i2d sampleperiod)))
                        (f2d (i2f 1000000000)))
                  (i2d (Z.of_nat nouts))) in
    exists buf',
      apply_channel sampleperiod nouts buf = Some buf' /\
      length buf' = (2 * nouts)%nat /\
      forall i re im, (i < nouts)%nat ->
        buf !! (i * 2)%nat = Some re -> buf !! (i * 2 + 1)%nat = Some im ->
        let pt := InterpolatePoint (d2f (dmul bin_hz (i2d (Z.of_nat i)))) in
        let sinval := (sinf (m_phase pt) * m_amplitude pt)%flt in
        let cosval := (cosf (m_phase pt) * m_amplitude pt)%flt in
        buf' !! (i * 2)%nat = Some (re * cosval - im * sinval)%flt /\
        buf' !! (i * 2 + 1)%nat = Some (re * sinval + im * cosval)%flt.
Proof.
  intros FM Env sampleperiod nouts buf Hlen bin_hz. unfold apply_channel. fold bin_hz.
  set (P := fun (j : nat) (b : list float) =>
              length b = (2 * nouts)%nat /\
              (forall k, (j * 2 <= k)%nat -> b !! k = buf !! k) /\
              forall i re im, (i < j)%nat ->
                buf !! (i * 2)%nat = Some re -> buf !! (i * 2 + 1)%nat = Some im ->
                let pt := InterpolatePoint (d2f (dmul bin_hz (i2d (Z.of_nat i)))) in
                let sinval := (sinf (m_phase pt) * m_amplitude pt)%flt in
                let cosval := (cosf (m_phase pt) * m_amplitude pt)%flt in
                b !! (i * 2)%nat = Some (re * cosval - im * sinval)%flt /\
                b !! (i * 2 + 1)%nat = Some (re * sinval + im * cosval)%flt).
  destruct (for_loopM_ind P
              (fun i buf0 =>
                 let freq := d2f (dmul bin_hz (i2d (Z.of_nat i))) in
                 let pt := InterpolatePoint freq in
                 let mag := m_amplitude pt in
                 let ang := m_phase pt in
                 let sinval := (sinf ang * mag)%flt in
                 let cosval := (cosf ang * mag)%flt in
                 real_orig ← buf0 !! (i * 2)%nat;
                 imag_orig ← buf0 !! (i * 2 + 1)%nat;
                 let buf1 := <[(i * 2)%nat := (real_orig * cosval - imag_orig * sinval)%flt]> buf0 in
                 Some (<[(i * 2 + 1)%nat := (real_orig * sinval + imag_orig * cosval)%flt]> buf1))
              nouts buf) as (buf' & Hrun & Hl & _ & Hc).
  - split; [done |]. split; [done |]. intros i re im Hlt. lia.
  - intros j b Hj (Hl & Hrest & Hdone). cbv zeta.
    destruct (lookup_lt_is_Some_2 buf (j * 2) ltac:(lia)) as [re Hre].
    destruct (lookup_lt_is_Some_2 buf (j * 2 + 1) ltac:(lia)) as [im Him].
    rewrite (Hrest (j * 2)%nat ltac:(lia)), Hre. cbn [mbind option_bind].
    rewrite (Hrest (j * 2 + 1)%nat ltac:(lia)), Him. cbn [mbind option_bind].
    eexists. split; [reflexivity |]. split; [| split].
    + by rewrite !length_insert.
    + intros k Hk. rewrite !list_lookup_insert_ne by lia. apply Hrest. lia.
    + intros i re' im' Hlt Hre' Him'. cbv zeta.
      destruct (decide (i = j)) as [-> | Hne].
      * assert (re' = re) as -> by congruence. assert (im' = im) as -> by congruence.
        split.
        -- rewrite list_lookup_insert_ne by lia.
           by rewrite list_lookup_insert_eq by lia.
        -- by rewrite list_lookup_insert_eq by (rewrite length_insert; lia).
      * rewrite !list_lookup_insert_ne by lia.
        apply (Hdone i re' im'); [lia | done | done].
  - exists buf'. split; [exact Hrun |]. split; [exact Hl |]. exact Hc.
Qed.

Lemma channel_applied_per_bin_witness :
  exists buf',
    @apply_channel IEEE.model reference_IEEE 1 2 [IEEE.one; IEEE.two; IEEE.three; IEEE.four]
    = Some buf' /\ length buf' = 4%nat.
Proof.
  destruct (channel_applied_per_bin IEEE.model reference_IEEE 1 2%nat
              [IEEE.one; IEEE.two; IEEE.three; IEEE.four] eq_refl)
    as (buf' & Hrun & Hlen & _).
  exists buf'. split; [exact Hrun | exact Hlen].
Defined.

(** X12.  The FFT cache.  The constructor leaves the cache consistent and
    every call that returns keeps it so; with the FFT path compiled in, the
    object then holds plans and buffers for the padded length of that call
    (plans of length [npoints], buffers of [npoints], [2 * (npoints/2 + 1)]
    and [npoints] cells), so that a following call of the same padded length
    reallocates nothing. *)
Theorem cache_kept_consistent :
  forall (FM : FloatModel) (Env : Environment),
    (forall rng : Z, cache_consistent (TestWaveformSource_new rng)) /\
    (forall (src src' : TestWaveformSource) (cap cap' : UniformAnalogWaveform)
            (sampleperiod : Z) (depth : nat) (lpf : bool) (noise_amplitude : float),
       cache_consistent src ->
       DegradeSerialData src cap sampleperiod depth lpf noise_amplitude = Some (src', cap') ->
       cache_consistent src' /\
       (APPLE_SILICON = false ->
        let npoints := next_pow2 depth in
        m_cachedNumPoints src' = npoints /\
        m_forwardPlan src' = Some npoints /\
        m_reversePlan src' = Some npoints /\
        length (m_forwardInBuf src') = npoints /\
        length (m_forwardOutBuf src') = (2 * (npoints / 2 + 1))%nat /\
        length (m_reverseOutBuf src') = npoints /\
        forall depth2 : nat,
          next_pow2 depth2 = npoints ->
          prepare_fft src' (next_pow2 depth2) (next_pow2 depth2 / 2 + 1) = src')).
Proof.
  intros FM Env. split; [intros rng; by left |].
  intros src src' cap cap' sampleperiod depth lpf noise_amplitude Hc Hrun.
  split; [by eapply DegradeSerialData_consistent |].
  intros Ha npoints.
  assert (Hshape : m_cachedNumPoints src' = npoints /\
                   m_forwardPlan src' = Some npoints /\
                   m_reversePlan src' = Some npoints /\
                   length (m_forwardInBuf src') = npoints /\
                   length (m_forwardOutBuf src') = (2 * (npoints / 2 + 1))%nat /\
                   length (m_reverseOutBuf src') = npoints).
  { revert Hrun. unfold DegradeSerialData. rewrite Ha. cbv zeta.
    destruct (next_pow2_ge depth) as [_ Hnp].
    destruct (prepare_fft_shape src _ Hc Hnp) as (Hn & Hf & Hr & Hi & Ho & Hv).
    cbv zeta in *. fold npoints in Hn, Hf, Hr, Hi, Ho, Hv |- *.
    set (s := prepare_fft src _ _) in *.
    destruct lpf.
    - destruct (RectangularWindow _ _ _ _) as [inbuf |] eqn:E1; [| discriminate].
      cbn [mbind option_bind].
      rewrite Hf. destruct (ffts_execute_forward _ _ _) as [outbuf |] eqn:E2; [| discriminate].
      cbn [mbind option_bind].
      destruct (groupDelaySamples _) as [gds |]; [| discriminate]. cbn [mbind option_bind].
      destruct (apply_channel _ _ _) as [outbuf' |] eqn:E3; [| discriminate].
      cbn [mbind option_bind].
      rewrite Hr. destruct (ffts_execute_backward _ _ _) as [revbuf |] eqn:E4; [| discriminate].
      cbn [mbind option_bind].
      destruct (rescale_and_copy _ _ _ _ _ _ _) as [[samples ns] |]; [| discriminate].
      cbn [mbind option_bind]. intros [= <- _]. cbn.
      apply RectangularWindow_length in E1; [| done].
      apply ffts_execute_forward_length in E2; [| done].
      apply apply_channel_keeps_length in E3; [| done].
      apply ffts_execute_backward_length in E4; [| done].
      by repeat split.
    - destruct (add_noise _ _ _ _) as [[samples ns] |]; [| discriminate].
      cbn [mbind option_bind]. intros [= <- _]. cbn. by repeat split. }
  destruct Hshape as (Hn & Hf & Hr & Hi & Ho & Hv).
  repeat (split; [assumption |]).
  intros depth2 Hd2. unfold prepare_fft. rewrite Hd2, Hn.
  by rewrite Nat.eqb_refl.
Qed.

Lemma cache_kept_consistent_witness :
  cache_consistent (FM := IEEE.model) (TestWaveformSource_new 7).
Proof. exact (proj1 (cache_kept_consistent IEEE.model reference_IEEE) 7). Defined.

(** X13.  The noise path is defined exactly when the waveform holds at least
    [depth] samples; it then keeps the label, the time step, the number of
    samples and every sample from index [depth] on, and it leaves the FFT
    cache of the object as the reallocation step left it. *)
Theorem noise_path_bounds :
  forall (FM : FloatModel) (Env : Environment) (src : TestWaveformSource)
         (cap : UniformAnalogWaveform) (sampleperiod : Z) (depth : nat) (lpf : bool)
         (noise_amplitude : float),
    APPLE_SILICON = true \/ lpf = false ->
    (DegradeSerialData src cap sampleperiod depth lpf noise_amplitude = None
     <-> (length (m_samples cap) < depth)%nat) /\
    (forall src' cap',
       DegradeSerialData src cap sampleperiod depth lpf noise_amplitude = Some (src', cap') ->
       m_name cap' = m_name cap /\
       m_timescale cap' = m_timescale cap /\
       length (m_samples cap') = length (m_samples cap) /\
       forall i, (depth <= i)%nat -> m_samples cap' !! i = m_samples cap !! i).
Proof.
  intros FM Env src cap sampleperiod depth lpf noise_amplitude Hpath.
  destruct (Nat.lt_ge_cases (length (m_samples cap)) depth) as [Hlt | Hge].
  - assert (Hnone : DegradeSerialData src cap sampleperiod depth lpf noise_amplitude = None).
    { unfold DegradeSerialData.
      destruct APPLE_SILICON eqn:Ha.
      - by rewrite add_noise_overrun.
      - destruct Hpath as [? | ->]; [discriminate |]. cbv zeta.
        by rewrite add_noise_overrun. }
    split; [done |]. intros src' cap' Hrun. congruence.
  - destruct (DegradeSerialData_noise_only src cap sampleperiod depth lpf noise_amplitude
                Hpath Hge) as (src1 & s1 & Hr1 & _ & Hl1 & _ & Hhi).
    split.
    + split; [congruence | lia].
    + intros src' cap' Hrun. rewrite Hr1 in Hrun. injection Hrun as <- <-.
      cbn [m_name m_timescale m_samples set_samples]. by repeat split.
Qed.

Lemma noise_path_bounds_witness :
  @DegradeSerialData IEEE.model reference_IEEE (TestWaveformSource_new 1)
    (@GenerateStep IEEE.model IEEE.zero IEEE.one 1 2) 1 3 false IEEE.zero = None.
Proof.
  apply (proj1 (noise_path_bounds IEEE.model reference_IEEE (TestWaveformSource_new 1)
                  (@GenerateStep IEEE.model IEEE.zero IEEE.one 1 2) 1 3%nat false IEEE.zero
                  (or_intror eq_refl))).
  vm_compute. lia.
Defined.

(** X14.  Without the loss model a longer call extends a shorter one: from
    the same engine state (and, for [GeneratePRBS31], the same value of
    [rand()]), the samples of a call of depth [d] are the first [d] samples of
    the call of depth [d' >= d] with the same parameters. *)
Theorem longer_call_extends_shorter :
  forall (FM : FloatModel) (Env : Environment) (src : TestWaveformSource)
         (rand_result : Z) (amplitude period : float) (sampleperiod : Z) (d d' : nat)
         (lpf : bool) (noise_amplitude : float),
    APPLE_SILICON = true \/ lpf = false ->
    (d <= d')%nat ->
    (exists src1 cap1 src2 cap2,
       GeneratePRBS31 src rand_result amplitude period sampleperiod d lpf noise_amplitude
       = Some (src1, cap1) /\
       GeneratePRBS31 src rand_result amplitude period sampleperiod d' lpf noise_amplitude
       = Some (src2, cap2) /\
       m_samples cap1 = take d (m_samples cap2)) /\
    (exists src1 cap1 src2 cap2,
       Generate8b10b src amplitude period sampleperiod d lpf noise_amplitude
       = Some (src1, cap1) /\
       Generate8b10b src amplitude period sampleperiod d' lpf noise_amplitude
       = Some (src2, cap2) /\
       m_samples cap1 = take d (m_samples cap2)).
Proof.
  intros FM Env src rand_result amplitude period sampleperiod d d' lpf noise_amplitude
    Hpath Hle.
  split.
  - destruct (PRBS31_waveform_spec rand_result amplitude period sampleperiod d)
      as (_ & Hl1 & Hs1).
    destruct (PRBS31_waveform_spec rand_result amplitude period sampleperiod d')
      as (_ & Hl2 & Hs2).
    unfold GeneratePRBS31.
    apply noise_only_prefix; [done | done | done | done |].
    intros i Hi. by rewrite Hs1, Hs2 by lia.
  - destruct (b8b10b_waveform_spec amplitude period sampleperiod d) as (_ & Hl1 & Hs1).
    destruct (b8b10b_waveform_spec amplitude period sampleperiod d') as (_ & Hl2 & Hs2).
    unfold Generate8b10b.
    apply noise_only_prefix; [done | done | done | done |].
    intros i Hi. by rewrite Hs1, Hs2 by lia.
Qed.

Lemma longer_call_extends_shorter_witness :
  exists src1 cap1 src2 cap2,
    @Generate8b10b IEEE.model reference_IEEE (TestWaveformSource_new 1)
      IEEE.two IEEE.four 1 3 false IEEE.one = Some (src1, cap1) /\
    @Generate8b10b IEEE.model reference_IEEE (TestWaveformSource_new 1)
      IEEE.two IEEE.four 1 5 false IEEE.one = Some (src2, cap2) /\
    m_samples cap1 = take 3 (m_samples cap2).
Proof.
  apply (proj2 (longer_call_extends_shorter IEEE.model reference_IEEE
                  (TestWaveformSource_new 1) 0 IEEE.two IEEE.four 1 3%nat 5%nat false IEEE.one
                  (or_intror eq_refl) ltac:(lia))).
Defined.

(** X15.  The top bit of the 32-bit register is never read: two values of
    [rand()] with the same low 31 bits give the same waveform. *)
Theorem PRBS31_seed_low_bits :
  forall (FM : FloatModel) (r1 r2 : Z) (amplitude period : float) (sampleperiod : Z)
         (depth : nat),
    low31 (uint32 r1) = low31 (uint32 r2) ->
    PRBS31_waveform r1 amplitude period sampleperiod depth
    = PRBS31_waveform r2 amplitude period sampleperiod depth.
Proof.
  intros FM r1 r2 amplitude period sampleperiod depth Hlow.
  assert (Hbit : forall n, PRBS31_bit (uint32 r1) n = PRBS31_bit (uint32 r2) n)
    by (intros n; by rewrite !PRBS31_bit_lfsr31, Hlow).
  assert (Hval : forall i,
            v_value (vars_after (PRBS31_iteration (amplitude / i2f 2)%flt period sampleperiod) i
                       (PRBS31_entry r1 period))
            = v_value (vars_after (PRBS31_iteration (amplitude / i2f 2)%flt period sampleperiod) i
                         (PRBS31_entry r2 period))).
  { intros i.
    destruct (PRBS31_vars_after (amplitude / i2f 2)%flt period sampleperiod r1 i)
      as (_ & _ & ->).
    destruct (PRBS31_vars_after (amplitude / i2f 2)%flt period sampleperiod r2 i)
      as (_ & _ & ->).
    destruct (advances _ _ _); [done | apply Hbit]. }
  assert (Hph : forall r i,
            v_phase (vars_after (PRBS31_iteration (amplitude / i2f 2)%flt period sampleperiod) i
                       (PRBS31_entry r period))
            = phase_after period sampleperiod i).
  { intros r i.
    by destruct (PRBS31_vars_after (amplitude / i2f 2)%flt period sampleperiod r i)
      as (-> & _). }
  destruct (PRBS31_waveform_spec r1 amplitude period sampleperiod depth) as (Ht1 & Hl1 & Hs1).
  destruct (PRBS31_waveform_spec r2 amplitude period sampleperiod depth) as (Ht2 & Hl2 & Hs2).
  apply waveform_eq.
  - unfold PRBS31_waveform.
    destruct (synthesize_spec (PRBS31_iteration (amplitude / i2f 2)%flt period sampleperiod)
                depth {| v_prbs := uint32 r1; v_phase := period; v_value := false |}
                (Resize (set_timescale (new_waveform "PRBS31") sampleperiod) depth))
      as (_ & -> & _); [cbn; by rewrite length_resize |].
    destruct (synthesize_spec (PRBS31_iteration (amplitude / i2f 2)%flt period sampleperiod)
                depth {| v_prbs := uint32 r2; v_phase := period; v_value := false |}
                (Resize (set_timescale (new_waveform "PRBS31") sampleperiod) depth))
      as (_ & -> & _); [cbn; by rewrite length_resize |].
    reflexivity.
  - congruence.
  - apply list_eq. intros i.
    destruct (decide (i < depth)%nat) as [Hlt | Hge].
    + rewrite Hs1, Hs2 by done. f_equal.
      destruct (PRBS31_iteration_spec (amplitude / i2f 2)%flt period sampleperiod
                  (vars_after (PRBS31_iteration (amplitude / i2f 2)%flt period sampleperiod) i
                     (PRBS31_entry r1 period))) as (_ & _ & _ & ->).
      destruct (PRBS31_iteration_spec (amplitude / i2f 2)%flt period sampleperiod
                  (vars_after (PRBS31_iteration (amplitude / i2f 2)%flt period sampleperiod) i
                     (PRBS31_entry r2 period))) as (_ & _ & _ & ->).
      rewrite <- !vars_after_S. by rewrite !Hph, !Hval.
    + by rewrite !lookup_ge_None_2 by lia.
Qed.

Lemma PRBS31_seed_low_bits_witness :
  @PRBS31_waveform IEEE.model 5 IEEE.two IEEE.four 1 6
  = @PRBS31_waveform IEEE.model (5 + 2 ^ 31) IEEE.two IEEE.four 1 6.
Proof.
  apply (PRBS31_seed_low_bits IEEE.model 5 (5 + 2 ^ 31) IEEE.two IEEE.four 1 6%nat).
  reflexivity.
Defined.

(** X16.  The domain of the FFT path.  With the FFT path compiled in, a
    consistent cache, a waveform of [depth] samples and a group delay of [gds]
    samples, the degraded call is undefined exactly when [gds] is negative or
    exceeds [depth]: the copy loop then runs over the end of the waveform. *)
Theorem filter_defined_iff :
  forall (FM : FloatModel) (Env : Environment) (src : TestWaveformSource)
         (cap : UniformAnalogWaveform) (sampleperiod : Z) (depth : nat)
         (noise_amplitude : float) (gds : Z),
    APPLE_SILICON = false ->
    cache_consistent src ->
    length (m_samples cap) = depth ->
    Z.of_nat depth <= INT64_MAX ->
    groupDelaySamples (m_timescale cap) = Some gds ->
    INT64_MIN <= gds <= INT64_MAX ->
    DegradeSerialData src cap sampleperiod depth true noise_amplitude = None
    <-> gds < 0 \/ Z.of_nat depth < gds.
Proof.
  intros FM Env src cap sampleperiod depth noise_amplitude gds Ha Hc Hlen Hdepth Hgds Hint.
  split.
  - intros Hnone.
    destruct (Z.lt_ge_cases gds 0) as [Hneg | Hpos]; [by left |].
    destruct (Z.lt_ge_cases (Z.of_nat depth) gds) as [Hbig | Hsmall]; [by right |].
    destruct (DegradeSerialData_lpf_length src cap sampleperiod depth noise_amplitude gds
                Ha Hc Hlen) as (src' & cap' & Hrun & _); [| done | lia |].
    + unfold INT64_MAX, SIZE_MODULUS in *. lia.
    + congruence.
  - intros Hout.
    by apply (DegradeSerialData_lpf_undefined src cap sampleperiod depth noise_amplitude gds).
Qed.

Lemma filter_defined_iff_witness :
  @DegradeSerialData IEEE.model reference_IEEE (TestWaveformSource_new 1)
    (@b8b10b_waveform IEEE.model IEEE.two IEEE.four 100 6) 100 6 true IEEE.zero = None.
Proof.
  apply (proj2 (filter_defined_iff IEEE.model reference_IEEE (TestWaveformSource_new 1)
                 (@b8b10b_waveform IEEE.model IEEE.two IEEE.four 100 6) 100 6%nat IEEE.zero 9
                 eq_refl (or_introl eq_refl) eq_refl ltac:(by vm_compute)
                 ltac:(by vm_compute) ltac:(by vm_compute))).
  right. lia.
Defined.

(** ** The sinewave generators *)

Section SinewaveProperties.
Context {FM : FloatModel} {Env : Environment}.

(** A loop that stores, at each index, a clean [float] sample plus one draw. *)
Lemma noisy_fill_spec (noise : noise_state -> double * noise_state) (clean : nat -> float)
  (depth : nat) (ret : UniformAnalogWaveform) (ns : noise_state) :
  length (m_samples ret) = depth ->
  let r := for_loop depth
             (fun i '(ret, ns) =>
                let '(n, ns) := noise ns in
                (set_samples ret (<[i := d2f (dadd (f2d (clean i)) n)]> (m_samples ret)), ns))
             (ret, ns) in
  snd r = noise_after noise depth ns /\
  m_name (fst r) = m_name ret /\
  m_timescale (fst r) = m_timescale ret /\
  length (m_samples (fst r)) = depth /\
  forall i, (i < depth)%nat ->
    m_samples (fst r) !! i = Some (d2f (dadd (f2d (clean i)) (noise_draw noise i ns))).
Proof.
  intros Hlen r. subst r.
  apply (for_loop_ind
           (fun j (st : UniformAnalogWaveform * noise_state) =>
              snd st = noise_after noise j ns /\
              m_name (fst st) = m_name ret /\
              m_timescale (fst st) = m_timescale ret /\
              length (m_samples (fst st)) = depth /\
              forall i, (i < j)%nat ->
                m_samples (fst st) !! i
                = Some (d2f (dadd (f2d (clean i)) (noise_draw noise i ns))))).
  - repeat split; try done. intros i Hi. lia.
  - intros j [w st] Hj (Hns & Hname & Hts & Hl & Hc). cbn [fst snd] in *.
    destruct (noise st) as [n st'] eqn:En. cbn [fst snd m_name m_timescale m_samples set_samples].
    repeat split; try done.
    + by rewrite noise_after_S, <- Hns, En.
    + by rewrite length_insert.
    + intros i Hi. destruct (decide (i = j)) as [-> | Hne].
      * rewrite list_lookup_insert_eq by lia. unfold noise_draw. by rewrite <- Hns, En.
      * rewrite list_lookup_insert_ne by done. apply Hc. lia.
Qed.

End SinewaveProperties.

(** Replaces the loop of a sinewave generator by its closed form, for the
    clean samples [clean]. *)
Ltac sinewave_loop noise clean name sampleperiod depth ns :=
  let H := fresh "Hloop" in
  pose proof (noisy_fill_spec noise clean depth
                (Resize (set_timescale (new_waveform name) sampleperiod) depth) ns) as H;
  cbv zeta in H; cbv zeta;
  destruct (for_loop depth _ _) as [w st];
  destruct H as (Hns & _ & Hts & Hl & Hc); [cbn; by rewrite length_resize |];
  cbn [fst snd] in *.

(** X17.  [GenerateNoisySinewave] returns [depth] samples with the time step
    [sampleperiod]; sample [i] is [scale * sinf(i * radians_per_sample +
    startphase)] computed in [float], plus draw number [i] of a fresh
    distribution, added in [double] and rounded to [float]; the engine is left
    after [depth] draws and the FFT cache of the object is not touched. *)
Theorem NoisySinewave_samples :
  forall (FM : FloatModel) (Env : Environment) (M_PI : double) (src : TestWaveformSource)
         (amplitude startphase period : float) (sampleperiod : Z) (depth : nat)
         (noise_amplitude : float),
    let noise := normal_distribution (i2d 0) (f2d noise_amplitude) in
    let ns := (nd_fresh, m_rng src) in
    let samples_per_cycle := d2f (ddiv (dmul (f2d period) (i2d 1)) (i2d sampleperiod)) in
    let radians_per_sample := d2f (ddiv (dmul (i2d 2) M_PI) (f2d samples_per_cycle)) in
    let scale := (amplitude / i2f 2)%flt in
    let r := GenerateNoisySinewave M_PI src amplitude startphase period sampleperiod depth
               noise_amplitude in
    m_timescale (snd r) = sampleperiod /\
    length (m_samples (snd r)) = depth /\
    (forall i, (i < depth)%nat ->
       m_samples (snd r) !! i
       = Some (d2f (dadd (f2d (scale * sinf (i2f (Z.of_nat i) * radians_per_sample
                                             + startphase))%flt)
                         (noise_draw noise i ns)))) /\
    fst r = set_rng src (snd (noise_after noise depth ns)).
Proof.
  intros FM Env M_PI src amplitude startphase period sampleperiod depth noise_amplitude
    noise ns samples_per_cycle radians_per_sample scale r.
  subst r. unfold GenerateNoisySinewave.
  fold noise. fold samples_per_cycle. fold radians_per_sample. fold scale. fold ns.
  sinewave_loop noise
    (fun i => (scale * sinf (i2f (Z.of_nat i) * radians_per_sample + startphase))%flt)
    "NoisySine" sampleperiod depth ns.
  by rewrite Hns.
Qed.

(** X18.  [GenerateNoisySinewaveMix] returns [depth] samples with the time
    step [sampleperiod]; sample [i] is [scale * (sinf(i * radians_per_sample1
    + startphase1) + sinf(i * radians_per_sample2 + startphase2))] with
    [scale = amplitude / 4], computed in [float], plus draw number [i]; the
    engine is left after [depth] draws and the FFT cache is not touched. *)
Theorem NoisySinewaveMix_samples :
  forall (FM : FloatModel) (Env : Environment) (M_PI : double) (src : TestWaveformSource)
         (amplitude startphase1 startphase2 period1 period2 : float) (sampleperiod : Z)
         (depth : nat) (noise_amplitude : float),
    let noise := normal_distribution (i2d 0) (f2d noise_amplitude) in
    let ns := (nd_fresh, m_rng src) in
    let radians_per_sample1 :=
      d2f (ddiv (dmul (dmul (i2d 2) M_PI) (i2d sampleperiod)) (f2d period1)) in
    let radians_per_sample2 :=
      d2f (ddiv (dmul (dmul (i2d 2) M_PI) (i2d sampleperiod)) (f2d period2)) in
    let scale := (amplitude / i2f 4)%flt in
    let r := GenerateNoisySinewaveMix M_PI src amplitude startphase1 startphase2
               period1 period2 sampleperiod depth noise_amplitude in
    m_timescale (snd r) = sampleperiod /\
    length (m_samples (snd r)) = depth /\
    (forall i, (i < depth)%nat ->
       m_samples (snd r) !! i
       = Some (d2f (dadd (f2d (scale
                               * (sinf (i2f (Z.of_nat i) * radians_per_sample1 + startphase1)
                                  + sinf (i2f (Z.of_nat i) * radians_per_sample2
                                          + startphase2)))%flt)
                         (noise_draw noise i ns)))) /\
    fst r = set_rng src (snd (noise_after noise depth ns)).
Proof.
  intros FM Env M_PI src amplitude startphase1 startphase2 period1 period2 sampleperiod
    depth noise_amplitude noise ns radians_per_sample1 radians_per_sample2 scale r.
  subst r. unfold GenerateNoisySinewaveMix.
  fold noise. fold radians_per_sample1. fold radians_per_sample2. fold scale. fold ns.
  sinewave_loop noise
    (fun i => (scale
               * (sinf (i2f (Z.of_nat i) * radians_per_sample1 + startphase1)
                  + sinf (i2f (Z.of_nat i) * radians_per_sample2 + startphase2)))%flt)
    "NoisySineMix" sampleperiod depth ns.
  by rewrite Hns.
Qed.

(** ** The sinewave generators in binary32 *)

Lemma same_value_finite (x y : spec_float) :
  IEEE.same_value x y -> finite32 y -> finite32 x /\ (SF2Q x == SF2Q y)%Q.
Proof.
  intros [-> | (s & t & -> & ->)] Hy; [by split |].
  split; [apply finite32_zero | reflexivity].
Qed.

(** A quarter of a finite amplitude that is not negative. *)
Lemma quarter_float (amplitude : spec_float) :
  finite32 amplitude -> (0 <= SF2Q amplitude)%Q ->
  let scale := @fdiv IEEE.model amplitude (i2f 4) in
  finite32 scale /\ (0 <= SF2Q scale <= SF2Q half_max32)%Q.
Proof.
  intros Hf H0 scale. subst scale. change (@i2f IEEE.model 4) with IEEE.four.
  assert (H4 : (SF2Q IEEE.four == 4)%Q) by reflexivity.
  pose proof (finite32_le_max amplitude Hf) as Hmax. rewrite SF2Q_max32 in Hmax.
  assert (Hh : finite32 half_max32) by done.
  assert (Hhp : (0 <= SF2Q half_max32)%Q) by lra.
  destruct (fdiv_between amplitude IEEE.four IEEE.zero half_max32 Hf ltac:(done)
              ltac:(reflexivity) (finite32_zero false) Hh) as [Hs Hr]; SF2Q_simpl.
  - rewrite H4. split.
    + apply Qle_shift_div_l; lra.
    + apply Qle_shift_div_r; lra.
  - by split.
Qed.

(** A scale factor times a value in [-1, 1]. *)
Lemma scaled_unit_range (scale v : spec_float) :
  finite32 scale -> (0 <= SF2Q scale)%Q ->
  finite32 v -> (-1 <= SF2Q v <= 1)%Q ->
  finite32 (@fmul IEEE.model scale v) /\
  (- SF2Q scale <= SF2Q (@fmul IEEE.model scale v) <= SF2Q scale)%Q.
Proof.
  intros Hs H0 Hv Hr.
  destruct (fmul_between scale v (SFopp scale) scale Hs Hv (finite32_opp _ Hs) Hs)
    as [Hf Hb]; rewrite ?SF2Q_opp in *; [nra | by split].
Qed.

(** With a standard deviation of zero, draw number [i] leaves a clean
    binary32 sample at its value. *)
Lemma zero_noise_draw (Env : @Environment IEEE.model) (s : bool) (y : spec_float)
  (i : nat) (ns : @noise_state IEEE.model Env) :
  (forall (nd : @nd_cache IEEE.model Env) (rng : Z),
     IEEE.is_finite (fst (fst (@std_normal IEEE.model Env nd rng))) = true) ->
  IEEE.valid32 y ->
  IEEE.same_value
    (@d2f IEEE.model
       (@dadd IEEE.model (@f2d IEEE.model y)
          (noise_draw (@normal_distribution IEEE.model Env (@i2d IEEE.model 0)
                         (@f2d IEEE.model (S754_zero s))) i ns)))
    y.
Proof.
  intros Hfin Hy.
  unfold noise_draw. set (st := noise_after _ i _). unfold normal_distribution.
  pose proof (Hfin (fst st) (snd st)) as Hz.
  destruct (std_normal (fst st) (snd st)) as [[z nd] rng]. cbn [fst] in Hz |- *.
  by apply zero_stddev_sample.
Qed.

(** X19.  Peak-to-peak amplitude of the sinewave.  In binary32, with a finite
    amplitude >= 0 and a noise standard deviation of zero, every sample of
    [GenerateNoisySinewave] at which [sinf] returns a finite value in [-1, 1]
    is the product [scale * sinf(...)] itself and lies in [-scale, +scale],
    where [scale] is [amplitude / 2]. *)
Theorem NoisySinewave_in_range :
  forall (Env : @Environment IEEE.model) (M_PI : spec_float)
         (src : @TestWaveformSource IEEE.model)
         (amplitude startphase period : spec_float) (sampleperiod : Z) (depth : nat)
         (s : bool),
    finite32 amplitude -> (0 <= SF2Q amplitude)%Q ->
    (forall (nd : @nd_cache IEEE.model Env) (rng : Z),
       IEEE.is_finite (fst (fst (@std_normal IEEE.model Env nd rng))) = true) ->
    let samples_per_cycle :=
      @d2f IEEE.model (@ddiv IEEE.model (@dmul IEEE.model (@f2d IEEE.model period) (i2d 1))
                         (i2d sampleperiod)) in
    let radians_per_sample :=
      @d2f IEEE.model (@ddiv IEEE.model (@dmul IEEE.model (i2d 2) M_PI)
                         (@f2d IEEE.model samples_per_cycle)) in
    let scale := @fdiv IEEE.model amplitude (i2f 2) in
    let r := @GenerateNoisySinewave IEEE.model Env M_PI src amplitude startphase period
               sampleperiod depth (S754_zero s) in
    length (m_samples (snd r)) = depth /\
    forall i x, m_samples (snd r) !! i = Some x ->
      let v := @sinf IEEE.model Env
                 (@fadd IEEE.model (@fmul IEEE.model (i2f (Z.of_nat i)) radians_per_sample)
                    startphase) in
      finite32 v -> (-1 <= SF2Q v <= 1)%Q ->
      IEEE.same_value x (@fmul IEEE.model scale v) /\
      finite32 x /\ (- SF2Q scale <= SF2Q x <= SF2Q scale)%Q.
Proof.
  intros Env M_PI src amplitude startphase period sampleperiod depth s Hamp H0 Hfin
    samples_per_cycle radians_per_sample scale r.
  subst r. unfold GenerateNoisySinewave.
  fold samples_per_cycle. fold radians_per_sample. fold scale.
  set (noise := @normal_distribution IEEE.model Env (i2d 0) (@f2d IEEE.model (S754_zero s))).
  set (ns := (@nd_fresh IEEE.model Env, m_rng src)).
  sinewave_loop noise
    (fun i => @fmul IEEE.model scale
                (@sinf IEEE.model Env
                   (@fadd IEEE.model (@fmul IEEE.model (i2f (Z.of_nat i)) radians_per_sample)
                      startphase)))
    "NoisySine" sampleperiod depth ns.
  split; [exact Hl |].
  intros i x Hx.
  set (v := @sinf IEEE.model Env
              (@fadd IEEE.model (@fmul IEEE.model (i2f (Z.of_nat i)) radians_per_sample)
                 startphase)).
  intros Hv Hr.
  assert (Hi : (i < depth)%nat) by (rewrite <- Hl; exact (lookup_lt_Some _ _ _ Hx)).
  pose proof (eq_trans (eq_sym Hx) (Hc i Hi)) as Heq. apply (inj Some) in Heq.
  fold v in Heq. rewrite Heq. clear Heq Hx x.
  destruct (scale_float amplitude Hamp H0) as [Hs Hsr]. fold scale in Hs, Hsr.
  destruct (scaled_unit_range scale v Hs ltac:(lra) Hv Hr) as [Hy Hyr].
  pose proof (zero_noise_draw Env s (@fmul IEEE.model scale v) i ns Hfin (proj1 Hy))
    as Hsame.
  fold noise in Hsame.
  destruct (same_value_finite _ _ Hsame Hy) as [Hxf Hxv].
  split; [exact Hsame |]. split; [exact Hxf |]. lra.
Qed.

Lemma NoisySinewave_in_range_witness :
  length (m_samples (snd (@GenerateNoisySinewave IEEE.model reference_IEEE M_PI_binary64
                            (TestWaveformSource_new 1) IEEE.two IEEE.zero IEEE.four 1 3
                            IEEE.zero))) = 3%nat.
Proof.
  apply (NoisySinewave_in_range reference_IEEE M_PI_binary64 (TestWaveformSource_new 1)
           IEEE.two IEEE.zero IEEE.four 1 3%nat false).
  - done.
  - by vm_compute.
  - apply reference_draw_finite.
Defined.

(** X20.  The mix of two sinewaves.  In binary32, with a finite amplitude
    >= 0 and a noise standard deviation of zero, every sample of
    [GenerateNoisySinewaveMix] at which both calls of [sinf] return finite
    values in [-1, 1] is finite and lies in [-2 * scale, +2 * scale], where
    [scale] is [amplitude / 4]. *)
Theorem NoisySinewaveMix_in_range :
  forall (Env : @Environment IEEE.model) (M_PI : spec_float)
         (src : @TestWaveformSource IEEE.model)
         (amplitude startphase1 startphase2 period1 period2 : spec_float)
         (sampleperiod : Z) (depth : nat) (s : bool),
    finite32 amplitude -> (0 <= SF2Q amplitude)%Q ->
    (forall (nd : @nd_cache IEEE.model Env) (rng : Z),
       IEEE.is_finite (fst (fst (@std_normal IEEE.model Env nd rng))) = true) ->
    let radians_per_sample1 :=
      @d2f IEEE.model (@ddiv IEEE.model
                         (@dmul IEEE.model (@dmul IEEE.model (i2d 2) M_PI) (i2d sampleperiod))
                         (@f2d IEEE.model period1)) in
    let radians_per_sample2 :=
      @d2f IEEE.model (@ddiv IEEE.model
                         (@dmul IEEE.model (@dmul IEEE.model (i2d 2) M_PI) (i2d sampleperiod))
                         (@f2d IEEE.model period2)) in
    let scale := @fdiv IEEE.model amplitude (i2f 4) in
    let r := @GenerateNoisySinewaveMix IEEE.model Env M_PI src amplitude startphase1
               startphase2 period1 period2 sampleperiod depth (S754_zero s) in
    length (m_samples (snd r)) = depth /\
    forall i x, m_samples (snd r) !! i = Some x ->
      let v1 := @sinf IEEE.model Env
                  (@fadd IEEE.model (@fmul IEEE.model (i2f (Z.of_nat i)) radians_per_sample1)
                     startphase1) in
      let v2 := @sinf IEEE.model Env
                  (@fadd IEEE.model (@fmul IEEE.model (i2f (Z.of_nat i)) radians_per_sample2)
                     startphase2) in
      finite32 v1 -> (-1 <= SF2Q v1 <= 1)%Q ->
      finite32 v2 -> (-1 <= SF2Q v2 <= 1)%Q ->
      IEEE.same_value x (@fmul IEEE.model scale (@fadd IEEE.model v1 v2)) /\
      finite32 x /\ (- (2 * SF2Q scale) <= SF2Q x <= 2 * SF2Q scale)%Q.
Proof.
  intros Env M_PI src amplitude startphase1 startphase2 period1 period2 sampleperiod depth s
    Hamp H0 Hfin radians_per_sample1 radians_per_sample2 scale r.
  subst r. unfold GenerateNoisySinewaveMix.
  fold radians_per_sample1. fold radians_per_sample2. fold scale.
  set (noise := @normal_distribution IEEE.model Env (i2d 0) (@f2d IEEE.model (S754_zero s))).
  set (ns := (@nd_fresh IEEE.model Env, m_rng src)).
  sinewave_loop noise
    (fun i => @fmul IEEE.model scale
                (@fadd IEEE.model
                   (@sinf IEEE.model Env
                      (@fadd IEEE.model
                         (@fmul IEEE.model (i2f (Z.of_nat i)) radians_per_sample1) startphase1))
                   (@sinf IEEE.model Env
                      (@fadd IEEE.model
                         (@fmul IEEE.model (i2f (Z.of_nat i)) radians_per_sample2) startphase2))))
    "NoisySineMix" sampleperiod depth ns.
  split; [exact Hl |].
  intros i x Hx.
  set (v1 := @sinf IEEE.model Env
               (@fadd IEEE.model (@fmul IEEE.model (i2f (Z.of_nat i)) radians_per_sample1)
                  startphase1)).
  set (v2 := @sinf IEEE.model Env
               (@fadd IEEE.model (@fmul IEEE.model (i2f (Z.of_nat i)) radians_per_sample2)
                  startphase2)).
  intros Hv1 Hr1 Hv2 Hr2.
  assert (Hi : (i < depth)%nat) by (rewrite <- Hl; exact (lookup_lt_Some _ _ _ Hx)).
  pose proof (eq_trans (eq_sym Hx) (Hc i Hi)) as Heq. apply (inj Some) in Heq.
  fold v1 v2 in Heq. rewrite Heq. clear Heq Hx x.
  destruct (quarter_float amplitude Hamp H0) as [Hs Hsr]. fold scale in Hs, Hsr.
  assert (H2 : (SF2Q IEEE.two == 2)%Q) by reflexivity.
  destruct (fadd_between v1 v2 (SFopp IEEE.two) IEEE.two Hv1 Hv2 ltac:(done) ltac:(done))
    as [Hsum Hsumr]; [rewrite SF2Q_opp, H2; lra |].
  rewrite SF2Q_opp, H2 in Hsumr.
  destruct (double_float scale Hs ltac:(lra)) as (f & Hf & Hfv).
  destruct (fmul_between scale (@fadd IEEE.model v1 v2) (SFopp f) f Hs Hsum
              (finite32_opp _ Hf) Hf) as [Hy Hyr].
  { rewrite SF2Q_opp, Hfv. nra. }
  rewrite SF2Q_opp, Hfv in Hyr.
  pose proof (zero_noise_draw Env s (@fmul IEEE.model scale (@fadd IEEE.model v1 v2)) i ns
                Hfin (proj1 Hy)) as Hsame.
  fold noise in Hsame.
  destruct (same_value_finite _ _ Hsame Hy) as [Hxf Hxv].
  split; [exact Hsame |]. split; [exact Hxf |]. lra.
Qed.

Lemma NoisySinewaveMix_in_range_witness :
  length (m_samples (snd (@GenerateNoisySinewaveMix IEEE.model reference_IEEE M_PI_binary64
                            (TestWaveformSource_new 1) IEEE.two IEEE.zero IEEE.one
                            IEEE.four IEEE.three 1 3 IEEE.zero))) = 3%nat.
Proof.
  apply (NoisySinewaveMix_in_range reference_IEEE M_PI_binary64 (TestWaveformSource_new 1)
           IEEE.two IEEE.zero IEEE.one IEEE.four IEEE.three 1 3%nat false).
  - done.
  - by vm_compute.
  - apply reference_draw_finite.
Defined.
